(** * A shallow embedding of the cell-network simulation framework

    The development follows [Simulation.py]: the reaction-term classes, the
    reaction graph ([InternalModel]), the compartments ([Cell]) and the
    driver with its recursive contribution resolver ([Simulation]).

    Conventions of the embedding.
    - Python exceptions are values of [exn]; a computation that may raise
      returns a [result].  Methods that mutate [self] are functions in the
      state-and-exception monad [st]: the state reached when an exception
      is raised is kept, as Python keeps it.
    - Floating-point numbers are idealised as exact rationals ([Qc]) with
      one extra value [NaN] that stands for every non-finite float; it
      propagates through arithmetic the way a not-a-number does.
    - A two-axis numpy array is a shape with an index function
      ([ndarray]); a one-axis array is a list.
    - The recursion of [resolve_contribution] is bounded by the
      interpreter's recursion limit, which is the [depth] argument. *)

From stdpp Require Import base numbers option list gmap strings.
From Stdlib Require Import QArith Qcanon.

Close Scope Qc_scope.
Close Scope Q_scope.
Open Scope string_scope.
Open Scope list_scope.
Open Scope nat_scope.

(** ** Exceptions and the two monads *)

Inductive exn :=
  | AttributeError | NameError | KeyError | IndexError | TypeError
  | ValueError | UnboundLocalError | RuntimeError | MaskError
  | OutsideModel.

Global Instance exn_eq_dec : EqDecision exn.
Proof. solve_decision. Defined.

Inductive result (A : Type) :=
  | Ok (a : A)
  | Raise (e : exn).
Arguments Ok {A} a.
Arguments Raise {A} e.

Global Instance result_eq_dec {A} `{EqDecision A} : EqDecision (result A).
Proof. solve_decision. Defined.

Global Instance result_ret : MRet result := @Ok.
Global Instance result_bind : MBind result := λ A B f m,
  match m with Ok a => f a | Raise e => Raise e end.
Global Instance result_fmap : FMap result := λ A B f m,
  match m with Ok a => Ok (f a) | Raise e => Raise e end.

(** [for x in l: acc = f(acc, x)], stopping at the first exception. *)
Fixpoint foldM {A B} (f : A → B → result A) (a : A) (l : list B) : result A :=
  match l with
  | [] => Ok a
  | x :: l' => a' ← f a x; foldM f a' l'
  end.

(** [[f(x) for x in l]], stopping at the first exception. *)
Fixpoint mapM' {A B} (f : A → result B) (l : list A) : result (list B) :=
  match l with
  | [] => Ok []
  | x :: l' => y ← f x; ys ← mapM' f l'; Ok (y :: ys)
  end.

(** [[x for x in l if p(x)]] where the test itself may raise. *)
Fixpoint filterM {A} (p : A → result bool) (l : list A) : result (list A) :=
  match l with
  | [] => Ok []
  | x :: l' => b ← p x; ys ← filterM p l'; Ok (if b : bool then x :: ys else ys)
  end.

(** [l[i]] for a non-negative index. *)
Definition py_index {A} (l : list A) (i : nat) : result A :=
  match l !! i with Some x => Ok x | None => Raise IndexError end.

(** [reduce(lambda x,y: x and y, l)]: no initial value, so the empty list
    is a [TypeError]. *)
Definition reduce_and (l : list bool) : result bool :=
  match l with
  | [] => Raise TypeError
  | b :: l' => Ok (foldl andb b l')
  end.

(** [reduce(lambda x,y: np.append(x,y), l)]. *)
Definition reduce_append {A} (l : list (list A)) : result (list A) :=
  match l with
  | [] => Raise TypeError
  | x :: l' => Ok (foldl app x l')
  end.

(** State and exception: the state survives a raise. *)
Definition st (S A : Type) : Type := S → S * result A.

Global Instance st_ret {S} : MRet (st S) := λ A a s, (s, Ok a).
Global Instance st_bind {S} : MBind (st S) := λ A B f m s,
  match m s with
  | (s', Ok a) => f a s'
  | (s', Raise e) => (s', Raise e)
  end.

Definition st_get {S} : st S S := λ s, (s, Ok s).
Definition st_put {S} (s : S) : st S unit := λ _, (s, Ok tt).
Definition st_modify {S} (f : S → S) : st S unit := λ s, (f s, Ok tt).
Definition st_lift {S A} (r : result A) : st S A := λ s, (s, r).
Definition st_raise {S A} (e : exn) : st S A := λ s, (s, Raise e).

Fixpoint st_for {S A} (l : list A) (body : A → st S unit) : st S unit :=
  match l with
  | [] => mret tt
  | x :: l' => _ ← body x; st_for l' body
  end.

(** ** Numbers *)

Inductive val :=
  | NaN
  | Fin (q : Qc).

Global Instance val_eq_dec : EqDecision val.
Proof. solve_decision. Defined.

Global Instance val_inhabited : Inhabited val := populate NaN.

Definition vlift2 (f : Qc → Qc → Qc) (a b : val) : val :=
  match a, b with
  | Fin x, Fin y => Fin (f x y)
  | _, _ => NaN
  end.

Definition vadd : val → val → val := vlift2 Qcplus.
Definition vsub : val → val → val := vlift2 Qcminus.
Definition vmul : val → val → val := vlift2 Qcmult.
Definition vneg (a : val) : val :=
  match a with Fin x => Fin (- x)%Qc | NaN => NaN end.

(** A division by zero gives an infinity or a not-a-number. *)
Definition vdiv (a b : val) : val :=
  match a, b with
  | Fin x, Fin y => if decide (y = 0%Qc) then NaN else Fin (x / y)%Qc
  | _, _ => NaN
  end.

Definition vzero : val := Fin 0%Qc.
Definition vone : val := Fin 1%Qc.
Definition vint (n : Z) : val := Fin (Q2Qc (inject_Z n)).
Definition vfrac (n : Z) (d : positive) : val := Fin (Q2Qc (n # d)).

(** The integer a number denotes, when it denotes one. *)
Definition as_int (a : val) : option Z :=
  match a with
  | Fin q => if decide (Qden (this q) = 1%positive) then Some (Qnum (this q)) else None
  | NaN => None
  end.

(** [x ** n] for an integral exponent.  Anything to the power zero is one. *)
Definition vpow (x : val) (n : Z) : val :=
  if decide (n = 0%Z) then vone else
  match x with
  | NaN => NaN
  | Fin q =>
      if decide (0 < n)%Z then Fin (q ^ Z.to_nat n)%Qc
      else if decide (q = 0%Qc) then NaN
      else Fin (/ (q ^ Z.to_nat (- n)))%Qc
  end.

Definition vsum (l : list val) : val := foldl vadd vzero l.

(** ** Arrays *)

(** Broadcasting of one axis: equal lengths, or one of them of length one. *)
Definition bdim (a b : nat) : option nat :=
  if decide (a = b) then Some a
  else if decide (a = 1) then Some b
  else if decide (b = 1) then Some a
  else None.

Definition bidx (n i : nat) : nat := if decide (n = 1) then 0 else i.

(** [a op b] on one-axis arrays. *)
Definition vec_op (f : val → val → val) (a b : list val) : result (list val) :=
  match bdim (length a) (length b) with
  | Some n => Ok ((λ i, f (a !!! bidx (length a) i) (b !!! bidx (length b) i)) <$> seq 0 n)
  | None => Raise ValueError
  end.

(** [a op= b] on one-axis arrays: [b] is broadcast to the shape of [a]. *)
Definition vec_iop (f : val → val → val) (a b : list val) : result (list val) :=
  if decide (length b = length a) then Ok (zip_with f a b)
  else match b with
       | [y] => Ok ((λ x, f x y) <$> a)
       | _ => Raise ValueError
       end.

Record ndarray (A : Type) := NdArray {
  nrows : nat;
  ncols : nat;
  cell : nat → nat → A;
}.
Arguments NdArray {A} nrows ncols cell.
Arguments nrows {A} _.
Arguments ncols {A} _.
Arguments cell {A} _ _ _.

Definition shape {A} (m : ndarray A) : nat * nat := (nrows m, ncols m).

(** [np.zeros((r, c))] *)
Definition np_zeros (r c : nat) : ndarray val := NdArray r c (λ _ _, vzero).

(** [m[i, :]] and [m.flatten()] (row-major). *)
Definition row {A} (m : ndarray A) (i : nat) : list A :=
  (λ j, cell m i j) <$> seq 0 (ncols m).
Definition flatten {A} (m : ndarray A) : list A :=
  mjoin (row m <$> seq 0 (nrows m)).

(** [m[:, j]] *)
Definition column {A} (m : ndarray A) (j : nat) : result (list A) :=
  if decide (j < ncols m) then Ok ((λ i, cell m i j) <$> seq 0 (nrows m))
  else Raise IndexError.

(** [l.reshape((r, c))] *)
Definition reshape (l : list val) (r c : nat) : result (ndarray val) :=
  if decide (length l = r * c) then Ok (NdArray r c (λ i j, l !!! (i * c + j)))
  else Raise ValueError.

(** [l[lo:hi]] for non-negative bounds. *)
Definition slice {A} (l : list A) (lo hi : nat) : list A :=
  take (hi - lo) (drop lo l).

(** [m[lo:hi, :]] and [m[:, lo:hi]] for non-negative bounds. *)
Definition rows_slice {A} (lo hi : nat) (m : ndarray A) : ndarray A :=
  NdArray (hi `min` nrows m - lo `min` nrows m) (ncols m)
          (λ i j, cell m (lo `min` nrows m + i) j).
Definition cols_slice {A} (lo hi : nat) (m : ndarray A) : ndarray A :=
  NdArray (nrows m) (hi `min` ncols m - lo `min` ncols m)
          (λ i j, cell m i (lo `min` ncols m + j)).

Definition np_transpose {A} (m : ndarray A) : ndarray A :=
  NdArray (ncols m) (nrows m) (λ i j, cell m j i).

(** [np.diag(m)] of a two-axis array: its main diagonal. *)
Definition np_diag {A} (m : ndarray A) : list A :=
  (λ i, cell m i i) <$> seq 0 (nrows m `min` ncols m).

(** [np.tile(v, (n, 1))] *)
Definition np_tile (v : list val) (n : nat) : ndarray val :=
  NdArray n (length v) (λ _ j, v !!! j).

(** [m op v] with [v] of one axis, broadcast along the rows of [m]. *)
Definition mat_vec_op (f : val → val → val) (m : ndarray val) (v : list val)
  : result (ndarray val) :=
  match bdim (ncols m) (length v) with
  | Some c => Ok (NdArray (nrows m) c
                   (λ i j, f (cell m i (bidx (ncols m) j)) (v !!! bidx (length v) j)))
  | None => Raise ValueError
  end.

(** [a op b] on two-axis arrays. *)
Definition mat_op (f : val → val → val) (a b : ndarray val) : result (ndarray val) :=
  match bdim (nrows a) (nrows b), bdim (ncols a) (ncols b) with
  | Some r, Some c =>
      Ok (NdArray r c (λ i j, f (cell a (bidx (nrows a) i) (bidx (ncols a) j))
                               (cell b (bidx (nrows b) i) (bidx (ncols b) j))))
  | _, _ => Raise ValueError
  end.

(** [s * m] for a scalar [s]. *)
Definition scal_mul (s : val) (m : ndarray val) : ndarray val :=
  NdArray (nrows m) (ncols m) (λ i j, vmul s (cell m i j)).

(** [~m] on a boolean array. *)
Definition np_invert (m : ndarray bool) : ndarray bool :=
  NdArray (nrows m) (ncols m) (λ i j, negb (cell m i j)).

(** The mask given to [np.ma.array]: used as it is when it has the shape of
    the data, repeated when it has a single entry, reshaped when it has as
    many entries as the data, and refused otherwise. *)
Definition ma_mask (m : ndarray val) (mask : ndarray bool) : result (nat → nat → bool) :=
  if decide (shape mask = shape m) then Ok (cell mask)
  else if decide (nrows mask * ncols mask = 1) then Ok (λ _ _, cell mask 0 0)
  else if decide (nrows mask * ncols mask = nrows m * ncols m)
  then Ok (λ i j, let p := i * ncols m + j in
                  cell mask (p `div` ncols mask) (p `mod` ncols mask))
  else Raise MaskError.

(** [np.ma.array(m, mask=mask, fill_value=0).filled()]: a masked entry
    becomes the fill value. *)
Definition ma_filled (m : ndarray val) (mask : ndarray bool) : result (ndarray val) :=
  masked ← ma_mask m mask;
  Ok (NdArray (nrows m) (ncols m)
        (λ i j, if masked i j : bool then vzero else cell m i j)).

(** [np.sum(m, axis=1)] *)
Definition sum_rows (m : ndarray val) : list val :=
  (λ i, vsum (row m i)) <$> seq 0 (nrows m).

(** [m[:, j] += v] *)
Definition column_iadd (m : ndarray val) (j : nat) (v : list val)
  : result (ndarray val) :=
  old ← column m j;
  new ← vec_iop vadd old v;
  Ok (NdArray (nrows m) (ncols m)
        (λ i k, if decide (k = j) then new !!! i else cell m i k)).

(** ** The reaction-term classes *)

(** One constructor per class.  The stored parameters are [None] until
    [set_params] has run ([params_set = False], and the attributes [C],
    [A], ... do not exist yet).  [Diffusion] also carries the distance
    prefactors and the connection mask it precomputes. *)
Inductive model :=
  | ConstantProduction (C : option val)
  | LinearActivation (is_mod : bool) (mod_type : option string) (C : option val)
  | HillActivation (is_mod : bool) (mod_type : option string)
      (CAn : option (val * val * val))
  | HillInactivation (is_mod : bool) (mod_type : option string)
      (DCAn : option (val * val * val * val))
  | LinearDegradation (C : option val)
  | ParabolicDegradation (C : option val)
  | Diffusion (C : option val) (dist_pre : ndarray val) (cmask : ndarray bool).

Module Model.

Definition is_mod (m : model) : bool :=
  match m with
  | LinearActivation b _ _ | HillActivation b _ _ | HillInactivation b _ _ => b
  | _ => false
  end.

Definition mod_type (m : model) : option string :=
  match m with
  | LinearActivation _ t _ | HillActivation _ t _ | HillInactivation _ t _ => t
  | _ => None
  end.

Definition params_set (m : model) : bool :=
  match m with
  | ConstantProduction C | LinearActivation _ _ C | LinearDegradation C
  | ParabolicDegradation C | Diffusion C _ _ => bool_decide (is_Some C)
  | HillActivation _ _ p => bool_decide (is_Some p)
  | HillInactivation _ _ p => bool_decide (is_Some p)
  end.

(** [__init__] with its optional [params] list: [set_params] indexes the
    list, so a list that is too short raises. *)
Definition param1 (params : option (list val)) : result (option val) :=
  match params with
  | None => Ok None
  | Some p => c ← py_index p 0; Ok (Some c)
  end.
Definition param3 (params : option (list val)) : result (option (val * val * val)) :=
  match params with
  | None => Ok None
  | Some p => c ← py_index p 0; a ← py_index p 1; n ← py_index p 2; Ok (Some (c, a, n))
  end.
Definition param4 (params : option (list val))
  : result (option (val * val * val * val)) :=
  match params with
  | None => Ok None
  | Some p =>
      d ← py_index p 0; c ← py_index p 1; a ← py_index p 2; n ← py_index p 3;
      Ok (Some (d, c, a, n))
  end.

(** Reading an attribute that [set_params] has not created yet. *)
Definition getattr {A} (p : option A) : result A :=
  match p with Some x => Ok x | None => Raise AttributeError end.

(** [C * (x/A)**n / (1 + (x/A)**n)] on one entry.  The exponent has to
    denote an integer: real powers are outside exact arithmetic. *)
Definition hill (C A n x : val) : result val :=
  match as_int n with
  | Some k =>
      let p := vpow (vdiv x A) k in
      Ok (vdiv (vmul C p) (vadd vone p))
  | None => Raise OutsideModel
  end.

(** [apply(self, x)] of the terms of an internal model.  [Diffusion.apply]
    takes a second argument, so calling it this way is a [TypeError]. *)
Definition apply (m : model) (x : list val) : result (list val) :=
  match m with
  | ConstantProduction p =>
      C ← getattr p; Ok ((λ o, vmul C o) <$> replicate (length x) vone)
  | LinearActivation _ _ p =>
      C ← getattr p; Ok (vmul C <$> x)
  | HillActivation _ _ p =>
      '(C, A, n) ← getattr p; mapM' (hill C A n) x
  | HillInactivation _ _ p =>
      '(D, C, A, n) ← getattr p; mapM' (λ xi, h ← hill C A n xi; Ok (vsub D h)) x
  | LinearDegradation p =>
      C ← getattr p; Ok ((λ xi, vmul C (vneg xi)) <$> x)
  | ParabolicDegradation p =>
      C ← getattr p; Ok ((λ xi, vmul C (vneg (vpow xi 2))) <$> x)
  | Diffusion _ _ _ => Raise TypeError
  end.

(** [pdist(pos, 'sqeuclidean')]: the squared Euclidean distance. *)
Definition sqeuclidean (u v : list val) : val :=
  vsum (zip_with (λ a b, vpow (vsub a b) 2) u v).

(** [np.array([c.position for c in cells])] has to be a two-axis array of
    numbers for [pdist]: every position set, all of one length, at least
    one cell. *)
Definition positions_array (positions : list (option (list val)))
  : result (list (list val)) :=
  match positions with
  | [] => Raise ValueError
  | None :: _ => Raise ValueError
  | Some p0 :: _ =>
      mapM' (λ p, match p with
                  | Some q => if decide (length q = length p0) then Ok q
                              else Raise ValueError
                  | None => Raise ValueError
                  end) positions
  end.

(** [np.ma.divide(1.0, masked_dists).filled()] on one entry: a zero
    distance is masked and filled with [0], as is a non-finite quotient. *)
Definition invert_dist (d : val) : val :=
  match d with
  | Fin q => if decide (q = 0%Qc) then vzero else Fin (1 / q)%Qc
  | NaN => vzero
  end.

(** [set_dist_pre]: the matrix of inverted squared distances. *)
Definition set_dist_pre (positions : list (option (list val)))
  : result (ndarray val) :=
  pos ← positions_array positions;
  let distances := NdArray (length pos) (length pos)
                     (λ i j, sqeuclidean (pos !!! i) (pos !!! j)) in
  Ok (NdArray (nrows distances) (ncols distances)
        (λ i j, invert_dist (cell distances i j))).

(** [Diffusion(connections, cells, params)] *)
Definition new_Diffusion (connections : ndarray bool)
    (positions : list (option (list val))) (params : option (list val))
  : result model :=
  C ← param1 params;
  dist_pre ← set_dist_pre positions;
  Ok (Diffusion C dist_pre (np_invert connections)).

(** The body of [Diffusion.apply(x, im_bounds)] up to the masked array
    [masked_contribs.filled()]: [x] has one row per cell of the evaluating
    group and one column per cell. *)
Definition Diffusion_masked_contribs (C : option val) (dist_pre : ndarray val)
    (cmask : ndarray bool) (x : ndarray val) (im_bounds : nat * nat)
  : result (ndarray val) :=
  let '(lower, upper) := im_bounds in
  (* levels inside the cells *)
  let inner_levels := np_diag (cols_slice lower upper x) in
  (* subtract each column elementwise by inner_levels *)
  d ← mat_vec_op vsub (np_transpose x) inner_levels;
  let level_diff := np_transpose d in
  (* multiply through by distance prefactors and constant *)
  C ← getattr C;
  diff_contribs ← mat_op vmul (scal_mul C (rows_slice lower upper dist_pre)) level_diff;
  (* apply connection mask, filling in 0 for masked entries *)
  let cmask_slice := rows_slice lower upper cmask in
  ma_filled diff_contribs cmask_slice.

(** [Diffusion.apply]: the masked array summed along its rows. *)
Definition Diffusion_apply (C : option val) (dist_pre : ndarray val)
    (cmask : ndarray bool) (x : ndarray val) (im_bounds : nat * nat)
  : result (list val) :=
  masked_contribs ← Diffusion_masked_contribs C dist_pre cmask x im_bounds;
  Ok (sum_rows masked_contribs).

(** [apply(self, x, im_bounds)]: only [Diffusion] takes two arguments. *)
Definition apply2 (m : model) (x : ndarray val) (im_bounds : nat * nat)
  : result (list val) :=
  match m with
  | Diffusion C dist_pre cmask => Diffusion_apply C dist_pre cmask x im_bounds
  | _ => Raise TypeError
  end.

End Model.

(** ** Nodes and edges of a reaction graph *)

(** The [to] argument of an edge: a node name or an edge id. *)
Inductive target :=
  | TNode (name : string)
  | TEdge (id : nat).

Global Instance target_eq_dec : EqDecision target.
Proof. solve_decision. Defined.

Module Node.
Record t := mk {
  name : string;
  degrades : bool;
  degradation : option model;
  diffuses : bool;
  diffusion : option model;
  is_primary : bool;
}.

Definition init (name : string) : t :=
  mk name false None false None false.

Definition set_degradation (self : t) (degradation : option model) : t :=
  mk (name self) (bool_decide (is_Some degradation)) degradation
     (diffuses self) (diffusion self) (is_primary self).

Definition set_as_primary (self : t) : t :=
  mk (name self) (degrades self) (degradation self)
     (diffuses self) (diffusion self) true.
End Node.

Module Edge.
Record t := mk {
  from_node : string;
  to_node : option target;
  to_edge : option target;
  is_mod : bool;
  mod_type : option string;
  model_ : model;
  edge_id : nat;
}.

(** An edge points node -> node, or node -> edge when its term is a
    modifier.  [external] is [False] for every edge. *)
Definition init (from_node : string) (to : target) (m : model) (edge_id : nat) : t :=
  if Model.is_mod m
  then mk from_node None (Some to) (Model.is_mod m) (Model.mod_type m) m edge_id
  else mk from_node (Some to) None (Model.is_mod m) (Model.mod_type m) m edge_id.
End Edge.

(** ** The reaction graph *)

Module InternalModel.
Record t := mk {
  nodes : list Node.t;
  edges : list Edge.t;
  num_params : list nat;
  node_names : gmap string nat;
  edge_counter : nat;
}.

Definition init : t := mk [] [] [] ∅ 0.

Definition with_nodes (f : list Node.t → list Node.t) (self : t) : t :=
  mk (f (nodes self)) (edges self) (num_params self) (node_names self)
     (edge_counter self).
Definition with_edges (f : list Edge.t → list Edge.t) (self : t) : t :=
  mk (nodes self) (f (edges self)) (num_params self) (node_names self)
     (edge_counter self).
Definition with_node_names (f : gmap string nat → gmap string nat) (self : t) : t :=
  mk (nodes self) (edges self) (num_params self) (f (node_names self))
     (edge_counter self).
Definition with_edge_counter (f : nat → nat) (self : t) : t :=
  mk (nodes self) (edges self) (num_params self) (node_names self)
     (f (edge_counter self)).

(** [self.node_names[name]] *)
Definition get_node_id (self : t) (name : string) : result nat :=
  match node_names self !! name with
  | Some i => Ok i
  | None => Raise KeyError
  end.

Definition get_node (self : t) (name : string) : result Node.t :=
  i ← get_node_id self name; py_index (nodes self) i.

(** [([e for e in self.edges if e.edge_id == edge_id])[0]] *)
Definition get_edge (self : t) (edge_id : nat) : result Edge.t :=
  py_index (filter (λ e, Edge.edge_id e = edge_id) (edges self)) 0.

(** The next id: [eid = self.edge_counter; self.edge_counter += 1]. *)
Definition fresh_edge_id : st t nat :=
  self ← st_get;
  _ ← st_modify (with_edge_counter S);
  mret (edge_counter self).

Definition set_node_degradation (name : string) (degradation : option string)
    (params : option (list val)) : st t (option Edge.t) :=
  self ← st_get;
  i ← st_lift (get_node_id self name);
  node ← st_lift (py_index (nodes self) i);
  let finish (deg_model : model) : st t (option Edge.t) :=
    _ ← st_modify (with_nodes <[i := Node.set_degradation node (Some deg_model)]>);
    eid ← fresh_edge_id;
    _ ← st_modify (with_edges (λ es, es ++ [Edge.init name (TNode name) deg_model eid]));
    self' ← st_get;
    e ← st_lift (get_edge self' eid);
    mret (Some e) in
  if decide (degradation = Some "linear") then
    C ← st_lift (Model.param1 params); finish (LinearDegradation C)
  else if decide (degradation = Some "parabolic") then
    C ← st_lift (Model.param1 params); finish (ParabolicDegradation C)
  else if decide (degradation = None) then
    _ ← st_modify (with_nodes <[i := Node.set_degradation node None]>);
    mret None
  else
    (* no branch bound [deg_model] *)
    st_raise UnboundLocalError.

Definition add_node (name : string) (degradation : option string)
    (params : option (list val)) : st t Node.t :=
  _ ← st_modify (with_nodes (λ ns, ns ++ [Node.init name]));
  _ ← st_modify (λ self, with_node_names <[name := length (nodes self) - 1]> self);
  _ ← set_node_degradation name degradation params;
  self ← st_get;
  st_lift (get_node self name).

(** [get_edge_model]: [None] for an unknown type string. *)
Definition get_edge_model (type : string) (is_mod : bool) (mod_type : option string)
    (params : option (list val)) : result (option model) :=
  if decide (type = "const_prod") then
    C ← Model.param1 params; Ok (Some (ConstantProduction C))
  else if decide (type = "lin_activ") then
    C ← Model.param1 params; Ok (Some (LinearActivation is_mod mod_type C))
  else if decide (type = "hill_activ") then
    p ← Model.param3 params; Ok (Some (HillActivation is_mod mod_type p))
  else if decide (type = "hill_inactiv") then
    p ← Model.param4 params; Ok (Some (HillInactivation is_mod mod_type p))
  else Ok None.

(** [Edge(...)] reads [model.is_mod]: with no model this raises, after
    the counter has moved and before the edge is stored. *)
Definition add_edge (from_node : string) (to : target) (type : string)
    (is_mod : bool) (mod_type : option string) (params : option (list val))
    : st t nat :=
  eid ← fresh_edge_id;
  new_model ← st_lift (get_edge_model type is_mod mod_type params);
  match new_model with
  | None => st_raise AttributeError
  | Some m =>
      _ ← st_modify (with_edges (λ es, es ++ [Edge.init from_node to m eid]));
      mret eid
  end.

Definition num_nodes (self : t) : nat := length (nodes self).

Definition get_node_names (self : t) : list string := Node.name <$> nodes self.

(** Every edge has its parameters set (degradations are edges too). *)
Definition all_params_set (self : t) : bool :=
  let edges_set := (λ e, Model.params_set (Edge.model_ e)) <$> edges self in
  match edges_set with
  | [] => true
  | b :: l => foldl andb b l
  end.

(** All edges that contribute to a node's dynamics. *)
Definition get_contributions (self : t) (to_node : string) : list Edge.t :=
  filter (λ e, Edge.to_node e = Some (TNode to_node)) (edges self).

(** All edges that modify the edge [to_edge]. *)
Definition get_modifiers (self : t) (to_edge : nat) : list Edge.t :=
  filter (λ e, Edge.to_edge e = Some (TEdge to_edge) ∧ Edge.is_mod e = true)
         (edges self).
End InternalModel.

(** ** Compartments *)

(** What [set_IC] did: stored the vector, or printed one of its two
    complaints and returned. *)
Inductive set_IC_outcome :=
  | IC_stored
  | IC_no_model
  | IC_count_mismatch (given expected : nat).

Global Instance set_IC_outcome_eq_dec : EqDecision set_IC_outcome.
Proof. solve_decision. Defined.

Module Cell.
(** A cell refers to its model; no method of [Cell] or [Simulation]
    changes a model, so the record holds the model itself. *)
Record t := mk {
  position : option (list val);
  IM : option InternalModel.t;
  IC : option (list val);
  num_species : nat;
  cell_id : option nat;
}.

Definition init (position : option (list val)) : t :=
  mk position None None 0 None.

Definition set_cell_id (cid : nat) (self : t) : t :=
  mk (position self) (IM self) (IC self) (num_species self) (Some cid).

Definition set_pos (pos : list val) (self : t) : t :=
  mk (Some pos) (IM self) (IC self) (num_species self) (cell_id self).

Definition set_IM (im : InternalModel.t) (self : t) : t :=
  mk (position self) (Some im) (IC self) (InternalModel.num_nodes im) (cell_id self).

Definition with_IC (ic : option (list val)) (self : t) : t :=
  mk (position self) (IM self) ic (num_species self) (cell_id self).

(** [IC[name]] on a dictionary. *)
Definition dict_get (IC : gmap string val) (name : string) : result val :=
  match IC !! name with Some v => Ok v | None => Raise KeyError end.

(** The loop [for i in xrange(len(IC)): self.IC[i] = IC[self.IM.nodes[i].name]],
    run on the array that [self.IC] already refers to. *)
Definition fill_IC_step (im : InternalModel.t) (IC : gmap string val) (i : nat)
  : st (list val) unit :=
  node ← st_lift (py_index (InternalModel.nodes im) i);
  v ← st_lift (dict_get IC (Node.name node));
  st_modify <[i := v]>.

Definition fill_IC (im : InternalModel.t) (IC : gmap string val) (n : nat)
  : st (list val) unit :=
  st_for (seq 0 n) (fill_IC_step im IC).

(** [set_IC]: the dictionary is stored in the order of [IM.nodes].  Only
    the number of keys is checked beforehand; [self.IC] is replaced by a
    fresh array of zeros before the keys are looked up. *)
Definition set_IC (IC : gmap string val) : st t set_IC_outcome :=
  self ← st_get;
  match IM self with
  | None => mret IC_no_model
  | Some im =>
      if decide (size IC = InternalModel.num_nodes im) then
        let '(vec, r) := fill_IC im IC (size IC) (replicate (size IC) vzero) in
        _ ← st_put (with_IC (Some vec) self);
        _ ← st_lift r;
        mret IC_stored
      else mret (IC_count_mismatch (size IC) (InternalModel.num_nodes im))
  end.
End Cell.

(** ** Cross-compartment interactions *)

Module Interaction.
(** The attributes [__init__] creates.  There is no attribute [IM_id]:
    the group an interaction modifies is kept in [to_IM]. *)
Record t := mk {
  from_node : string;
  to_node : option target;
  to_edge : option target;
  to_IM : option nat;
  is_mod : bool;
  mod_type : option string;
  model_ : model;
  int_id : nat;
}.

Definition init (from_node : string) (to : target) (m : model) (int_id : nat)
    (IM_id : option nat) : t :=
  if Model.is_mod m
  then mk from_node None (Some to) IM_id (Model.is_mod m) (Model.mod_type m) m int_id
  else mk from_node (Some to) None None (Model.is_mod m) (Model.mod_type m) m int_id.

(** [i.IM_id]: the attribute does not exist. *)
Definition IM_id (self : t) : result (option nat) := Raise AttributeError.
End Interaction.

(** What [resolve_contribution] is given: an internal edge
    ([external = False]) or an interaction ([external = True]). *)
Inductive contrib :=
  | Internal (e : Edge.t)
  | External (i : Interaction.t).

Definition contrib_mod_type (c : contrib) : option string :=
  match c with
  | Internal e => Edge.mod_type e
  | External i => Interaction.mod_type i
  end.

(** ** The simulation *)

Module Simulation.
Record t := mk {
  cells : list Cell.t;
  IMs : list InternalModel.t;
  IM_cells : list (list nat);
  IM_bounds : list (nat * nat);
  interactions : list Interaction.t;
  int_counter : nat;
}.

Definition init : t := mk [] [] [] [] [] 0.

Definition with_cells (f : list Cell.t → list Cell.t) (self : t) : t :=
  mk (f (cells self)) (IMs self) (IM_cells self) (IM_bounds self)
     (interactions self) (int_counter self).
Definition with_IMs (f : list InternalModel.t → list InternalModel.t) (self : t) : t :=
  mk (cells self) (f (IMs self)) (IM_cells self) (IM_bounds self)
     (interactions self) (int_counter self).
Definition with_IM_cells (f : list (list nat) → list (list nat)) (self : t) : t :=
  mk (cells self) (IMs self) (f (IM_cells self)) (IM_bounds self)
     (interactions self) (int_counter self).
Definition with_IM_bounds (b : list (nat * nat)) (self : t) : t :=
  mk (cells self) (IMs self) (IM_cells self) b
     (interactions self) (int_counter self).
Definition with_interactions (f : list Interaction.t → list Interaction.t) (self : t) : t :=
  mk (cells self) (IMs self) (IM_cells self) (IM_bounds self)
     (f (interactions self)) (int_counter self).
Definition with_int_counter (f : nat → nat) (self : t) : t :=
  mk (cells self) (IMs self) (IM_cells self) (IM_bounds self)
     (interactions self) (f (int_counter self)).

Definition add_cell (cell : Cell.t) : st t nat :=
  _ ← st_modify (with_cells (λ cs, cs ++ [cell]));
  self ← st_get;
  let cid := length (cells self) - 1 in
  _ ← st_modify (with_cells (alter (Cell.set_cell_id cid) cid));
  mret cid.

Definition add_internal_model (im : InternalModel.t) : st t nat :=
  _ ← st_modify (with_IMs (λ l, l ++ [im]));
  self ← st_get;
  let im_id := length (IMs self) - 1 in
  _ ← st_modify (with_IM_cells (λ l, l ++ [[]]));
  mret im_id.

(** Run a method of [Cell] on [self.cells[cid]]. *)
Definition on_cell {A} (cid : nat) (m : st Cell.t A) : st t A := λ self,
  match cells self !! cid with
  | None => (self, Raise IndexError)
  | Some c => let '(c', r) := m c in (with_cells <[cid := c']> self, r)
  end.

(** No check for multiple assignments or duplicates. *)
Definition set_internal_model (cell_id_list : list nat) (IM_id : nat) : st t unit :=
  self ← st_get;
  _ ← st_lift (mapM' (py_index (cells self)) cell_id_list);
  _ ← st_for cell_id_list (λ cid,
        im ← st_lift (py_index (IMs self) IM_id);
        on_cell cid (st_modify (Cell.set_IM im)));
  _ ← st_lift (py_index (IM_cells self) IM_id);
  st_modify (with_IM_cells (alter (λ l, l ++ cell_id_list) IM_id)).

Definition set_initial_conditions (cell_id_list : list nat) (IC : gmap string val)
  : st t unit :=
  self ← st_get;
  _ ← st_lift (mapM' (py_index (cells self)) cell_id_list);
  st_for cell_id_list (λ cid, _ ← on_cell cid (Cell.set_IC IC); mret tt).

(** [get_int_model]: [None] for an unknown type string. *)
Definition get_int_model (self : t) (type : string) (connections : ndarray bool)
    (is_mod : bool) (mod_type : option string) (params : option (list val))
  : result (option model) :=
  if decide (type = "diffusion") then
    m ← Model.new_Diffusion connections (Cell.position <$> cells self) params;
    Ok (Some m)
  else Ok None.

Definition add_interaction (from_node : string) (to : target) (type : string)
    (connections : ndarray bool) (IM_id : option nat) (is_mod : bool)
    (mod_type : option string) (params : option (list val)) : st t nat :=
  self ← st_get;
  let int_id := int_counter self in
  _ ← st_modify (with_int_counter S);
  new_model ← st_lift (get_int_model self type connections is_mod mod_type params);
  match new_model with
  | None => st_raise AttributeError
  | Some m =>
      _ ← st_modify (with_interactions
                       (λ l, l ++ [Interaction.init from_node to m int_id IM_id]));
      mret int_id
  end.

Definition num_cells (self : t) : nat := length (cells self).

(** The three checks: all cells have an internal model, all cells have
    initial conditions, all internal models have their parameters set. *)
Definition simulation_ready (self : t) : result bool :=
  let cIM_ready_list := (λ c, bool_decide (is_Some (Cell.IM c))) <$> cells self in
  cells_IM_ready ← reduce_and cIM_ready_list;
  if negb cells_IM_ready then Ok false else
  let cIC_ready_list := (λ c, bool_decide (is_Some (Cell.IC c))) <$> cells self in
  cells_IC_ready ← reduce_and cIC_ready_list;
  if negb cells_IC_ready then Ok false else
  let IMp_ready_list := InternalModel.all_params_set <$> IMs self in
  IM_params_ready ← reduce_and IMp_ready_list;
  if negb IM_params_ready then Ok false else
  Ok true.

(** The loop of [set_cell_bounds] over the group sizes. *)
Definition cell_bounds (ncells : list nat) : list (nat * nat) :=
  fst (foldl (λ '(bounds, low) n, (bounds ++ [(low, n + low)], low + n))
             ([], 0) ncells).

Definition set_cell_bounds : st t unit :=
  self ← st_get;
  let ncells := length <$> IM_cells self in
  st_modify (with_IM_bounds (cell_bounds ncells)).

(** All external interactions that affect this node. *)
Definition get_contributions (self : t) (to_node : string) : list Interaction.t :=
  filter (λ i, Interaction.to_node i = Some (TNode to_node)) (interactions self).

(** [[i for i in self.interactions if i.to_edge==to_edge and i.IM_id==IM_id]]:
    [and] evaluates its second operand only when the first holds. *)
Definition get_modifiers (self : t) (to_edge : nat) (IM_id : option nat)
  : result (list Interaction.t) :=
  filterM (λ i,
    if decide (Interaction.to_edge i = Some (TEdge to_edge))
    then (im ← Interaction.IM_id i; Ok (bool_decide (im = IM_id)))
    else Ok false) (interactions self).

(** The source species over all cells, group after group; [nan] for the
    cells of a group whose model lacks the species. *)
Definition gather_source (self : t) (from_node : string)
    (ycurrent : list (ndarray val)) : result (list val) :=
  foldM (λ xdata i,
    im ← py_index (IMs self) i;
    if decide (is_Some (InternalModel.node_names im !! from_node)) then
      from_id ← InternalModel.get_node_id im from_node;
      yc ← py_index ycurrent i;
      col ← column yc from_id;
      Ok (xdata ++ col)
    else
      cs ← py_index (IM_cells self) i;
      Ok (xdata ++ replicate (length cs) NaN))
    [] (seq 0 (length (IMs self))).

(** The loop shared by both branches:
    [for mod in mods: if mod.mod_type == tag: v *= resolve(mod)]. *)
Definition scale_by (resolve : contrib → result (list val)) (tag : string)
    (v : list val) (mods : list contrib) : result (list val) :=
  foldM (λ v mod_,
      if decide (contrib_mod_type mod_ = Some tag)
      then r ← resolve mod_; vec_iop vmul v r
      else Ok v) v mods.

(** [resolve_contribution].  [depth] is the number of nested calls the
    interpreter still allows. *)
Fixpoint resolve_contribution (depth : nat) (self : t) (c : contrib)
    (ycurrent : list (ndarray val)) (IM_id : nat) : result (list val) :=
  match depth with
  | 0 => Raise RuntimeError
  | S depth =>
      let resolve mod_ := resolve_contribution depth self mod_ ycurrent IM_id in
      match c with
      | External i =>
          (* only external modifiers possible on external contributions *)
          ext_mods ← get_modifiers self (Interaction.int_id i) None;
          xdata ← gather_source self (Interaction.from_node i) ycurrent;
          cs ← py_index (IM_cells self) IM_id;
          let IM_num_cells := length cs in
          (* [total_cells = self.num_cells()] is computed and not used *)
          let xcontrib := np_tile xdata IM_num_cells in
          (* mods to xcontrib: the call is written without [self.], and
             the module has no global of that name *)
          xcontrib ← foldM (λ xcontrib mod_,
              if decide (Interaction.mod_type mod_ = Some "intern")
              then Raise NameError
              else Ok xcontrib) xcontrib ext_mods;
          (* apply xcontrib, then multiply by multiplicative mods *)
          bounds ← py_index (IM_bounds self) IM_id;
          ycontrib ← Model.apply2 (Interaction.model_ i) xcontrib bounds;
          scale_by resolve "mult" ycontrib (External <$> ext_mods)
      | Internal e =>
          (* internal and external modifiers *)
          im ← py_index (IMs self) IM_id;
          let int_mods := InternalModel.get_modifiers im (Edge.edge_id e) in
          ext_mods ← get_modifiers self (Edge.edge_id e) (Some IM_id);
          from_node ← InternalModel.get_node_id im (Edge.from_node e);
          (* a copy of the source column *)
          yc ← py_index ycurrent IM_id;
          xcontrib ← column yc from_node;
          let mods := (Internal <$> int_mods) ++ (External <$> ext_mods) in
          (* first do mods to xcontrib *)
          xcontrib ← scale_by resolve "intern" xcontrib mods;
          (* apply xcontrib, then multiply by multiplicative mods *)
          ycontrib ← Model.apply (Edge.model_ e) xcontrib;
          scale_by resolve "mult" ycontrib mods
      end
  end.

(** [bounds = [0] + [a*b ...]] followed by the in-place running sum. *)
Definition flat_bounds (IM_dims : list (nat * nat)) : list nat :=
  let bounds := 0 :: ((λ '(a, b), a * b) <$> IM_dims) in
  foldl (λ bounds i, <[i := bounds !!! i + bounds !!! (i - 1)]> bounds)
        bounds (seq 1 (length bounds - 1)).

(** [(ncells, nspecies)] per internal model. *)
Definition IM_dims (self : t) : result (list (nat * nat)) :=
  IM_ncells ← mapM' (λ i, cs ← py_index (IM_cells self) i; Ok (length cs))
                    (seq 0 (length (IMs self)));
  let IM_nspecies := InternalModel.num_nodes <$> IMs self in
  Ok (zip IM_ncells IM_nspecies).

(** The contributions to species [j] of group [i], added one after the
    other into column [j] of the accumulator. *)
Definition accumulate (depth : nat) (self : t) (ycurrent : list (ndarray val))
    (i : nat) (im : InternalModel.t) (yp : ndarray val) (j : nat)
  : result (ndarray val) :=
  cnode ← py_index (InternalModel.get_node_names im) j;
  let int_contributions := InternalModel.get_contributions im cnode in
  let ext_contributions := get_contributions self cnode in
  foldM (λ yp contrib,
      r ← resolve_contribution depth self contrib ycurrent i;
      column_iadd yp j r)
    yp ((Internal <$> int_contributions) ++ (External <$> ext_contributions)).

(** [ycurrent]: for each internal model the slice
    [y[bounds[i]:bounds[i+1]]] reshaped to cells x species. *)
Definition unflatten (dims : list (nat * nat)) (bounds : list nat) (y : list val)
  : result (list (ndarray val)) :=
  mapM' (λ i,
      '(r, c) ← py_index dims i;
      lo ← py_index bounds i; hi ← py_index bounds (i + 1);
      reshape (slice y lo hi) r c) (seq 0 (length dims)).

(** The body of the loop over the internal models: every species of
    model [i] receives its contributions. *)
Definition accumulate_group (depth : nat) (self : t) (ycurrent : list (ndarray val))
    (yprime : list (ndarray val)) (i : nat) : result (list (ndarray val)) :=
  im ← py_index (IMs self) i;
  yp ← py_index yprime i;
  yp ← foldM (accumulate depth self ycurrent i im) yp
             (seq 0 (InternalModel.num_nodes im));
  Ok (<[i := yp]> yprime).

(** The derivative handed to the integrator: [y] is the flattened state
    of all species of all cells. *)
Definition deriv (depth : nat) (self : t) (y : list val) (t : val)
  : result (list val) :=
  dims ← IM_dims self;
  let bounds := flat_bounds dims in
  (* one cells x species array per internal model, and its derivative *)
  ycurrent ← unflatten dims bounds y;
  let yprime := (λ '(r, c), np_zeros r c) <$> dims in
  yprime ← foldM (accumulate_group depth self ycurrent) yprime
                 (seq 0 (length (IMs self)));
  (* concat the flattened yprimes for each internal model *)
  reduce_append (flatten <$> yprime).

(** Row [j] of [yinitial[i]] is the initial condition of the [j]-th cell
    of group [i]; the assignment broadcasts a vector of length one. *)
Definition initial_row (self : t) (nspecies : nat) (cid : nat) : result (list val) :=
  c ← py_index (cells self) cid;
  match Cell.IC c with
  | None => Raise TypeError
  | Some ic =>
      if decide (length ic = nspecies) then Ok ic
      else match ic with
           | [v] => Ok (replicate nspecies v)
           | _ => Raise ValueError
           end
  end.

Definition initial_state (self : t) : result (list val) :=
  yinitial ← mapM' (λ i,
      cs ← py_index (IM_cells self) i;
      im ← py_index (IMs self) i;
      rows ← mapM' (initial_row self (InternalModel.num_nodes im)) cs;
      Ok (mjoin (M := list) rows)) (seq 0 (length (IMs self)));
  reduce_append yinitial.

(** The part of [simulate] up to the call of the integrator: [None] when
    the checks fail, otherwise the flattened initial state. *)
Definition simulate_prepare : st t (option (list val)) :=
  self ← st_get;
  ready ← st_lift (simulation_ready self);
  if negb ready then mret None else
  _ ← set_cell_bounds;
  self ← st_get;
  y0 ← st_lift (initial_state self);
  mret (Some y0).

(** The trajectory split per cell: [cdata[cid] = sol[:, k:k+nspecies]]. *)
Definition split_solution (self : t) (sol : ndarray val)
  : result (list (option (ndarray val))) :=
  dims ← IM_dims self;
  let cdata := (λ _, None) <$> cells self in
  r ← foldM (λ '(cdata, sol_index) i,
        '(_, nspecies) ← py_index dims i;
        cs ← py_index (IM_cells self) i;
        foldM (λ '(cdata, sol_index) cid,
            if decide (cid < length cdata)
            then Ok (<[cid := Some (cols_slice sol_index (sol_index + nspecies) sol)]> cdata,
                     sol_index + nspecies)
            else Raise IndexError)
          (cdata, sol_index) cs)
      (cdata, 0) (seq 0 (length (IMs self)));
  Ok (fst r).

Section simulate.
(** The integrator is an external collaborator: it is given the
    derivative function, the initial state and the time points, and
    returns the trajectory (time x state). *)
Variable odeint :
  (list val → val → result (list val)) → list val → list val → result (ndarray val).
Variable depth : nat.

Definition simulate (times : list val)
  : st t (option (list (option (ndarray val)))) :=
  y0 ← simulate_prepare;
  match y0 with
  | None => mret None
  | Some y0 =>
      self ← st_get;
      sol ← st_lift (odeint (deriv depth self) y0 times);
      cdata ← st_lift (split_solution self sol);
      mret (Some cdata)
  end.
End simulate.
End Simulation.

(** ** Building a reaction graph through its methods *)

(** The calls that change an internal model. *)
Inductive im_call :=
  | Call_add_node (name : string) (degradation : option string)
      (params : option (list val))
  | Call_set_node_degradation (name : string) (degradation : option string)
      (params : option (list val))
  | Call_add_edge (from_node : string) (to : target) (type : string)
      (is_mod : bool) (mod_type : option string) (params : option (list val)).

(** The model after a call, whether the call returned or raised. *)
Definition run_call (self : InternalModel.t) (c : im_call) : InternalModel.t :=
  match c with
  | Call_add_node name degradation params =>
      fst (InternalModel.add_node name degradation params self)
  | Call_set_node_degradation name degradation params =>
      fst (InternalModel.set_node_degradation name degradation params self)
  | Call_add_edge from_node to type is_mod mod_type params =>
      fst (InternalModel.add_edge from_node to type is_mod mod_type params self)
  end.

(** The model built from [InternalModel()] by a sequence of calls. *)
Definition build (calls : list im_call) : InternalModel.t :=
  foldl run_call InternalModel.init calls.

(** The state a computation leaves, and what it returned. *)
Definition exec {S A} (m : st S A) (s : S) : S := fst (m s).
Definition eval {S A} (m : st S A) (s : S) : result A := snd (m s).

(** ** Small configurations used below *)

(** One species [a] with a linear activation [a -> a] of rate [1]. *)
Definition im_one_edge : InternalModel.t :=
  build [Call_add_node "a" None None;
         Call_add_edge "a" (TNode "a") "lin_activ" false None (Some [vone])].

(** Another model: one species [b] with a constant production of rate [2]. *)
Definition im_other_edge : InternalModel.t :=
  build [Call_add_node "b" None None;
         Call_add_edge "b" (TNode "b") "const_prod" false None (Some [vint 2])].

(** The two models registered with one simulation. *)
Definition sim_two_models : Simulation.t :=
  exec (_ ← Simulation.add_internal_model im_one_edge;
        Simulation.add_internal_model im_other_edge) Simulation.init.

(** A cell on a line, at coordinate [x]. *)
Definition cell_at (x : Z) : Cell.t := Cell.init (Some [vint x]).

(** Every pair of [n] cells connected. *)
Definition all_connected (n : nat) : ndarray bool := NdArray n n (λ _ _, true).

(** One cell of model [im_one_edge] with its initial condition set, and a
    diffusion interaction whose parameters were never given. *)
Definition sim_unset_interaction : Simulation.t :=
  exec (_ ← Simulation.add_cell (cell_at 1);
        g ← Simulation.add_internal_model im_one_edge;
        _ ← Simulation.set_internal_model [0] g;
        _ ← Simulation.set_initial_conditions [0] {[ "a" := vone ]};
        Simulation.add_interaction "a" (TNode "a") "diffusion" (all_connected 1)
          None false None None) Simulation.init.

(** An integrator that hands back the initial state as its only sample. *)
Definition odeint_initial_only (f : list val → val → result (list val))
    (y0 times : list val) : result (ndarray val) :=
  Ok (NdArray 1 (length y0) (λ _ j, y0 !!! j)).

(** One cell with a model assigned and no initial condition. *)
Definition sim_fresh_cell : Simulation.t :=
  exec (_ ← Simulation.add_cell (cell_at 1);
        g ← Simulation.add_internal_model im_one_edge;
        Simulation.set_internal_model [0] g) Simulation.init.

(** The same cell after an attempt to set its initial condition from a
    mapping with the right number of keys and a wrong name. *)
Definition sim_wrong_key : Simulation.t :=
  exec (Simulation.set_initial_conditions [0] {[ "b" := vone ]}) sim_fresh_cell.

(** The cell of [sim_fresh_cell]. *)
Definition fresh_cell : Cell.t :=
  Cell.set_IM im_one_edge (Cell.set_cell_id 0 (cell_at 1)).


Definition resolve_edge (depth : nat) (sim : Simulation.t) (k : nat)
    (ycurrent : list (ndarray val)) (g : nat) : result (list val) :=
  im ← py_index (Simulation.IMs sim) g;
  e ← py_index (InternalModel.edges im) k;
  Simulation.resolve_contribution depth sim (Internal e) ycurrent g.

(** One species [a], no edge. *)
Definition im_species_a : InternalModel.t := build [Call_add_node "a" None None].

(** Two cells at distance one, one species, one diffusion interaction of
    rate [1] between neighbours; the bounds are set as [simulate] sets them. *)
Definition neighbours : ndarray bool := NdArray 2 2 (λ i j, bool_decide (i ≠ j)).

Definition sim_pair (im : InternalModel.t) : Simulation.t :=
  exec (_ ← Simulation.add_cell (cell_at 1);
        _ ← Simulation.add_cell (cell_at 2);
        g ← Simulation.add_internal_model im;
        _ ← Simulation.set_internal_model [0; 1] g;
        _ ← Simulation.add_interaction "a" (TNode "a") "diffusion" neighbours
              None false None (Some [vone]);
        Simulation.set_cell_bounds) Simulation.init.

(** A modifier interaction cannot be made by [add_interaction], whose only
    term is [Diffusion]; it is appended to the list of interactions.  Here
    a linear term of rate [2] modifies the target with id [0], the target
    being an interaction ([IM_id = None]) or an edge of group [0]. *)
Definition modifier_interaction (mod_type : string) (IM_id : option nat) : Interaction.t :=
  Interaction.init "a" (TEdge 0) (LinearActivation true (Some mod_type) (Some (vint 2)))
                   1 IM_id.

Definition with_modifier (m : Interaction.t) (sim : Simulation.t) : Simulation.t :=
  Simulation.with_interactions (λ l, l ++ [m]) sim.

(** The state [a = [1, 0]] of the two cells, as [deriv] reshapes it. *)
Definition state_pair : list val := [vone; vzero].
Definition ycurrent_pair : list (ndarray val) :=
  [NdArray 2 1 (λ i j, state_pair !!! (i * 1 + j))].

(** Species [a], [h], [u]; the edge [h -> a] (id 0) is a Hill activation
    with [C = A = n = 1]; [u] modifies it twice, through an internal-type
    linear term of rate [ci] (id 1) and through a multiplicative linear
    term of rate [cm] (id 2). *)
Definition im_modified (ci cm : val) : InternalModel.t :=
  build [Call_add_node "a" None None;
         Call_add_node "h" None None;
         Call_add_node "u" None None;
         Call_add_edge "h" (TNode "a") "hill_activ" false None (Some [vone; vone; vone]);
         Call_add_edge "u" (TEdge 0) "lin_activ" true (Some "intern") (Some [ci]);
         Call_add_edge "u" (TEdge 0) "lin_activ" true (Some "mult") (Some [cm])].

(** One cell of that model, with [a = 0], [h = 1], [u = 1]. *)
Definition sim_modified (ci cm : val) : Simulation.t :=
  exec (_ ← Simulation.add_cell (cell_at 1);
        g ← Simulation.add_internal_model (im_modified ci cm);
        _ ← Simulation.set_internal_model [0] g;
        Simulation.set_cell_bounds) Simulation.init.

Definition state_modified : list val := [vzero; vone; vone].
Definition ycurrent_modified : list (ndarray val) :=
  [NdArray 1 3 (λ i j, state_modified !!! (i * 3 + j))].

(** Three cells on a line, the first two at the same position, all
    connected, with concentrations [1], [0] and [4]. *)
Definition positions_overlap : list (list Qc) := [[1%Qc]; [1%Qc]; [Q2Qc 2]].
Definition levels_overlap (i j : nat) : Qc := nth j [1%Qc; 0%Qc; Q2Qc 4] 0%Qc.
Definition x_overlap : ndarray val := NdArray 3 3 (λ i j, Fin (levels_overlap i j)).

(** Two groups: one cell of the three-species model, then cells [2] and
    [1], in that order, of the one-species model; all initial conditions
    set, bounds set. *)
Definition sim_two_groups : Simulation.t :=
  exec (_ ← Simulation.add_cell (cell_at 1);
        _ ← Simulation.add_cell (cell_at 2);
        _ ← Simulation.add_cell (cell_at 3);
        g0 ← Simulation.add_internal_model (im_modified vone vone);
        g1 ← Simulation.add_internal_model im_species_a;
        _ ← Simulation.set_internal_model [0] g0;
        _ ← Simulation.set_internal_model [2; 1] g1;
        _ ← Simulation.set_initial_conditions [0]
              {[ "a" := vzero; "h" := vone; "u" := vone ]};
        _ ← Simulation.set_initial_conditions [1] {[ "a" := vint 5 ]};
        _ ← Simulation.set_initial_conditions [2] {[ "a" := vint 7 ]};
        Simulation.set_cell_bounds) Simulation.init.

(** Two groups whose models both have a species named [a], and one
    diffusion interaction [a -> a] of rate [1] over the three cells, each
    connected to the others. *)
Definition sim_shared_name : Simulation.t :=
  exec (_ ← Simulation.add_cell (cell_at 1);
        _ ← Simulation.add_cell (cell_at 2);
        _ ← Simulation.add_cell (cell_at 3);
        g0 ← Simulation.add_internal_model im_species_a;
        g1 ← Simulation.add_internal_model (im_modified vone vone);
        _ ← Simulation.set_internal_model [0; 1] g0;
        _ ← Simulation.set_internal_model [2] g1;
        _ ← Simulation.add_interaction "a" (TNode "a") "diffusion"
              (NdArray 3 3 (λ i j, bool_decide (i ≠ j))) None false None (Some [vone]);
        Simulation.set_cell_bounds) Simulation.init.

(** A state for it: [a = 1] and [a = 0] in the first group, and
    [a = 4], [h = 1], [u = 1] in the cell of the second. *)
Definition state_shared_name : list val := [vone; vzero; vint 4; vone; vone].

(** ** The resolver and the derivative over a store of array buffers

    The definitions above compute with values.  To see what [deriv] does to
    the array it is given, the same code is embedded once more with numpy's
    arrays as references into a store of buffers: a slice, a reshape and a
    column are views of the buffer they come from, [np.copy], [np.zeros]
    and the arithmetic of the terms allocate a buffer, and the in-place
    operators [*=] and [+=] write through the reference on their left.
    An array made by a call that copies ([np.append], [np.tile]) and never
    written in place is carried as a value.  The two embeddings of [deriv]
    return the same values and raise the same exceptions
    ([store_deriv_refines]). *)

Module Store.

(** The store: buffer [b] is the [b]-th list. *)
Abbreviation heap := (list (list val)).

(** A one-axis array: the positions of its entries in its buffer. *)
Record vref := VRef { vbuf : nat; vidx : list nat }.

(** A two-axis array laid out row after row from an offset on. *)
Record mref := MRef { mbuf : nat; moff : nat; mrows : nat; mcols : nat }.

(** A new buffer holding [data], and the array that is all of it. *)
Definition alloc (data : list val) : st heap vref := λ h,
  (h ++ [data], Ok (VRef (length h) (seq 0 (length data)))).

(** The entries of an array. *)
Definition read (v : vref) : st heap (list val) := λ h,
  (h, Ok ((λ p, (h !!! vbuf v) !!! p) <$> vidx v)).

(** Storing entries through an array writes its buffer. *)
Definition write (v : vref) (data : list val) : st heap unit := λ h,
  (<[vbuf v := foldl (λ b '(p, x), <[p := x]> b) (h !!! vbuf v) (zip (vidx v) data)]> h,
   Ok tt).

(** [a op= b] *)
Definition iop (f : val → val → val) (a b : vref) : st heap unit :=
  x ← read a; y ← read b; z ← st_lift (vec_iop f x y); write a z.

(** All of buffer [b]. *)
Definition read_buffer (b : nat) : st heap (list val) := λ h, (h, Ok (h !!! b)).

(** [m[:, j]]: a view. *)
Definition column (m : mref) (j : nat) : result vref :=
  if decide (j < mcols m)
  then Ok (VRef (mbuf m) ((λ i, moff m + i * mcols m + j) <$> seq 0 (mrows m)))
  else Raise IndexError.

(** [m.flatten()]: the entries, copied. *)
Definition flatten (m : mref) : st heap (list val) :=
  read (VRef (mbuf m) ((λ p, moff m + p) <$> seq 0 (mrows m * mcols m))).

(** [np.copy(v)] *)
Definition copy (v : vref) : st heap vref := x ← read v; alloc x.

(** [np.zeros((r, c))] *)
Definition zeros (r c : nat) : st heap mref :=
  v ← alloc (replicate (r * c) vzero); mret (MRef (vbuf v) 0 r c).

(** [model.apply(x)]: every term builds its result by arithmetic on [x],
    which makes a new array. *)
Definition apply (m : model) (x : vref) : st heap vref :=
  xv ← read x; yv ← st_lift (Model.apply m xv); alloc yv.

(** A list comprehension whose element may touch the store. *)
Fixpoint mapM_st {S A B} (f : A → st S B) (l : list A) : st S (list B) :=
  match l with
  | [] => mret []
  | x :: l' => y ← f x; ys ← mapM_st f l'; mret (y :: ys)
  end.

(** [for mod in mods: if mod.mod_type == tag: v *= resolve(mod)] *)
Definition scale_by (resolve : contrib → st heap vref) (tag : string)
    (v : vref) (mods : list contrib) : st heap unit :=
  st_for mods (λ mod_,
    if decide (contrib_mod_type mod_ = Some tag)
    then r ← resolve mod_; iop vmul v r
    else mret tt).

(** The source species over all cells: [np.append] copies each column. *)
Definition gather_source (self : Simulation.t) (from_node : string)
    (ycurrent : list mref) : st heap (list val) :=
  xs ← mapM_st (λ i,
      im ← st_lift (py_index (Simulation.IMs self) i);
      if decide (is_Some (InternalModel.node_names im !! from_node)) then
        from_id ← st_lift (InternalModel.get_node_id im from_node);
        yc ← st_lift (py_index ycurrent i);
        col ← st_lift (column yc from_id);
        read col
      else
        cs ← st_lift (py_index (Simulation.IM_cells self) i);
        mret (replicate (length cs) NaN))
    (seq 0 (length (Simulation.IMs self)));
  mret (mjoin xs).

Fixpoint resolve_contribution (depth : nat) (self : Simulation.t) (c : contrib)
    (ycurrent : list mref) (IM_id : nat) : st heap vref :=
  match depth with
  | 0 => st_raise RuntimeError
  | S depth =>
      let resolve mod_ := resolve_contribution depth self mod_ ycurrent IM_id in
      match c with
      | External i =>
          ext_mods ← st_lift (Simulation.get_modifiers self (Interaction.int_id i) None);
          xdata ← gather_source self (Interaction.from_node i) ycurrent;
          cs ← st_lift (py_index (Simulation.IM_cells self) IM_id);
          let IM_num_cells := length cs in
          let xcontrib := np_tile xdata IM_num_cells in
          xcontrib ← st_lift (foldM (λ xcontrib mod_,
              if decide (Interaction.mod_type mod_ = Some "intern")
              then Raise NameError
              else Ok xcontrib) xcontrib ext_mods);
          bounds ← st_lift (py_index (Simulation.IM_bounds self) IM_id);
          yv ← st_lift (Model.apply2 (Interaction.model_ i) xcontrib bounds);
          ycontrib ← alloc yv;
          _ ← scale_by resolve "mult" ycontrib (External <$> ext_mods);
          mret ycontrib
      | Internal e =>
          im ← st_lift (py_index (Simulation.IMs self) IM_id);
          let int_mods := InternalModel.get_modifiers im (Edge.edge_id e) in
          ext_mods ← st_lift (Simulation.get_modifiers self (Edge.edge_id e) (Some IM_id));
          from_node ← st_lift (InternalModel.get_node_id im (Edge.from_node e));
          yc ← st_lift (py_index ycurrent IM_id);
          col ← st_lift (column yc from_node);
          (* xcontrib = np.copy(ycurrent[IM_id][:,from_node]) *)
          xcontrib ← copy col;
          let mods := (Internal <$> int_mods) ++ (External <$> ext_mods) in
          _ ← scale_by resolve "intern" xcontrib mods;
          ycontrib ← apply (Edge.model_ e) xcontrib;
          _ ← scale_by resolve "mult" ycontrib mods;
          mret ycontrib
      end
  end.

(** [yprime[i][:,j] += resolve(contrib)] for the contributions to species
    [j] of group [i]. *)
Definition accumulate (depth : nat) (self : Simulation.t) (ycurrent : list mref)
    (i : nat) (im : InternalModel.t) (yp : mref) (j : nat) : st heap unit :=
  cnode ← st_lift (py_index (InternalModel.get_node_names im) j);
  let int_contributions := InternalModel.get_contributions im cnode in
  let ext_contributions := Simulation.get_contributions self cnode in
  st_for ((Internal <$> int_contributions) ++ (External <$> ext_contributions))
    (λ contrib,
      r ← resolve_contribution depth self contrib ycurrent i;
      col ← st_lift (column yp j);
      iop vadd col r).

Definition accumulate_group (depth : nat) (self : Simulation.t)
    (ycurrent yprime : list mref) (i : nat) : st heap unit :=
  im ← st_lift (py_index (Simulation.IMs self) i);
  yp ← st_lift (py_index yprime i);
  st_for (seq 0 (InternalModel.num_nodes im)) (accumulate depth self ycurrent i im yp).

(** [ycurrent]: views of the buffer [y] of the state. *)
Definition unflatten (dims : list (nat * nat)) (bounds : list nat) (y : nat)
  : st heap (list mref) :=
  yv ← read_buffer y;
  st_lift (mapM' (λ i,
      '(r, c) ← py_index dims i;
      lo ← py_index bounds i; hi ← py_index bounds (i + 1);
      if decide (length (slice yv lo hi) = r * c) then Ok (MRef y lo r c)
      else Raise ValueError) (seq 0 (length dims))).

(** [deriv(y, t)], [y] being the buffer of the array handed in by the
    integrator; the result is a new array. *)
Definition deriv (depth : nat) (self : Simulation.t) (y : nat) (t : val)
  : st heap vref :=
  dims ← st_lift (Simulation.IM_dims self);
  let bounds := Simulation.flat_bounds dims in
  ycurrent ← unflatten dims bounds y;
  yprime ← mapM_st (λ '(r, c), zeros r c) dims;
  _ ← st_for (seq 0 (length (Simulation.IMs self)))
             (accumulate_group depth self ycurrent yprime);
  flat_yprime ← mapM_st flatten yprime;
  out ← st_lift (reduce_append flat_yprime);
  alloc out.

(** [deriv] called on a fresh store that holds the state [y] in buffer
    [0]: the entries of the array it returns. *)
Definition deriv_value (depth : nat) (self : Simulation.t) (y : list val) (t : val)
  : result (list val) :=
  let '(h, r) := deriv depth self 0 t [y] in
  out ← r; snd (read out h).

End Store.

(** * Statements

    The predicates and reference formulas the theorems are stated with. *)


Definition edge_ids (im : InternalModel.t) : list nat :=
  Edge.edge_id <$> InternalModel.edges im.

(** Ids are taken from the model's own counter, so every stored id is below
    the counter and no id is stored twice. *)
Definition edge_ids_fresh (im : InternalModel.t) : Prop :=
  NoDup (edge_ids im) ∧ Forall (λ i, i < InternalModel.edge_counter im) (edge_ids im).

(** The reading of the sentence on edge identity as it stands: any two
    edges of the models registered with a simulation differ in their id. *)
Definition edge_ids_unique_across_models (sim : Simulation.t) : Prop :=
  ∀ i1 p1 i2 p2 im1 im2 e1 e2,
    Simulation.IMs sim !! i1 = Some im1 → InternalModel.edges im1 !! p1 = Some e1 →
    Simulation.IMs sim !! i2 = Some im2 → InternalModel.edges im2 !! p2 = Some e2 →
    (i1, p1) ≠ (i2, p2) → Edge.edge_id e1 ≠ Edge.edge_id e2.

Definition every_cell_has_model (sim : Simulation.t) : Prop :=
  Forall (λ c, is_Some (Cell.IM c)) (Simulation.cells sim).
Definition every_cell_has_IC (sim : Simulation.t) : Prop :=
  Forall (λ c, is_Some (Cell.IC c)) (Simulation.cells sim).
Definition every_edge_has_params (sim : Simulation.t) : Prop :=
  Forall (λ im, Forall (λ e, Model.params_set (Edge.model_ e) = true)
                       (InternalModel.edges im)) (Simulation.IMs sim).
Definition every_interaction_has_params (sim : Simulation.t) : Prop :=
  Forall (λ i, Model.params_set (Interaction.model_ i) = true)
         (Simulation.interactions sim).

(** The value the loop of [set_IC] writes at index [i]. *)
Definition IC_entry (im : InternalModel.t) (IC : gmap string val) (i : nat) : val :=
  default vzero (n ← InternalModel.get_node_names im !! i; IC !! n).






(** Positions with finite coordinates, as the cells hold them. *)
Definition finite_positions (pos : list (list Qc)) : list (option (list val)) :=
  (λ p : list Qc, Some (Fin <$> p)) <$> pos.

(** The sum of the first [i] entries. *)
Definition prefix_sum (l : list nat) (i : nat) : nat := sum_list (take i l).

(** The number of state entries of each group: cells times species. *)
Definition group_sizes (dims : list (nat * nat)) : list nat :=
  (λ '(a, b), a * b) <$> dims.

(** What is added into the derivative of species [k] of a model: the edges
    of the model that end on the node, then the interactions that do. *)
Definition contributions (sim : Simulation.t) (im : InternalModel.t) (k : nat)
  : list contrib :=
  match InternalModel.get_node_names im !! k with
  | Some cnode =>
      (Internal <$> InternalModel.get_contributions im cnode)
      ++ (External <$> Simulation.get_contributions sim cnode)
  | None => []
  end.

(** The entries for cell [j] of a list of per-cell vectors, added up from
    zero in the order of the list. *)
Definition column_sum (rs : list (list val)) (j : nat) : val :=
  foldl vadd vzero ((λ r, r !!! j) <$> rs).

(** Column [k] of the accumulator [yp] of group [i] holds the sum of the
    resolved contributions to species [k], one entry per cell of the group. *)
Definition column_resolved (depth : nat) (sim : Simulation.t)
    (ycurrent : list (ndarray val)) (i : nat) (im : InternalModel.t) (n : nat)
    (yp : ndarray val) (k : nat) : Prop :=
  ∃ rs, mapM' (λ c, Simulation.resolve_contribution depth sim c ycurrent i)
              (contributions sim im k) = Ok rs ∧
        Forall (λ r, length r = n) rs ∧
        ∀ j, j < n → cell yp j k = column_sum rs j.

(** [ranges] are consecutive ranges that tile [[start, total)]: each begins
    where the one before it ends. *)
Fixpoint tiles (start : nat) (ranges : list (nat * nat)) (total : nat) : Prop :=
  match ranges with
  | [] => start = total
  | (lo, hi) :: ranges => lo = start ∧ lo ≤ hi ∧ tiles hi ranges total
  end.

(** The slices [y[bounds[i]:bounds[i+1]]] that [deriv] takes. *)
Definition flat_ranges (dims : list (nat * nat)) : list (nat * nat) :=
  (λ i, (Simulation.flat_bounds dims !!! i, Simulation.flat_bounds dims !!! (i + 1)))
    <$> seq 0 (length dims).

(** The reading of the sentence on the bounds as it stands: the bounds
    computed before integration tile the flattened vector, whose length is
    the sum over the groups of cells times species. *)
Definition cell_bounds_tile_flat_vector (sim : Simulation.t) : Prop :=
  ∀ dims, Simulation.IM_dims sim = Ok dims →
    tiles 0 (Simulation.IM_bounds (exec Simulation.set_cell_bounds sim))
          (sum_list (group_sizes dims)).

(** [m] leaves the first [n] buffers of the store as they are, only ever
    extends the store, and what it returns satisfies [Q]. *)
Definition preserves (n : nat) {A} (m : st Store.heap A) (Q : A → Prop) : Prop :=
  ∀ h, n ≤ length h →
    length h ≤ length (fst (m h)) ∧
    take n (fst (m h)) = take n h ∧
    ∀ a, snd (m h) = Ok a → Q a.

(** ** Relating the two embeddings of the derivative *)

(** A run over the store that ended as [out] agrees with the computation
    on values [r]: both raise the same exception, or both return and what
    they return is related by [R] in the final store. *)
Definition refines {A B} (R : Store.heap → A → B → Prop)
    (out : Store.heap * result B) (r : result A) : Prop :=
  match r with
  | Ok a => ∃ h' b, out = (h', Ok b) ∧ R h' a b
  | Raise e => ∃ h', out = (h', Raise e)
  end.

(** Two results that agree up to [P]. *)
Definition result_rel {A B} (P : A → B → Prop) (r : result A) (s : result B) : Prop :=
  match r, s with
  | Ok a, Ok b => P a b
  | Raise e, Raise e' => e = e'
  | _, _ => False
  end.

(** The matrix [m] is what the reference [r] shows of the buffer [buf]. *)
Definition view_of (buf : list val) (m : ndarray val) (r : Store.mref) : Prop :=
  nrows m = Store.mrows r ∧ ncols m = Store.mcols r ∧
  ∀ i j, i < nrows m → j < ncols m →
    buf !!! (Store.moff r + i * Store.mcols r + j) = cell m i j.

Definition views (h : Store.heap) (ms : list (ndarray val)) (rs : list Store.mref)
  : Prop :=
  Forall2 (λ m r, ∃ buf, h !! Store.mbuf r = Some buf ∧ view_of buf m r) ms rs.

(** [ref] is all of a buffer that holds [v] and was allocated after the
    store was [h]. *)
Definition fresh_vector (h h' : Store.heap) (v : list val) (ref : Store.vref) : Prop :=
  (∃ k, h' = h ++ k) ∧
  Store.vidx ref = seq 0 (length v) ∧
  length h ≤ Store.vbuf ref ∧
  h' !! Store.vbuf ref = Some v.

(** The buffer after buffers [hpre] holds [buf], and is followed by the
    buffers [rest]. *)
Definition holds_at (hpre : Store.heap) (rest : Store.heap) (h : Store.heap)
    (buf : list val) : Prop :=
  ∃ k, h = hpre ++ buf :: rest ++ k.

(** The accumulators of [deriv]: one buffer per group, allocated one after
    the other. *)
Definition accumulator_refs (n0 : nat) (dims : list (nat * nat)) : list Store.mref :=
  imap (λ i '(r, c), Store.MRef (n0 + i) 0 r c) dims.

Definition write_entries (b : list val) (l : list (nat * val)) : list val :=
  foldl (λ b '(p, x), <[p := x]> b) b l.

(** ** Statements about the reaction graph and its terms *)

(** The name dictionary and the node list agree: a registered name is the
    name of the node at its index, and every node's name is registered. *)
Definition names_index_nodes (im : InternalModel.t) : Prop :=
  (∀ name i, InternalModel.node_names im !! name = Some i →
     Node.name <$> InternalModel.nodes im !! i = Some name) ∧
  (∀ node, node ∈ InternalModel.nodes im →
     is_Some (InternalModel.node_names im !! Node.name node)).

(** An edge is a modifier (it points at an edge) or a contribution (it
    points at a node), as its term says. *)
Definition edge_kind_ok (e : Edge.t) : Prop :=
  Edge.is_mod e = Model.is_mod (Edge.model_ e) ∧
  Edge.mod_type e = Model.mod_type (Edge.model_ e) ∧
  if Edge.is_mod e
  then Edge.to_node e = None ∧ is_Some (Edge.to_edge e)
  else Edge.to_edge e = None ∧ is_Some (Edge.to_node e).


(** ** Building a simulation through its methods *)

(** The calls that change a simulation.  [Sim_add_cell position] is
    [sim.add_cell(Cell(position))]: every cell is an object of its own. *)
Inductive sim_call :=
  | Sim_add_cell (position : option (list val))
  | Sim_add_internal_model (im : InternalModel.t)
  | Sim_set_internal_model (cell_id_list : list nat) (IM_id : nat)
  | Sim_set_initial_conditions (cell_id_list : list nat) (IC : gmap string val)
  | Sim_add_interaction (from_node : string) (to : target) (type : string)
      (connections : ndarray bool) (IM_id : option nat) (is_mod : bool)
      (mod_type : option string) (params : option (list val))
  | Sim_set_cell_bounds.

(** The simulation after a call, whether the call returned or raised. *)
Definition sim_run_call (self : Simulation.t) (c : sim_call) : Simulation.t :=
  match c with
  | Sim_add_cell position => exec (Simulation.add_cell (Cell.init position)) self
  | Sim_add_internal_model im => exec (Simulation.add_internal_model im) self
  | Sim_set_internal_model cell_id_list IM_id =>
      exec (Simulation.set_internal_model cell_id_list IM_id) self
  | Sim_set_initial_conditions cell_id_list IC =>
      exec (Simulation.set_initial_conditions cell_id_list IC) self
  | Sim_add_interaction from_node to type connections IM_id is_mod mod_type params =>
      exec (Simulation.add_interaction from_node to type connections IM_id is_mod
              mod_type params) self
  | Sim_set_cell_bounds => exec Simulation.set_cell_bounds self
  end.

(** The simulation built from [Simulation()] by a sequence of calls. *)
Definition sim_build (calls : list sim_call) : Simulation.t :=
  foldl sim_run_call Simulation.init calls.

(** An interaction as [add_interaction] makes them: a diffusion term that
    ends on a node and modifies nothing. *)
Definition plain_diffusion (i : Interaction.t) : Prop :=
  Interaction.is_mod i = false ∧ Interaction.mod_type i = None ∧
  Interaction.to_edge i = None ∧ Interaction.to_IM i = None ∧
  is_Some (Interaction.to_node i) ∧
  ∃ C dist_pre cmask, Interaction.model_ i = Diffusion C dist_pre cmask.

(** The groups of a simulation: one per registered model, listing cells
    that exist; the interactions are plain diffusions with ids of their
    own, below the counter. *)
Definition sim_well_formed (sim : Simulation.t) : Prop :=
  length (Simulation.IM_cells sim) = length (Simulation.IMs sim) ∧
  Forall (Forall (λ cid, cid < Simulation.num_cells sim)) (Simulation.IM_cells sim) ∧
  Forall plain_diffusion (Simulation.interactions sim) ∧
  NoDup (Interaction.int_id <$> Simulation.interactions sim) ∧
  Forall (λ i, Interaction.int_id i < Simulation.int_counter sim)
         (Simulation.interactions sim).

(** A chain of modifiers: every edge of the list modifies the next one,
    and the last one modifies nothing. *)
Fixpoint linked (chain : list Edge.t) : Prop :=
  match chain with
  | [] => True
  | m :: rest =>
      match rest with
      | [] => Edge.to_edge m = None
      | t :: _ => Edge.to_edge m = Some (TEdge (Edge.edge_id t)) ∧ linked rest
      end
  end.

(** Whether the term of a contribution has had its parameters set. *)
Definition contrib_params_set (c : contrib) : bool :=
  match c with
  | Internal e => Model.params_set (Edge.model_ e)
  | External i => Model.params_set (Interaction.model_ i)
  end.

(** A cell that was given the two-species model and its initial condition,
    and then a three-species model: the initial condition keeps its two
    entries. *)
Definition im_two_species : InternalModel.t :=
  build [Call_add_node "a" None None; Call_add_node "b" None None].

Definition im_three_species : InternalModel.t :=
  build [Call_add_node "a" None None; Call_add_node "b" None None;
         Call_add_node "c" None None].

Definition sim_stale_IC : Simulation.t :=
  sim_build [Sim_add_cell (Some [vone]);
             Sim_add_internal_model im_two_species;
             Sim_add_internal_model im_three_species;
             Sim_set_internal_model [0] 0;
             Sim_set_initial_conditions [0] {[ "a" := vone; "b" := vzero ]};
             Sim_set_internal_model [0] 1].

(** ** States that agree on some cells *)

(** Two vectors of length [n] that agree at the places in [P]. *)
Definition agree_on (n : nat) (P : nat → Prop) (v v' : list val) : Prop :=
  length v = n ∧ length v' = n ∧ ∀ j, P j → v !! j = v' !! j.

(** Two arrays of [n] rows and [s] columns that agree on the rows in [P]. *)
Definition rows_agree (n s : nat) (P : nat → Prop) (m m' : ndarray val) : Prop :=
  shape m = (n, s) ∧ shape m' = (n, s) ∧
  ∀ j k, P j → j < n → k < s → cell m j k = cell m' j k.

(** One array per group, of the shapes [dims]; the arrays of group [g]
    agree on the rows in [Q g]. *)
Definition groups_agree (dims : list (nat * nat)) (Q : nat → nat → Prop)
    (ms ms' : list (ndarray val)) : Prop :=
  length ms = length dims ∧ length ms' = length dims ∧
  ∀ g n s, dims !! g = Some (n, s) →
    ∃ m m', ms !! g = Some m ∧ ms' !! g = Some m' ∧ rows_agree n s (Q g) m m'.

(** Two flat vectors of one length that agree on the entries of the cells
    in [Q]: [Q g j] is the [j]-th cell of group [g]. *)
Definition cells_agree (dims : list (nat * nat)) (Q : nat → nat → Prop)
    (y y' : list val) : Prop :=
  length y = length y' ∧
  ∀ g n s j k, dims !! g = Some (n, s) → Q g j → j < n → k < s →
    y !! (prefix_sum (group_sizes dims) g + j * s + k)
    = y' !! (prefix_sum (group_sizes dims) g + j * s + k).

(** Two cells of one model and no interaction. *)
Definition sim_separate_cells : Simulation.t :=
  sim_build [Sim_add_cell (Some [vone]); Sim_add_cell (Some [vint 2]);
             Sim_add_internal_model im_one_edge;
             Sim_set_internal_model [0; 1] 0].

(** * Proofs *)

(** ** Reasoning about computations that may raise *)

Lemma bind_Ok {A B} (m : result A) (f : A → result B) (b : B) :
  m ≫= f = Ok b ↔ ∃ a, m = Ok a ∧ f a = Ok b.
Proof.
  destruct m as [a|e]; simpl.
  - split; [eauto | by intros (a' & [= <-] & ?)].
  - split; [done | by intros (? & ? & ?)].
Qed.

Lemma fmap_Ok {A B} (f : A → B) (m : result A) (b : B) :
  f <$> m = Ok b ↔ ∃ a, m = Ok a ∧ b = f a.
Proof.
  destruct m as [a|e]; simpl.
  - split; [intros [= <-]; eauto | by intros (a' & [= <-] & ->)].
  - split; [done | by intros (? & ? & ?)].
Qed.

Lemma py_index_Ok {A} (l : list A) i x : py_index l i = Ok x ↔ l !! i = Some x.
Proof. unfold py_index. destruct (l !! i); split; congruence. Qed.

(** Take a successful sequence of binds apart. *)
Ltac inv_bind H :=
  repeat match type of H with
  | _ ≫= _ = Ok _ =>
      let a := fresh "a" in let Ha := fresh "H" a in
      apply bind_Ok in H as (a & Ha & H)
  end.

Lemma mapM'_Forall2 {A B} (f : A → result B) l ys :
  mapM' f l = Ok ys ↔ Forall2 (λ x y, f x = Ok y) l ys.
Proof.
  revert ys. induction l as [|x l IH]; intros ys; simpl.
  - split; [intros [= <-]; constructor | by inversion 1].
  - split.
    + intros H. inv_bind H. injection H as <-. constructor; [done|]. by apply IH.
    + inversion 1 as [|? y ? ys' Hx Hl]; subst. rewrite Hx. simpl.
      apply IH in Hl. by rewrite Hl.
Qed.

Lemma mapM'_length {A B} (f : A → result B) l ys :
  mapM' f l = Ok ys → length ys = length l.
Proof. intros H. apply mapM'_Forall2 in H. symmetry. by eapply Forall2_length. Qed.

Lemma mapM'_lookup {A B} (f : A → result B) l ys i x :
  mapM' f l = Ok ys → l !! i = Some x → ∃ y, ys !! i = Some y ∧ f x = Ok y.
Proof.
  intros H Hx. apply mapM'_Forall2 in H.
  destruct (Forall2_lookup_l _ _ _ _ _ H Hx) as (y & ? & ?). eauto.
Qed.

(** A loop invariant for [foldM]: [P i a] holds of the accumulator before
    the [i]-th element is processed. *)
Lemma foldM_ind {A B} (f : A → B → result A) (P : nat → A → Prop) l a0 a :
  P 0 a0 →
  (∀ i x a a', l !! i = Some x → P i a → f a x = Ok a' → P (S i) a') →
  foldM f a0 l = Ok a → P (length l) a.
Proof.
  revert P a0. induction l as [|x l IH]; intros P a0 H0 Hstep H; simpl in *.
  - by injection H as <-.
  - inv_bind H. apply (IH (λ i, P (S i)) a1); [|intros|done].
    + by apply (Hstep 0 x a0).
    + by apply (Hstep (S i) x0 a2).
Qed.

Lemma mapM'_ok {A B} (f : A → result B) (g : A → B) l :
  Forall (λ x, f x = Ok (g x)) l → mapM' f l = Ok (g <$> l).
Proof.
  induction 1 as [|x l Hx _ IH]; simpl; [done|]. by rewrite Hx, IH.
Qed.




(** ** Edge identity *)

Lemma edge_ids_fresh_init : edge_ids_fresh InternalModel.init.
Proof. split; [constructor | constructor]. Qed.

Lemma edge_ids_fresh_append im e :
  edge_ids_fresh im →
  Edge.edge_id e = InternalModel.edge_counter im →
  edge_ids_fresh
    (InternalModel.with_edges (λ es, es ++ [e])
       (InternalModel.with_edge_counter S im)).
Proof.
  intros [Hnd Hlt] Hid. unfold edge_ids_fresh, edge_ids in *. simpl.
  rewrite fmap_app. simpl. split.
  - apply NoDup_app. split; [done|]. split.
    + intros x Hx Hx'. apply list_elem_of_singleton in Hx'. subst x.
      rewrite Forall_forall in Hlt. apply Hlt in Hx. lia.
    + apply NoDup_singleton.
  - apply Forall_app. split.
    + eapply Forall_impl; [exact Hlt|]. simpl. intros; lia.
    + constructor; [lia | constructor].
Qed.

Lemma edge_ids_fresh_bump im :
  edge_ids_fresh im → edge_ids_fresh (InternalModel.with_edge_counter S im).
Proof.
  intros [Hnd Hlt]. split; [done|].
  eapply Forall_impl; [exact Hlt|]. simpl. intros; lia.
Qed.

Lemma edge_ids_fresh_with_nodes im f :
  edge_ids_fresh im → edge_ids_fresh (InternalModel.with_nodes f im).
Proof. by intros [??]. Qed.

Lemma edge_ids_fresh_with_node_names im f :
  edge_ids_fresh im → edge_ids_fresh (InternalModel.with_node_names f im).
Proof. by intros [??]. Qed.

Lemma edge_init_id from_node to m eid :
  Edge.edge_id (Edge.init from_node to m eid) = eid.
Proof. unfold Edge.init. by destruct (Model.is_mod m). Qed.

Lemma add_edge_fresh from_node to type is_mod mod_type params im :
  edge_ids_fresh im →
  edge_ids_fresh (exec (InternalModel.add_edge from_node to type is_mod mod_type params) im).
Proof.
  intros Hf. unfold exec, InternalModel.add_edge, InternalModel.fresh_edge_id.
  unfold mbind, st_bind, st_get, st_modify, st_lift, st_raise, mret, st_ret. simpl.
  destruct (InternalModel.get_edge_model _ _ _ _) as [[m|]|e]; simpl.
  - apply edge_ids_fresh_append; [done|]. apply edge_init_id.
  - by apply edge_ids_fresh_bump.
  - by apply edge_ids_fresh_bump.
Qed.

Lemma set_node_degradation_fresh name degradation params im :
  edge_ids_fresh im →
  edge_ids_fresh (exec (InternalModel.set_node_degradation name degradation params) im).
Proof.
  intros Hf. unfold exec, InternalModel.set_node_degradation, InternalModel.fresh_edge_id.
  unfold mbind, st_bind, st_get, st_modify, st_lift, st_raise, mret, st_ret. simpl.
  destruct (InternalModel.get_node_id im name) as [i|]; simpl; [|done].
  destruct (py_index _ i) as [node|]; simpl; [|done].
  repeat case_decide; simpl; try done.
  - destruct (Model.param1 params) as [C|]; simpl; [|done].
    match goal with |- context [InternalModel.get_edge ?s ?k] =>
      destruct (InternalModel.get_edge s k) end; simpl;
    (apply (edge_ids_fresh_append (InternalModel.with_nodes _ im));
       [by apply edge_ids_fresh_with_nodes | apply edge_init_id]).
  - destruct (Model.param1 params) as [C|]; simpl; [|done].
    match goal with |- context [InternalModel.get_edge ?s ?k] =>
      destruct (InternalModel.get_edge s k) end; simpl;
    (apply (edge_ids_fresh_append (InternalModel.with_nodes _ im));
       [by apply edge_ids_fresh_with_nodes | apply edge_init_id]).
Qed.

Lemma add_node_fresh name degradation params im :
  edge_ids_fresh im →
  edge_ids_fresh (exec (InternalModel.add_node name degradation params) im).
Proof.
  intros Hf. unfold exec, InternalModel.add_node.
  unfold mbind at 1 2, st_bind at 1 2, st_modify at 1 2. simpl.
  set (im1 := InternalModel.with_node_names _ _).
  assert (edge_ids_fresh im1) as H1.
  { apply edge_ids_fresh_with_node_names. by apply edge_ids_fresh_with_nodes. }
  pose proof (set_node_degradation_fresh name degradation params im1 H1) as H2.
  unfold exec in H2. unfold mbind, st_bind.
  destruct (InternalModel.set_node_degradation name degradation params im1)
    as [im2 [r|e]]; simpl in *; [|done].
  unfold st_get, st_lift. done.
Qed.

Lemma run_call_fresh im c : edge_ids_fresh im → edge_ids_fresh (run_call im c).
Proof.
  destruct c; simpl.
  - apply add_node_fresh.
  - apply set_node_degradation_fresh.
  - apply add_edge_fresh.
Qed.

Lemma build_from_fresh calls im :
  edge_ids_fresh im → edge_ids_fresh (foldl run_call im calls).
Proof.
  revert im. induction calls as [|c calls IH]; intros im Hf; simpl; [done|].
  apply IH. by apply run_call_fresh.
Qed.

(** C8, as stated, fails: each model counts its edges from zero, so the
    first edges of two models registered with one simulation share id 0. *)
Lemma C8_counterexample_two_models :
  ¬ edge_ids_unique_across_models sim_two_models.
Proof.
  intros H.
  destruct (InternalModel.edges im_one_edge !! 0) as [e1|] eqn:He1; [|discriminate He1].
  destruct (InternalModel.edges im_other_edge !! 0) as [e2|] eqn:He2; [|discriminate He2].
  apply (H 0 0 1 0 im_one_edge im_other_edge e1 e2); try done.
  injection He1 as <-. injection He2 as <-. reflexivity.
Qed.

(** C8 (amended): within one internal model built through its methods, no
    two stored edges share an id and every id is below the model's counter;
    the id is the counter value at creation, whatever position the edge is
    stored at. *)
Theorem C8_edge_ids_unique_per_model (calls : list im_call) :
  NoDup (edge_ids (build calls)) ∧
  Forall (λ i, i < InternalModel.edge_counter (build calls)) (edge_ids (build calls)).
Proof. apply build_from_fresh, edge_ids_fresh_init. Qed.

(** ** The readiness check *)

Lemma foldl_andb_true b l :
  foldl andb b l = true ↔ b = true ∧ Forall (λ x, x = true) l.
Proof.
  revert b. induction l as [|x l IH]; intros b; simpl.
  - split; [intros ->; by split | by intros [-> _]].
  - rewrite IH, andb_true_iff, Forall_cons. tauto.
Qed.

Lemma reduce_and_true l :
  reduce_and l = Ok true → Forall (λ x, x = true) l.
Proof.
  destruct l as [|b l]; simpl; [done|]. intros [= H].
  apply foldl_andb_true in H as [-> H]. by constructor.
Qed.

Lemma reduce_and_cases l :
  (l = [] ∧ reduce_and l = Raise TypeError) ∨ (l ≠ [] ∧ ∃ b, reduce_and l = Ok b).
Proof. destruct l; [by left | right; split; [done | by eexists]]. Qed.

Lemma all_params_set_true im :
  InternalModel.all_params_set im = true →
  Forall (λ e, Model.params_set (Edge.model_ e) = true) (InternalModel.edges im).
Proof.
  unfold InternalModel.all_params_set.
  destruct (InternalModel.edges im) as [|e es]; simpl; [constructor|].
  intros H. apply foldl_andb_true in H as [He Hes].
  constructor; [done|]. by apply Forall_fmap in Hes.
Qed.

(** The check answers [True] only when its three conditions hold. *)
Lemma simulation_ready_true sim :
  Simulation.simulation_ready sim = Ok true →
  every_cell_has_model sim ∧ every_cell_has_IC sim ∧ every_edge_has_params sim.
Proof.
  unfold Simulation.simulation_ready. intros H.
  destruct (reduce_and ((λ c, bool_decide (is_Some (Cell.IM c))) <$> _)) as [[]|] eqn:H1;
    simpl in H; [|done..].
  destruct (reduce_and ((λ c, bool_decide (is_Some (Cell.IC c))) <$> _)) as [[]|] eqn:H2;
    simpl in H; [|done..].
  destruct (reduce_and (InternalModel.all_params_set <$> _)) as [[]|] eqn:H3;
    simpl in H; [|done..].
  apply reduce_and_true, Forall_fmap in H1, H2, H3.
  repeat split.
  - eapply Forall_impl; [exact H1|]. simpl. intros c Hc. by apply bool_decide_eq_true in Hc.
  - eapply Forall_impl; [exact H2|]. simpl. intros c Hc. by apply bool_decide_eq_true in Hc.
  - eapply Forall_impl; [exact H3|]. simpl. intros im. apply all_params_set_true.
Qed.

(** The check has three outcomes: [True], [False], or the [TypeError] of a
    reduction over an empty list. *)
Lemma simulation_ready_outcomes sim :
  Simulation.simulation_ready sim = Ok true ∨
  Simulation.simulation_ready sim = Ok false ∨
  Simulation.simulation_ready sim = Raise TypeError.
Proof.
  unfold Simulation.simulation_ready.
  destruct (reduce_and_cases ((λ c, bool_decide (is_Some (Cell.IM c))) <$> Simulation.cells sim))
    as [[_ ->]|[_ [[] ->]]]; simpl; [by auto | | by auto].
  destruct (reduce_and_cases ((λ c, bool_decide (is_Some (Cell.IC c))) <$> Simulation.cells sim))
    as [[_ ->]|[_ [[] ->]]]; simpl; [by auto | | by auto].
  destruct (reduce_and_cases (InternalModel.all_params_set <$> Simulation.IMs sim))
    as [[_ ->]|[_ [[] ->]]]; simpl; by auto.
Qed.

Lemma simulate_prepare_not_ready sim :
  Simulation.simulation_ready sim ≠ Ok true →
  Simulation.simulate_prepare sim = (sim, Ok None) ∨
  Simulation.simulate_prepare sim = (sim, Raise TypeError).
Proof.
  intros Hn. unfold Simulation.simulate_prepare.
  unfold mbind, st_bind, st_get, st_lift, mret, st_ret. simpl.
  destruct (simulation_ready_outcomes sim) as [H|[H|H]]; [done| |]; rewrite H; simpl; auto.
Qed.

Lemma simulate_prepare_some sim sim' y0 :
  Simulation.simulate_prepare sim = (sim', Ok (Some y0)) →
  Simulation.simulation_ready sim = Ok true.
Proof.
  unfold Simulation.simulate_prepare.
  unfold mbind, st_bind, st_get, st_lift, mret, st_ret. simpl.
  destruct (Simulation.simulation_ready sim) as [[]|]; simpl; [done | | ]; by intros [=].
Qed.

(** C2, as stated, fails: the check never looks at the interactions.  With
    a diffusion term whose parameters are unset, [simulate] still reaches the
    integrator. *)
Lemma C2_counterexample_unset_interaction :
  ¬ every_interaction_has_params sim_unset_interaction ∧
  Simulation.simulation_ready sim_unset_interaction = Ok true ∧
  eval Simulation.simulate_prepare sim_unset_interaction = Ok (Some [vone]).
Proof.
  split; [|split].
  - intros H. apply Forall_inv in H. discriminate H.
  - reflexivity.
  - by apply (bool_decide_unpack _); vm_compute.
Qed.

(** C2 (amended): [simulate] reaches the integrator only if every cell has
    an assigned model and an initial condition and every edge of every
    registered model has its parameters set.  If one of these three fails,
    the check does not answer [True] and [simulate] returns (or raises the
    [TypeError] of the empty reduction) with the simulation untouched,
    whatever the integrator is.  The parameters of the interactions are not
    part of the check. *)
Theorem C2_readiness_gates_integration (sim : Simulation.t) :
  (∀ sim' y0, Simulation.simulate_prepare sim = (sim', Ok (Some y0)) →
     every_cell_has_model sim ∧ every_cell_has_IC sim ∧ every_edge_has_params sim) ∧
  (¬ (every_cell_has_model sim ∧ every_cell_has_IC sim ∧ every_edge_has_params sim) →
     Simulation.simulation_ready sim ≠ Ok true ∧
     ∀ odeint depth times,
       Simulation.simulate odeint depth times sim = (sim, Ok None) ∨
       Simulation.simulate odeint depth times sim = (sim, Raise TypeError)).
Proof.
  split.
  - intros sim' y0 H. eapply simulation_ready_true, simulate_prepare_some, H.
  - intros Hn.
    assert (Simulation.simulation_ready sim ≠ Ok true) as Hr.
    { intros H. by apply Hn, simulation_ready_true. }
    split; [done|]. intros odeint depth times.
    destruct (simulate_prepare_not_ready sim Hr) as [H | H]; [left | right];
      unfold Simulation.simulate; unfold mbind at 1, st_bind at 1; by rewrite H.
Qed.

Lemma C2_readiness_gates_integration_witness :
  (every_cell_has_model sim_unset_interaction ∧
   every_cell_has_IC sim_unset_interaction ∧
   every_edge_has_params sim_unset_interaction) ∧
  (Simulation.simulation_ready sim_fresh_cell ≠ Ok true ∧
   ∀ odeint depth times,
     Simulation.simulate odeint depth times sim_fresh_cell = (sim_fresh_cell, Ok None) ∨
     Simulation.simulate odeint depth times sim_fresh_cell
       = (sim_fresh_cell, Raise TypeError)).
Proof.
  split.
  - destruct (Simulation.simulate_prepare sim_unset_interaction) as [s' [[y0|]|e]] eqn:H.
    + exact (proj1 (C2_readiness_gates_integration sim_unset_interaction) s' y0 H).
    + exfalso. apply (f_equal snd) in H. vm_compute in H. discriminate H.
    + exfalso. apply (f_equal snd) in H. vm_compute in H. discriminate H.
  - apply (proj2 (C2_readiness_gates_integration sim_fresh_cell)).
    intros (_ & H & _). apply Forall_inv in H. destruct H as [x H]. discriminate H.
Defined.

(** ** Initial conditions *)

Lemma st_for_cons {S A} (x : A) (l : list A) (body : A → st S unit) s :
  st_for (x :: l) body s =
  match body x s with
  | (s', Ok _) => st_for l body s'
  | (s', Raise e) => (s', Raise e)
  end.
Proof. reflexivity. Qed.

Lemma fill_IC_body_ok im IC i vec node v :
  InternalModel.nodes im !! i = Some node → IC !! Node.name node = Some v →
  Cell.fill_IC_step im IC i vec = (<[i := v]> vec, Ok tt).
Proof.
  intros Hn Hv. unfold Cell.fill_IC_step, mbind, st_bind, st_lift, st_modify, py_index, Cell.dict_get.
  by rewrite Hn, Hv.
Qed.

Lemma fill_IC_body_err im IC i vec node :
  InternalModel.nodes im !! i = Some node → IC !! Node.name node = None →
  Cell.fill_IC_step im IC i vec = (vec, Raise KeyError).
Proof.
  intros Hn Hv. unfold Cell.fill_IC_step, mbind, st_bind, st_lift, st_modify, py_index, Cell.dict_get.
  by rewrite Hn, Hv.
Qed.

Lemma node_names_lookup im i :
  InternalModel.get_node_names im !! i = Node.name <$> InternalModel.nodes im !! i.
Proof. unfold InternalModel.get_node_names. apply list_lookup_fmap. Qed.

(** When every name is a key, the loop runs to its end and writes the
    entries in node order. *)
Lemma fill_loop_ok im IC idxs vec :
  Forall (λ i, ∃ node, InternalModel.nodes im !! i = Some node ∧
                       is_Some (IC !! Node.name node)) idxs →
  st_for idxs (Cell.fill_IC_step im IC) vec
  = (foldl (λ vec i, <[i := IC_entry im IC i]> vec) vec idxs, Ok tt).
Proof.
  intros H. revert vec. induction H as [|i idxs (node & Hn & [v Hv]) _ IH]; intros vec.
  - reflexivity.
  - rewrite st_for_cons, (fill_IC_body_ok _ _ _ _ node v) by done.
    rewrite IH. simpl. unfold IC_entry. rewrite node_names_lookup, Hn. simpl.
    by rewrite Hv.
Qed.

(** When some name is not a key, the loop raises [KeyError]. *)
Lemma fill_loop_err im IC idxs vec :
  Forall (λ i, is_Some (InternalModel.nodes im !! i)) idxs →
  Exists (λ i, ∃ node, InternalModel.nodes im !! i = Some node ∧
                       IC !! Node.name node = None) idxs →
  snd (st_for idxs (Cell.fill_IC_step im IC) vec) = Raise KeyError.
Proof.
  intros Hall. revert vec. induction Hall as [|i idxs [node Hn] _ IH]; intros vec Hex.
  - by apply Exists_nil in Hex.
  - rewrite st_for_cons. destruct (IC !! Node.name node) as [v|] eqn:Hv.
    + rewrite (fill_IC_body_ok _ _ _ _ node v) by done. apply IH.
      apply Exists_cons in Hex as [(node' & Hn' & Hv')|Hex]; [|done].
      congruence.
    + by rewrite (fill_IC_body_err _ _ _ _ node).
Qed.

Lemma foldl_insert_seq {A} (g : nat → A) (vec : list A) k m :
  k + m ≤ length vec →
  foldl (λ vec i, <[i := g i]> vec) vec (seq k m)
  = take k vec ++ (g <$> seq k m) ++ drop (k + m) vec.
Proof.
  revert vec k. induction m as [|m IH]; intros vec k Hle; simpl.
  - rewrite Nat.add_0_r. by rewrite take_drop.
  - rewrite IH by (rewrite length_insert; lia).
    rewrite (take_S_r _ k (g k)) by (apply list_lookup_insert_eq; lia).
    rewrite take_insert_ge by lia.
    rewrite drop_insert_lt by lia.
    replace (k + S m) with (S k + m) by lia.
    by rewrite <- app_assoc.
Qed.

Lemma foldl_insert_all {A} (g : nat → A) (vec : list A) :
  foldl (λ vec i, <[i := g i]> vec) vec (seq 0 (length vec)) = g <$> seq 0 (length vec).
Proof.
  rewrite foldl_insert_seq by lia. simpl. by rewrite drop_all, app_nil_r.
Qed.

Lemma seq_nodes_defined im :
  Forall (λ i, is_Some (InternalModel.nodes im !! i))
         (seq 0 (InternalModel.num_nodes im)).
Proof.
  apply Forall_forall. intros i Hi. apply elem_of_seq in Hi.
  apply lookup_lt_is_Some. unfold InternalModel.num_nodes in Hi. lia.
Qed.

(** A mapping of the right size whose key set is not the set of node names
    misses one of the names. *)
Lemma wrong_keys_miss_a_name im (IC : gmap string val) :
  NoDup (InternalModel.get_node_names im) →
  size IC = InternalModel.num_nodes im →
  dom IC ≠ list_to_set (InternalModel.get_node_names im) →
  Exists (λ i, ∃ node, InternalModel.nodes im !! i = Some node ∧
                       IC !! Node.name node = None)
         (seq 0 (InternalModel.num_nodes im)).
Proof.
  intros Hnd Hsz Hne.
  destruct (decide (Forall (λ n, n ∈ dom IC) (InternalModel.get_node_names im)))
    as [Hall|Hex].
  - exfalso. apply Hne. symmetry. apply set_subseteq_size_eq.
    + intros n Hn. apply elem_of_list_to_set in Hn.
      rewrite Forall_forall in Hall. by apply Hall.
    + rewrite size_list_to_set by done. rewrite size_dom, Hsz.
      unfold InternalModel.get_node_names, InternalModel.num_nodes.
      by rewrite length_fmap.
  - apply not_Forall_Exists in Hex; [|solve_decision].
    apply Exists_exists in Hex as (n & Hn & Hnot).
    apply list_elem_of_lookup in Hn as [i Hi].
    rewrite node_names_lookup in Hi.
    destruct (InternalModel.nodes im !! i) as [node|] eqn:Hnode; [|done].
    injection Hi as <-. apply Exists_exists. exists i. split.
    + apply elem_of_seq. apply lookup_lt_Some in Hnode.
      unfold InternalModel.num_nodes. lia.
    + exists node. split; [done|]. by apply not_elem_of_dom.
Qed.

Lemma valid_keys_all_found im (IC : gmap string val) :
  dom IC = list_to_set (InternalModel.get_node_names im) →
  Forall (λ i, ∃ node, InternalModel.nodes im !! i = Some node ∧
                       is_Some (IC !! Node.name node))
         (seq 0 (InternalModel.num_nodes im)).
Proof.
  intros Hdom. apply Forall_forall. intros i Hi. apply elem_of_seq in Hi.
  destruct (lookup_lt_is_Some_2 (InternalModel.nodes im) i) as [node Hn].
  { unfold InternalModel.num_nodes in Hi. lia. }
  exists node. split; [done|]. apply elem_of_dom. rewrite Hdom.
  apply elem_of_list_to_set. apply list_elem_of_lookup. exists i.
  by rewrite node_names_lookup, Hn.
Qed.

Lemma valid_keys_size im (IC : gmap string val) :
  NoDup (InternalModel.get_node_names im) →
  dom IC = list_to_set (InternalModel.get_node_names im) →
  size IC = InternalModel.num_nodes im.
Proof.
  intros Hnd Hdom. rewrite <- size_dom, Hdom, size_list_to_set by done.
  unfold InternalModel.get_node_names, InternalModel.num_nodes. by rewrite length_fmap.
Qed.

(** A cell without an initial condition makes the check answer [False]. *)
Lemma simulation_ready_missing_IC sim c :
  c ∈ Simulation.cells sim → Cell.IC c = None →
  Simulation.simulation_ready sim = Ok false.
Proof.
  intros Hin Hic. unfold Simulation.simulation_ready.
  destruct (reduce_and_cases ((λ c, bool_decide (is_Some (Cell.IM c))) <$> Simulation.cells sim))
    as [[Hnil _]|[_ [[] ->]]]; simpl; [|idtac|done].
  { apply fmap_nil_inv in Hnil. rewrite Hnil in Hin. by apply elem_of_nil in Hin. }
  destruct (reduce_and ((λ c, bool_decide (is_Some (Cell.IC c))) <$> Simulation.cells sim))
    as [[]|] eqn:H2; simpl.
  - exfalso. apply reduce_and_true, Forall_fmap in H2.
    rewrite Forall_forall in H2. specialize (H2 c Hin). simpl in H2.
    apply bool_decide_eq_true in H2. rewrite Hic in H2. by destruct H2.
  - done.
  - exfalso. destruct (Simulation.cells sim); [by apply elem_of_nil in Hin | done].
Qed.

(** C7, as stated, fails: a mapping with the right number of keys and a
    wrong name raises [KeyError] only after the cell's vector has been
    replaced by zeros, and the check, which asks whether a vector is
    present, then answers [True]. *)
Lemma C7_counterexample_wrong_key :
  dom ({[ "b" := vone ]} : gmap string val)
    ≠ list_to_set (InternalModel.get_node_names im_one_edge) ∧
  eval (Simulation.set_initial_conditions [0] {[ "b" := vone ]}) sim_fresh_cell
    = Raise KeyError ∧
  Simulation.simulation_ready sim_wrong_key = Ok true ∧
  eval Simulation.simulate_prepare sim_wrong_key = Ok (Some [vzero]).
Proof.
  split; [|split; [|split]].
  - intros H. assert ("b" ∈ dom ({[ "b" := vone ]} : gmap string val)) as Hb.
    { rewrite dom_singleton_L. by apply elem_of_singleton. }
    rewrite H in Hb. vm_compute in Hb. set_solver.
  - reflexivity.
  - reflexivity.
  - by apply (bool_decide_unpack _); vm_compute.
Qed.

Lemma set_IC_count_mismatch c im IC :
  Cell.IM c = Some im → size IC ≠ InternalModel.num_nodes im →
  Cell.set_IC IC c = (c, Ok (IC_count_mismatch (size IC) (InternalModel.num_nodes im))).
Proof.
  intros Him Hsz. unfold Cell.set_IC, mbind, st_bind, st_get. simpl.
  rewrite Him. by rewrite decide_False.
Qed.

Lemma set_IC_run c im IC :
  Cell.IM c = Some im → size IC = InternalModel.num_nodes im →
  Cell.set_IC IC c =
  let '(vec, r) := Cell.fill_IC im IC (size IC) (replicate (size IC) vzero) in
  (Cell.with_IC (Some vec) c, match r with Ok _ => Ok IC_stored | Raise e => Raise e end).
Proof.
  intros Him Hsz. unfold Cell.set_IC, mbind, st_bind, st_get. simpl.
  rewrite Him. rewrite decide_True by done.
  destruct (Cell.fill_IC im IC (size IC) _) as [vec [[]|e]]; reflexivity.
Qed.

Lemma set_initial_conditions_single sim cid c IC c' r :
  Simulation.cells sim !! cid = Some c →
  Cell.set_IC IC c = (c', r) →
  exec (Simulation.set_initial_conditions [cid] IC) sim
  = Simulation.with_cells <[cid := c']> sim.
Proof.
  intros Hc Hset. unfold exec, Simulation.set_initial_conditions.
  unfold mbind at 1 2, st_bind at 1 2, st_get, st_lift. simpl.
  unfold py_index. rewrite Hc. simpl.
  unfold mbind at 1 2, st_bind at 1 2, Simulation.on_cell. rewrite Hc, Hset.
  by destruct r.
Qed.

Lemma with_cells_insert_id sim cid c :
  Simulation.cells sim !! cid = Some c →
  Simulation.with_cells <[cid := c]> sim = sim.
Proof.
  intros Hc. destruct sim. unfold Simulation.with_cells. simpl in *.
  by rewrite list_insert_id.
Qed.

(** C7 (amended): for a cell with a model whose node names are distinct,
    (1) a mapping whose number of keys differs from the number of nodes is
    reported and leaves the cell as it was, so a cell that had no initial
    condition keeps none, the check answers [False] and [simulate] returns
    without integrating; (2) a mapping of the right size whose keys are not
    the node names raises [KeyError]; (3) a mapping whose keys are exactly
    the node names is stored as a vector in the model's node order. *)
Theorem C7_set_IC_checks_and_order (c : Cell.t) (im : InternalModel.t)
    (IC : gmap string val) :
  Cell.IM c = Some im →
  NoDup (InternalModel.get_node_names im) →
  (size IC ≠ InternalModel.num_nodes im →
     Cell.set_IC IC c
       = (c, Ok (IC_count_mismatch (size IC) (InternalModel.num_nodes im))) ∧
     ∀ sim cid, Simulation.cells sim !! cid = Some c → Cell.IC c = None →
       exec (Simulation.set_initial_conditions [cid] IC) sim = sim ∧
       Simulation.simulation_ready sim = Ok false ∧
       ∀ odeint depth times,
         Simulation.simulate odeint depth times sim = (sim, Ok None)) ∧
  (size IC = InternalModel.num_nodes im →
   dom IC ≠ list_to_set (InternalModel.get_node_names im) →
     eval (Cell.set_IC IC) c = Raise KeyError) ∧
  (dom IC = list_to_set (InternalModel.get_node_names im) →
     ∃ vec, Cell.set_IC IC c = (Cell.with_IC (Some vec) c, Ok IC_stored) ∧
            length vec = InternalModel.num_nodes im ∧
            ∀ i node, InternalModel.nodes im !! i = Some node →
                      vec !! i = IC !! Node.name node).
Proof.
  intros Him Hnd. split; [|split].
  - intros Hsz. pose proof (set_IC_count_mismatch c im IC Him Hsz) as Hset.
    split; [done|]. intros sim cid Hc Hic.
    assert (Simulation.simulation_ready sim = Ok false) as Hready.
    { eapply simulation_ready_missing_IC; [|done]. by eapply list_elem_of_lookup_2. }
    split; [|split; [done|]].
    + rewrite (set_initial_conditions_single _ _ _ _ _ _ Hc Hset).
      by apply with_cells_insert_id.
    + intros odeint depth times. unfold Simulation.simulate, Simulation.simulate_prepare.
      unfold mbind, st_bind, st_get, st_lift. by rewrite Hready.
  - intros Hsz Hne. unfold eval. rewrite (set_IC_run c im IC Him Hsz).
    pose proof (fill_loop_err im IC (seq 0 (size IC)) (replicate (size IC) vzero)) as Herr.
    rewrite Hsz in *. specialize (Herr (seq_nodes_defined im)
      (wrong_keys_miss_a_name im IC Hnd Hsz Hne)).
    unfold Cell.fill_IC.
    destruct (st_for _ _ _) as [vec r]. simpl in *. by rewrite Herr.
  - intros Hdom. pose proof (valid_keys_size im IC Hnd Hdom) as Hsz.
    exists (IC_entry im IC <$> seq 0 (InternalModel.num_nodes im)).
    rewrite (set_IC_run c im IC Him Hsz). unfold Cell.fill_IC. rewrite Hsz.
    rewrite (fill_loop_ok im IC _ _ (valid_keys_all_found im IC Hdom)).
    pose proof (foldl_insert_all (IC_entry im IC)
                  (replicate (InternalModel.num_nodes im) vzero)) as Hfold.
    rewrite length_replicate in Hfold. rewrite Hfold.
    split; [done|]. split; [by rewrite length_fmap, length_seq|].
    intros i node Hn. rewrite list_lookup_fmap.
    assert (i < InternalModel.num_nodes im) as Hi by (by eapply lookup_lt_Some).
    rewrite lookup_seq_lt by done. simpl. unfold IC_entry.
    rewrite node_names_lookup, Hn. simpl.
    pose proof (valid_keys_all_found im IC Hdom) as Hall.
    rewrite Forall_forall in Hall. destruct (Hall i) as (node' & Hn' & [v Hv]).
    { apply elem_of_seq. lia. }
    assert (node' = node) as -> by congruence. by rewrite Hv.
Qed.

Lemma C7_set_IC_checks_and_order_witness :
  (Cell.set_IC ∅ fresh_cell
     = (fresh_cell, Ok (IC_count_mismatch (size (∅ : gmap string val))
                          (InternalModel.num_nodes im_one_edge))) ∧
   Simulation.simulation_ready sim_fresh_cell = Ok false) ∧
  eval (Cell.set_IC {[ "b" := vone ]}) fresh_cell = Raise KeyError ∧
  ∃ vec, Cell.set_IC {[ "a" := vint 3 ]} fresh_cell
           = (Cell.with_IC (Some vec) fresh_cell, Ok IC_stored) ∧
         length vec = InternalModel.num_nodes im_one_edge ∧
         ∀ i node, InternalModel.nodes im_one_edge !! i = Some node →
                   vec !! i = ({[ "a" := vint 3 ]} : gmap string val) !! Node.name node.
Proof.
  assert (NoDup (InternalModel.get_node_names im_one_edge)) as Hnd.
  { vm_compute. apply NoDup_singleton. }
  split; [|split].
  - destruct (C7_set_IC_checks_and_order fresh_cell im_one_edge ∅ eq_refl Hnd)
      as (H1 & _ & _).
    destruct H1 as [Hset Hsim]; [by vm_compute|].
    split; [exact Hset|].
    destruct (Hsim sim_fresh_cell 0 eq_refl eq_refl) as (_ & Hready & _). exact Hready.
  - destruct (C7_set_IC_checks_and_order fresh_cell im_one_edge {[ "b" := vone ]}
                eq_refl Hnd) as (_ & H2 & _).
    apply H2; [by vm_compute|].
    intros H. assert ("b" ∈ dom ({[ "b" := vone ]} : gmap string val)) as Hb.
    { rewrite dom_singleton_L. by apply elem_of_singleton. }
    rewrite H in Hb. vm_compute in Hb. set_solver.
  - destruct (C7_set_IC_checks_and_order fresh_cell im_one_edge {[ "a" := vint 3 ]}
                eq_refl Hnd) as (_ & _ & H3).
    apply H3. rewrite dom_singleton_L. vm_compute. set_solver.
Defined.

(** ** Looking up the modifiers of a contribution *)

Lemma filterM_cons {A} (p : A → result bool) x l :
  filterM p (x :: l) = (b ← p x; ys ← filterM p l; Ok (if b : bool then x :: ys else ys)).
Proof. reflexivity. Qed.

(** The list comprehension of [Simulation.get_modifiers] reads [i.IM_id]
    for every interaction whose [to_edge] is the id asked for, and no
    interaction has that attribute. *)
Lemma get_modifiers_raises sim to_edge IM_id :
  Exists (λ i, Interaction.to_edge i = Some (TEdge to_edge)) (Simulation.interactions sim) →
  Simulation.get_modifiers sim to_edge IM_id = Raise AttributeError.
Proof.
  unfold Simulation.get_modifiers.
  induction (Simulation.interactions sim) as [|i l IH]; intros Hex.
  - by apply Exists_nil in Hex.
  - rewrite filterM_cons. case_decide as Hi; [reflexivity|].
    apply Exists_cons in Hex as [Hex|Hex]; [done|].
    by rewrite (IH Hex).
Qed.

Lemma get_modifiers_nil sim to_edge IM_id :
  Forall (λ i, Interaction.to_edge i ≠ Some (TEdge to_edge)) (Simulation.interactions sim) →
  Simulation.get_modifiers sim to_edge IM_id = Ok [].
Proof.
  unfold Simulation.get_modifiers.
  induction (Simulation.interactions sim) as [|i l IH]; intros Hall; [reflexivity|].
  apply Forall_cons in Hall as [Hi Hall]. rewrite filterM_cons.
  rewrite decide_False by done. by rewrite (IH Hall).
Qed.

(** So the lookup never returns a modifier: it raises or finds nothing. *)
Lemma get_modifiers_cases sim to_edge IM_id :
  Simulation.get_modifiers sim to_edge IM_id = Raise AttributeError ∨
  Simulation.get_modifiers sim to_edge IM_id = Ok [].
Proof.
  destruct (decide (Exists (λ i, Interaction.to_edge i = Some (TEdge to_edge))
                           (Simulation.interactions sim))) as [H|H].
  - left. by apply get_modifiers_raises.
  - right. apply get_modifiers_nil. apply Forall_forall. intros i Hi Hto.
    apply H, Exists_exists. eauto.
Qed.





(** ** The order in which modifiers are applied *)

Lemma vmul_comm a b : vmul a b = vmul b a.
Proof. destruct a, b; simpl; try done. f_equal. ring. Qed.

Lemma vmul_assoc a b c : vmul a (vmul b c) = vmul (vmul a b) c.
Proof. destruct a, b, c; simpl; try done. f_equal. ring. Qed.

Lemma vec_iop_same_length f a b :
  length b = length a → vec_iop f a b = Ok (zip_with f a b).
Proof. intros H. unfold vec_iop. by rewrite decide_True. Qed.

Lemma scale_by_nil resolve tag v : Simulation.scale_by resolve tag v [] = Ok v.
Proof. reflexivity. Qed.

Lemma scale_by_cons_tag resolve tag v m ms :
  contrib_mod_type m = Some tag →
  Simulation.scale_by resolve tag v (m :: ms)
  = (r ← resolve m; v' ← vec_iop vmul v r; Simulation.scale_by resolve tag v' ms).
Proof.
  intros H. unfold Simulation.scale_by. cbn [foldM]. rewrite decide_True by done.
  by destruct (resolve m).
Qed.

Lemma scale_by_cons_other resolve tag v m ms :
  contrib_mod_type m ≠ Some tag →
  Simulation.scale_by resolve tag v (m :: ms) = Simulation.scale_by resolve tag v ms.
Proof.
  intros H. unfold Simulation.scale_by. cbn [foldM]. by rewrite decide_False.
Qed.

(** With no interaction aimed at the id of an edge, the internal branch is
    this pipeline: the source column, scaled by the internal-type modifiers
    of the model, goes through the edge's term, and the outcome is scaled by
    the multiplicative ones. *)
Lemma resolve_internal_same_model depth sim e ycurrent IM_id im :
  Simulation.IMs sim !! IM_id = Some im →
  Forall (λ i, Interaction.to_edge i ≠ Some (TEdge (Edge.edge_id e)))
         (Simulation.interactions sim) →
  Simulation.resolve_contribution (S depth) sim (Internal e) ycurrent IM_id =
    (let resolve mod_ := Simulation.resolve_contribution depth sim mod_ ycurrent IM_id in
     let mods := Internal <$> InternalModel.get_modifiers im (Edge.edge_id e) in
     from_node ← InternalModel.get_node_id im (Edge.from_node e);
     yc ← py_index ycurrent IM_id;
     xcontrib ← column yc from_node;
     xcontrib ← Simulation.scale_by resolve "intern" xcontrib mods;
     ycontrib ← Model.apply (Edge.model_ e) xcontrib;
     Simulation.scale_by resolve "mult" ycontrib mods).
Proof.
  intros Him Hno. cbn [Simulation.resolve_contribution].
  assert (py_index (Simulation.IMs sim) IM_id = Ok im) as ->
    by (unfold py_index; by rewrite Him).
  cbn [mbind result_bind].
  rewrite (get_modifiers_nil _ _ _ Hno). cbn [mbind result_bind fmap list_fmap].
  by rewrite app_nil_r.
Qed.

(** An edge with one internal-type and one multiplicative modifier: the
    first scales the input of the term, the second its output. *)
Lemma internal_modifier_ordering depth sim e ycurrent IM_id im m1 m2 from yc x r1 r2 :
  Simulation.IMs sim !! IM_id = Some im →
  Forall (λ i, Interaction.to_edge i ≠ Some (TEdge (Edge.edge_id e)))
         (Simulation.interactions sim) →
  InternalModel.get_modifiers im (Edge.edge_id e) = [m1; m2] →
  Edge.mod_type m1 = Some "intern" →
  Edge.mod_type m2 = Some "mult" →
  InternalModel.get_node_id im (Edge.from_node e) = Ok from →
  ycurrent !! IM_id = Some yc →
  column yc from = Ok x →
  Simulation.resolve_contribution depth sim (Internal m1) ycurrent IM_id = Ok r1 →
  Simulation.resolve_contribution depth sim (Internal m2) ycurrent IM_id = Ok r2 →
  length r1 = length x →
  Simulation.resolve_contribution (S depth) sim (Internal e) ycurrent IM_id =
    (ycontrib ← Model.apply (Edge.model_ e) (zip_with vmul x r1);
     vec_iop vmul ycontrib r2).
Proof.
  intros Him Hno Hmods Ht1 Ht2 Hfrom Hyc Hx Hr1 Hr2 Hlen.
  rewrite (resolve_internal_same_model _ _ _ _ _ im) by done.
  cbv zeta. rewrite Hfrom, Hmods. unfold py_index. rewrite Hyc.
  cbn [mbind result_bind]. rewrite Hx. cbn [mbind result_bind].
  change (Internal <$> [m1; m2]) with [Internal m1; Internal m2].
  rewrite scale_by_cons_tag by (by rewrite <- Ht1).
  rewrite Hr1. cbn [mbind result_bind]. rewrite (vec_iop_same_length _ _ _ Hlen).
  cbn [mbind result_bind].
  rewrite scale_by_cons_other by (simpl; rewrite Ht2; discriminate).
  rewrite scale_by_nil. cbn [mbind result_bind].
  destruct (Model.apply (Edge.model_ e) (zip_with vmul x r1)) as [y|err]; [|reflexivity].
  cbn [mbind result_bind].
  rewrite scale_by_cons_other by (simpl; rewrite Ht1; discriminate).
  rewrite scale_by_cons_tag by (by rewrite <- Ht2).
  rewrite Hr2. cbn [mbind result_bind].
  destruct (vec_iop vmul y r2); [|reflexivity]. cbn [mbind result_bind].
  by rewrite scale_by_nil.
Qed.

(** Scaling the value of the multiplicative modifier by [k] scales the
    contribution by [k]. *)
Lemma multiplicative_modifier_linear (k : val) (y r : list val) :
  vec_iop vmul y (vmul k <$> r) = fmap (M := list) (vmul k) <$> vec_iop vmul y r.
Proof.
  unfold vec_iop. rewrite length_fmap. case_decide as Hlen.
  - simpl. f_equal. revert r Hlen. induction y as [|a y IH]; intros [|b r] Hlen; simpl; try done.
    f_equal; [|apply IH; simpl in Hlen; lia].
    by rewrite vmul_assoc, (vmul_comm a k), <- vmul_assoc.
  - destruct r as [|b [|??]]; simpl; try done. f_equal.
    rewrite <- list_fmap_compose. apply list_fmap_ext. intros _ a _. simpl.
    by rewrite vmul_assoc, (vmul_comm a k), <- vmul_assoc.
Qed.

(** The same factor on the internal-type modifier goes through the term:
    for a Hill activation the outcome is not the scaled outcome. *)
Lemma internal_modifier_not_linear :
  Model.apply (HillActivation false None (Some (vone, vone, vone))) (zip_with vmul [vone] [vint 3])
    = Ok [vfrac 3 4] ∧
  fmap (M := list) (vmul (vint 3))
    <$> Model.apply (HillActivation false None (Some (vone, vone, vone))) [vone]
    = Ok [vfrac 3 2].
Proof. split; by apply (bool_decide_unpack _); vm_compute. Qed.

(** The three statements on the edge [h -> a] of [im_modified]. *)
Lemma modified_edge_values :
  resolve_edge 10 (sim_modified vone vone) 0 ycurrent_modified 0 = Ok [vfrac 1 2] ∧
  resolve_edge 10 (sim_modified vone (vint 3)) 0 ycurrent_modified 0 = Ok [vfrac 3 2] ∧
  resolve_edge 10 (sim_modified (vint 3) vone) 0 ycurrent_modified 0 = Ok [vfrac 3 4].
Proof. repeat split; by apply (bool_decide_unpack _); vm_compute. Qed.


(** ** Diffusion *)














(** The numbers of that configuration: the pair at distance zero adds
    nothing, the rest is the inverse squared distance times the difference. *)
Lemma diffusion_overlap_values :
  (dist_pre ← Model.set_dist_pre (finite_positions positions_overlap);
   Model.Diffusion_apply (Some (Fin 1%Qc)) dist_pre (np_invert (all_connected 3))
     x_overlap (0, 3))
  = Ok [vint 3; vint 4; vint (-7)].
Proof. by apply (bool_decide_unpack _); vm_compute. Qed.

(** ** Bounds and the layout of the flattened vectors *)

Lemma foldl_app_join {A} (x : list A) (l : list (list A)) :
  foldl app x l = x ++ mjoin l.
Proof.
  revert x. induction l as [|y l IH]; intros x; simpl.
  - by rewrite app_nil_r.
  - rewrite IH. by rewrite <- app_assoc.
Qed.

Lemma reduce_append_join {A} (l : list (list A)) :
  l ≠ [] → reduce_append l = Ok (mjoin l).
Proof. destruct l as [|x l]; [done|]. intros _. simpl. by rewrite foldl_app_join. Qed.

Lemma join_lookup_offset {A} (ls : list (list A)) i l p :
  ls !! i = Some l → p < length l →
  mjoin ls !! (sum_list (length <$> take i ls) + p) = l !! p.
Proof.
  intros Hl Hp. destruct (lookup_lt_is_Some_2 l p Hp) as [x Hx].
  rewrite Hx. apply join_lookup_Some. eauto 10.
Qed.

Lemma length_row {A} (m : ndarray A) i : length (row m i) = ncols m.
Proof. unfold row. by rewrite length_fmap, length_seq. Qed.

Lemma rows_same_length {A} (m : ndarray A) :
  Forall (λ l, length l = ncols m) (row m <$> seq 0 (nrows m)).
Proof. apply Forall_fmap, Forall_forall. intros i _. apply length_row. Qed.

Lemma length_flatten {A} (m : ndarray A) : length (flatten m) = nrows m * ncols m.
Proof.
  unfold flatten. rewrite length_join.
  rewrite (sum_list_fmap_same (ncols m)) by apply rows_same_length.
  by rewrite length_fmap, length_seq.
Qed.

(** Row-major order: entry [(j, k)] sits at [j * ncols + k]. *)
Lemma flatten_lookup {A} (m : ndarray A) j k :
  j < nrows m → k < ncols m → flatten m !! (j * ncols m + k) = Some (cell m j k).
Proof.
  intros Hj Hk. unfold flatten.
  apply (join_lookup_Some_same_length' (ncols m)); [apply rows_same_length|done|].
  exists (row m j). split.
  - rewrite list_lookup_fmap, lookup_seq_lt by done. reflexivity.
  - unfold row. rewrite list_lookup_fmap, lookup_seq_lt by done. reflexivity.
Qed.

Lemma prefix_sum_S l i n :
  l !! i = Some n → prefix_sum l (S i) = prefix_sum l i + n.
Proof.
  intros Hi. unfold prefix_sum. rewrite (take_S_r _ _ _ Hi), sum_list_with_app.
  simpl. lia.
Qed.

Lemma prefix_sum_all l i : length l ≤ i → prefix_sum l i = sum_list l.
Proof. intros Hi. unfold prefix_sum. by rewrite take_ge. Qed.

Lemma prefix_sum_0 l : prefix_sum l 0 = 0.
Proof. reflexivity. Qed.

(** The loop of [set_cell_bounds]: a running lower bound. *)
Lemma cell_bounds_loop bounds low ncells :
  foldl (λ '(bounds, low) n, (bounds ++ [(low, n + low)], low + n)) (bounds, low) ncells
  = (bounds ++ ((λ i, (low + prefix_sum ncells i, low + prefix_sum ncells (S i)))
                  <$> seq 0 (length ncells)),
     low + sum_list ncells).
Proof.
  revert bounds low. induction ncells as [|n ncells IH]; intros bounds low.
  - simpl. by rewrite app_nil_r, Nat.add_0_r.
  - cbn [foldl]. rewrite IH. cbn [length seq fmap list_fmap]. f_equal.
    + rewrite <- app_assoc. cbn [app]. do 2 f_equal.
      * unfold prefix_sum. simpl. f_equal; lia.
      * rewrite <- (fmap_S_seq 0). change (list_fmap ?A ?B ?f ?l) with (f <$> l).
        rewrite <- list_fmap_compose. apply list_fmap_ext. intros _ i _.
        unfold prefix_sum. simpl. f_equal; lia.
    + simpl. lia.
Qed.

Lemma cell_bounds_closed ncells :
  Simulation.cell_bounds ncells
  = (λ i, (prefix_sum ncells i, prefix_sum ncells (S i))) <$> seq 0 (length ncells).
Proof. unfold Simulation.cell_bounds. by rewrite cell_bounds_loop. Qed.

Lemma cell_bounds_lookup ncells i n :
  ncells !! i = Some n →
  Simulation.cell_bounds ncells !! i = Some (prefix_sum ncells i, prefix_sum ncells i + n).
Proof.
  intros Hi. rewrite cell_bounds_closed, list_lookup_fmap.
  rewrite lookup_seq_lt by (by eapply lookup_lt_Some). simpl.
  by rewrite (prefix_sum_S _ _ _ Hi).
Qed.

(** The running sum of [deriv]: after [k] steps the first [k + 1] entries
    are prefix sums and the rest is untouched. *)
Lemma flat_bounds_loop sizes k :
  k ≤ length sizes →
  foldl (λ bounds i, <[i := bounds !!! i + bounds !!! (i - 1)]> bounds)
        (0 :: sizes) (seq 1 k)
  = (prefix_sum sizes <$> seq 0 (S k)) ++ drop k sizes.
Proof.
  induction k as [|k IH]; intros Hk.
  - simpl. by rewrite drop_0.
  - rewrite seq_S, foldl_snoc, IH by lia. clear IH.
    destruct (lookup_lt_is_Some_2 sizes k) as [n Hn]; [lia|].
    replace (1 + k - 1) with k by lia. change (1 + k) with (S k).
    set (P := prefix_sum sizes <$> seq 0 (S k)).
    assert (length P = S k) as HP by (unfold P; by rewrite length_fmap, length_seq).
    assert ((P ++ drop k sizes) !!! S k = n) as ->.
    { apply list_lookup_total_correct. rewrite lookup_app_r by lia.
      rewrite HP, Nat.sub_diag, lookup_drop, Nat.add_0_r. done. }
    assert ((P ++ drop k sizes) !!! k = prefix_sum sizes k) as ->.
    { apply list_lookup_total_correct. rewrite lookup_app_l by lia.
      unfold P. rewrite list_lookup_fmap, lookup_seq_lt by lia. done. }
    rewrite insert_app_r_alt by lia. rewrite HP, Nat.sub_diag.
    rewrite (drop_S _ _ _ Hn). cbn [insert list_insert].
    rewrite (seq_S (S k)), fmap_app. cbn [fmap list_fmap]. fold P.
    rewrite <- app_assoc. cbn [app]. do 2 f_equal.
    change (0 + S k) with (S k). rewrite (prefix_sum_S _ _ _ Hn). lia.
Qed.

Lemma flat_bounds_closed dims :
  Simulation.flat_bounds dims
  = prefix_sum (group_sizes dims) <$> seq 0 (S (length dims)).
Proof.
  unfold Simulation.flat_bounds. fold (group_sizes dims).
  cbn [length]. rewrite Nat.sub_succ, Nat.sub_0_r.
  rewrite flat_bounds_loop by done.
  rewrite drop_all, app_nil_r. unfold group_sizes. by rewrite length_fmap.
Qed.

Lemma flat_bounds_lookup dims i :
  i ≤ length dims →
  Simulation.flat_bounds dims !! i = Some (prefix_sum (group_sizes dims) i).
Proof.
  intros Hi. rewrite flat_bounds_closed, list_lookup_fmap, lookup_seq_lt by lia. done.
Qed.

Lemma tiles_prefix_sums l k m :
  k + m ≤ length l →
  tiles (prefix_sum l k)
        ((λ i, (prefix_sum l i, prefix_sum l (S i))) <$> seq k m)
        (prefix_sum l (k + m)).
Proof.
  revert k. induction m as [|m IH]; intros k Hk; simpl.
  - by rewrite Nat.add_0_r.
  - split; [done|]. split.
    + destruct (lookup_lt_is_Some_2 l k) as [n Hn]; [lia|].
      rewrite (prefix_sum_S _ _ _ Hn). lia.
    + replace (k + S m) with (S k + m) by lia. apply IH. lia.
Qed.

(** The bounds of [set_cell_bounds] tile the cell positions: group [i]
    gets as many positions as it has cells. *)
Lemma cell_bounds_tile ncells :
  tiles 0 (Simulation.cell_bounds ncells) (sum_list ncells).
Proof.
  rewrite cell_bounds_closed.
  pose proof (tiles_prefix_sums ncells 0 (length ncells)) as H.
  rewrite prefix_sum_0 in H. simpl in H. rewrite prefix_sum_all in H by done.
  by apply H.
Qed.

Lemma flat_ranges_closed dims :
  flat_ranges dims
  = (λ i, (prefix_sum (group_sizes dims) i, prefix_sum (group_sizes dims) (S i)))
      <$> seq 0 (length dims).
Proof.
  unfold flat_ranges. apply list_fmap_ext. intros k i Hi.
  apply lookup_seq in Hi as [-> Hi]. change (0 + k) with k.
  assert (k ≤ length dims) as H1 by lia. assert (k + 1 ≤ length dims) as H2 by lia.
  rewrite (list_lookup_total_correct _ _ _ (flat_bounds_lookup dims _ H1)).
  rewrite (list_lookup_total_correct _ _ _ (flat_bounds_lookup dims _ H2)).
  by rewrite Nat.add_1_r.
Qed.

(** The slices of [deriv] tile the flattened vector: group [i] gets cells
    times species entries. *)
Lemma flat_ranges_tile dims :
  tiles 0 (flat_ranges dims) (sum_list (group_sizes dims)).
Proof.
  rewrite flat_ranges_closed.
  assert (length (group_sizes dims) = length dims) as Hlen
    by (unfold group_sizes; by rewrite length_fmap).
  pose proof (tiles_prefix_sums (group_sizes dims) 0 (length dims)) as H.
  rewrite prefix_sum_0 in H. simpl in H.
  rewrite prefix_sum_all in H by lia. apply H. lia.
Qed.

Lemma flat_ranges_lookup dims i n s :
  dims !! i = Some (n, s) →
  flat_ranges dims !! i
  = Some (prefix_sum (group_sizes dims) i, prefix_sum (group_sizes dims) i + n * s).
Proof.
  intros Hd. rewrite flat_ranges_closed, list_lookup_fmap.
  rewrite lookup_seq_lt by (by eapply lookup_lt_Some). simpl. do 2 f_equal.
  apply prefix_sum_S. unfold group_sizes. by rewrite list_lookup_fmap, Hd.
Qed.

(** ** The shape of the data in [deriv] *)

Lemma IM_dims_spec sim dims :
  Simulation.IM_dims sim = Ok dims →
  length dims = length (Simulation.IMs sim) ∧
  ∀ i n s, dims !! i = Some (n, s) ↔
    ∃ cs im, Simulation.IM_cells sim !! i = Some cs ∧ Simulation.IMs sim !! i = Some im ∧
             n = length cs ∧ s = InternalModel.num_nodes im.
Proof.
  unfold Simulation.IM_dims. intros H. inv_bind H. injection H as <-.
  pose proof (mapM'_length _ _ _ Ha) as Hlen. rewrite length_seq in Hlen.
  apply mapM'_Forall2 in Ha. split.
  - rewrite length_zip_with, length_fmap. lia.
  - intros i n s. rewrite lookup_zip_with_Some. split.
    + intros (n' & s' & [= -> ->] & Hn & Hs).
      rewrite list_lookup_fmap in Hs.
      destruct (Simulation.IMs sim !! i) as [im|] eqn:Him; [|done]. injection Hs as <-.
      destruct (Forall2_lookup_r _ _ _ _ _ Ha Hn) as (i' & Hi' & Hf).
      apply lookup_seq in Hi' as [-> _]. simpl in Hf. inv_bind Hf.
      injection Hf as <-. apply py_index_Ok in Ha0. eauto 10.
    + intros (cs & im & Hcs & Him & -> & ->).
      exists (length cs), (InternalModel.num_nodes im). split; [done|]. split.
      * assert (seq 0 (length (Simulation.IMs sim)) !! i = Some i) as Hi.
        { apply lookup_seq. split; [done|]. by eapply lookup_lt_Some. }
        destruct (Forall2_lookup_l _ _ _ _ _ Ha Hi) as (n' & Hn' & Hf).
        simpl in Hf. inv_bind Hf. injection Hf as <-.
        apply py_index_Ok in Ha0. by simplify_eq.
      * by rewrite list_lookup_fmap, Him.
Qed.

Lemma slice_lookup_total (y : list val) lo hi p :
  p < length (slice y lo hi) → slice y lo hi !!! p = y !!! (lo + p).
Proof.
  unfold slice. intros Hp. rewrite length_take in Hp.
  rewrite lookup_total_take_lt by lia. apply lookup_total_drop.
Qed.

(** The state handed to [deriv] is read group after group, cell after cell
    of the group, species after species of the cell. *)
Lemma unflatten_spec dims y ycurrent :
  Simulation.unflatten dims (Simulation.flat_bounds dims) y = Ok ycurrent →
  length ycurrent = length dims ∧
  ∀ i n s, dims !! i = Some (n, s) →
    ∃ m, ycurrent !! i = Some m ∧ shape m = (n, s) ∧
         ∀ j k, j < n → k < s →
           cell m j k = y !!! (prefix_sum (group_sizes dims) i + j * s + k).
Proof.
  unfold Simulation.unflatten. intros H.
  pose proof (mapM'_length _ _ _ H) as Hlen. rewrite length_seq in Hlen.
  split; [done|]. intros i n s Hi.
  assert (i < length dims) as Hlt by (by eapply lookup_lt_Some).
  assert (seq 0 (length dims) !! i = Some i) as Hseq by (by apply lookup_seq).
  destruct (mapM'_lookup _ _ _ _ _ H Hseq) as (m & Hm & Hf).
  exists m. split; [done|]. simpl in Hf. inv_bind Hf. destruct a as [r c].
  inv_bind Hf.
  apply py_index_Ok in Ha, Ha0, Ha1. rewrite Hi in Ha. injection Ha as <- <-.
  rewrite flat_bounds_lookup in Ha0, Ha1 by lia.
  injection Ha0 as <-. injection Ha1 as <-.
  unfold reshape in Hf. case_decide as Hsz; [|done]. injection Hf as <-.
  split; [done|]. intros j k Hj Hk. cbn [cell].
  rewrite slice_lookup_total by (rewrite Hsz; nia). f_equal. lia.
Qed.

(** ** The length of a resolved contribution *)

Lemma vec_iop_Ok f a b c :
  vec_iop f a b = Ok c →
  length c = length a ∧
  ((length b = length a ∧ c = zip_with f a b) ∨
   (length b ≠ length a ∧ ∃ y, b = [y] ∧ c = (λ x, f x y) <$> a)).
Proof.
  unfold vec_iop. case_decide as Hlen.
  - intros [= <-]. split; [|by left]. rewrite length_zip_with. lia.
  - destruct b as [|y [|??]]; [done| |done]. intros [= <-].
    split; [by rewrite length_fmap|]. right. eauto.
Qed.

Lemma vec_iop_length f a b c : vec_iop f a b = Ok c → length c = length a.
Proof. intros H. by apply vec_iop_Ok in H as [? _]. Qed.

Lemma scale_by_length resolve tag v mods v' :
  Simulation.scale_by resolve tag v mods = Ok v' → length v' = length v.
Proof.
  unfold Simulation.scale_by. intros H.
  apply (foldM_ind _ (λ _ w, length w = length v) _ _ _ eq_refl) in H; [done|].
  intros i m w w' _ Hw Hstep. case_decide.
  - inv_bind Hstep. apply vec_iop_length in Hstep. congruence.
  - by injection Hstep as <-.
Qed.

Lemma apply_length m x y : Model.apply m x = Ok y → length y = length x.
Proof.
  destruct m; simpl; intros H; inv_bind H;
    try (injection H as <-; by rewrite ?length_fmap, ?length_replicate).
  - destruct a as [[C A] n]. apply mapM'_length in H. done.
  - destruct a as [[[D C] A] n]. apply mapM'_length in H. done.
  - done.
Qed.

Lemma column_length {A} (m : ndarray A) j v : column m j = Ok v → length v = nrows m.
Proof.
  unfold column. case_decide; [|done]. intros [= <-].
  by rewrite length_fmap, length_seq.
Qed.

Lemma resolve_length_internal depth sim e ycurrent i r m :
  Simulation.resolve_contribution depth sim (Internal e) ycurrent i = Ok r →
  ycurrent !! i = Some m → length r = nrows m.
Proof.
  destruct depth as [|depth]; [done|]. cbn [Simulation.resolve_contribution].
  intros H Hm. inv_bind H. apply py_index_Ok in Ha2. rewrite Hm in Ha2. injection Ha2 as <-.
  apply scale_by_length in H. apply apply_length in Ha5.
  apply scale_by_length in Ha4. apply column_length in Ha3. congruence.
Qed.

Lemma bdim_left a b r : bdim a b = Some r → a ≠ 1 → r = a.
Proof. unfold bdim. repeat case_decide; intros [= <-]; congruence. Qed.

Lemma bdim_right a b r : bdim a b = Some r → b ≠ 1 → r = b.
Proof. unfold bdim. repeat case_decide; intros [= <-]; congruence. Qed.

Lemma length_sum_rows m : length (sum_rows m) = nrows m.
Proof. unfold sum_rows. by rewrite length_fmap, length_seq. Qed.

Lemma Diffusion_apply_length C dist_pre cmask x bounds r :
  Model.Diffusion_apply C dist_pre cmask x bounds = Ok r →
  nrows x ≠ 1 → length r = nrows x.
Proof.
  unfold Model.Diffusion_apply, Model.Diffusion_masked_contribs.
  destruct bounds as [lower upper]. intros H Hx.
  apply bind_Ok in H as (masked & H & [= <-]). rewrite length_sum_rows.
  apply bind_Ok in H as (d & Hd & H).
  apply bind_Ok in H as (C' & _ & H).
  apply bind_Ok in H as (diff_contribs & Hdiff & H).
  unfold mat_vec_op in Hd. destruct (bdim _ _) as [c|] eqn:Hc in Hd; [|done].
  injection Hd as <-. apply bdim_left in Hc; [|done]. cbn [ncols np_transpose] in Hc.
  unfold mat_op in Hdiff. cbn [nrows ncols np_transpose] in Hdiff.
  destruct (bdim _ c) as [r|] eqn:Hr in Hdiff; [|done].
  destruct (bdim _ _) as [c'|] in Hdiff; [|done]. injection Hdiff as <-.
  apply bdim_right in Hr; [|congruence].
  unfold ma_filled in H. apply bind_Ok in H as (mask & _ & [= <-]). cbn [nrows].
  congruence.
Qed.

Lemma resolve_length_external depth sim x ycurrent i r cs :
  Simulation.resolve_contribution depth sim (External x) ycurrent i = Ok r →
  Simulation.IM_cells sim !! i = Some cs → length cs ≠ 1 → length r = length cs.
Proof.
  destruct depth as [|depth]; [done|]. cbn [Simulation.resolve_contribution].
  intros H Hcs Hne. inv_bind H. apply py_index_Ok in Ha1. rewrite Hcs in Ha1.
  injection Ha1 as <-. apply scale_by_length in H. rewrite H. clear H.
  assert (nrows a2 = length cs) as Hrows.
  { apply (foldM_ind _ (λ _ w, nrows w = length cs)) in Ha2; [done|done|].
    intros k m w w' _ Hw Hstep. case_decide; [done|]. by injection Hstep as <-. }
  destruct (Interaction.model_ x); try done. simpl in Ha4.
  apply Diffusion_apply_length in Ha4; congruence.
Qed.

(** ** Adding the contributions into the accumulators *)

Lemma column_iadd_Ok m j v m' :
  column_iadd m j v = Ok m' →
  j < ncols m ∧ shape m' = shape m ∧
  (∀ i k, k ≠ j → cell m' i k = cell m i k) ∧
  ((length v = nrows m ∧
    ∀ i, i < nrows m → cell m' i j = vadd (cell m i j) (v !!! i)) ∨
   (length v ≠ nrows m ∧ length v = 1)).
Proof.
  unfold column_iadd. intros H.
  apply bind_Ok in H as (old & Hold & H). apply bind_Ok in H as (new & Hnew & [= <-]).
  pose proof (column_length _ _ _ Hold) as Hlen.
  unfold column in Hold. case_decide as Hj; [|done]. injection Hold as <-.
  split; [done|]. split; [done|]. split.
  { intros i k Hk. cbn [cell]. by rewrite decide_False. }
  apply vec_iop_Ok in Hnew as [_ [[Hv ->]|[Hv (y & -> & _)]]].
  - left. rewrite Hlen in Hv. split; [done|]. intros i Hi. cbn [cell].
    rewrite decide_True by done. apply list_lookup_total_correct.
    rewrite lookup_zip_with, list_lookup_fmap, lookup_seq_lt by done. simpl.
    destruct (lookup_lt_is_Some_2 v i) as [w Hw]; [lia|].
    rewrite Hw. simpl. by rewrite (list_lookup_total_correct _ _ _ Hw).
  - right. rewrite Hlen in Hv. done.
Qed.

(** What one resolved contribution has for length: the number of cells of
    the group, whenever adding it into the accumulator succeeds. *)
Lemma resolved_length_in_column depth sim c ycurrent i r m cs yp k yp' :
  Simulation.resolve_contribution depth sim c ycurrent i = Ok r →
  ycurrent !! i = Some m → Simulation.IM_cells sim !! i = Some cs →
  nrows m = length cs → nrows yp = length cs →
  column_iadd yp k r = Ok yp' →
  length r = length cs.
Proof.
  intros Hr Hm Hcs Hrows Hyp Hadd. destruct c as [e|x].
  - rewrite (resolve_length_internal _ _ _ _ _ _ _ Hr Hm). done.
  - destruct (decide (length cs = 1)) as [H1|H1].
    + apply column_iadd_Ok in Hadd as (_ & _ & _ & [[Hlen _]|[_ Hlen]]); congruence.
    + by eapply resolve_length_external.
Qed.

Lemma accumulate_loop depth sim ycurrent i k m cs l yp yp' :
  ycurrent !! i = Some m → Simulation.IM_cells sim !! i = Some cs →
  nrows m = length cs → nrows yp = length cs →
  foldM (λ yp c,
      r ← Simulation.resolve_contribution depth sim c ycurrent i;
      column_iadd yp k r) yp l = Ok yp' →
  ∃ rs, mapM' (λ c, Simulation.resolve_contribution depth sim c ycurrent i) l = Ok rs ∧
        Forall (λ r, length r = length cs) rs ∧
        shape yp' = shape yp ∧
        (∀ j k', k' ≠ k → cell yp' j k' = cell yp j k') ∧
        (∀ j, j < length cs →
           cell yp' j k = foldl vadd (cell yp j k) ((λ r, r !!! j) <$> rs)).
Proof.
  intros Hm Hcs Hrows. revert yp. induction l as [|c l IH]; intros yp Hyp H.
  - injection H as <-. exists []. repeat split; constructor.
  - cbn [foldM] in H. apply bind_Ok in H as (yp1 & Hstep & H).
    apply bind_Ok in Hstep as (r & Hr & Hadd).
    pose proof (resolved_length_in_column _ _ _ _ _ _ _ _ _ _ _ Hr Hm Hcs Hrows Hyp Hadd)
      as Hlen.
    apply column_iadd_Ok in Hadd as (_ & Hshape & Hother & [[_ Hcol]|[Hne _]]);
      [|congruence].
    assert (nrows yp1 = length cs) as Hyp1.
    { unfold shape in Hshape. injection Hshape as -> _. done. }
    destruct (IH yp1 Hyp1 H) as (rs & Hrs & Hlens & Hshape' & Hother' & Hcol').
    exists (r :: rs). split; [|split; [|split; [|split]]].
    + cbn [mapM']. rewrite Hr. simpl. by rewrite Hrs.
    + by constructor.
    + congruence.
    + intros j k' Hk. rewrite Hother' by done. by apply Hother.
    + intros j Hj. rewrite Hcol' by done. cbn [fmap list_fmap foldl].
      rewrite Hcol by lia. done.
Qed.

Lemma accumulate_spec depth sim ycurrent i im yp k yp' m cs :
  ycurrent !! i = Some m → Simulation.IM_cells sim !! i = Some cs →
  nrows m = length cs → nrows yp = length cs →
  Simulation.accumulate depth sim ycurrent i im yp k = Ok yp' →
  k < InternalModel.num_nodes im ∧
  ∃ rs, mapM' (λ c, Simulation.resolve_contribution depth sim c ycurrent i)
              (contributions sim im k) = Ok rs ∧
        Forall (λ r, length r = length cs) rs ∧
        shape yp' = shape yp ∧
        (∀ j k', k' ≠ k → cell yp' j k' = cell yp j k') ∧
        (∀ j, j < length cs →
           cell yp' j k = foldl vadd (cell yp j k) ((λ r, r !!! j) <$> rs)).
Proof.
  intros Hm Hcs Hrows Hyp H. unfold Simulation.accumulate in H.
  apply bind_Ok in H as (cnode & Hnode & H). apply py_index_Ok in Hnode.
  split.
  { apply lookup_lt_Some in Hnode. unfold InternalModel.get_node_names in Hnode.
    by rewrite length_fmap in Hnode. }
  unfold contributions. rewrite Hnode. by eapply accumulate_loop.
Qed.

(** The loop over the species of one group, started on zeros. *)
Lemma accumulate_species depth sim ycurrent i im m cs s yp' :
  ycurrent !! i = Some m → Simulation.IM_cells sim !! i = Some cs →
  nrows m = length cs →
  foldM (Simulation.accumulate depth sim ycurrent i im) (np_zeros (length cs) s)
        (seq 0 (InternalModel.num_nodes im)) = Ok yp' →
  shape yp' = (length cs, s) ∧
  ∀ k, k < InternalModel.num_nodes im →
       column_resolved depth sim ycurrent i im (length cs) yp' k.
Proof.
  intros Hm Hcs Hrows H.
  apply (foldM_ind _ (λ c yp,
           shape yp = (length cs, s) ∧
           (∀ k, k < c → column_resolved depth sim ycurrent i im (length cs) yp k) ∧
           (∀ k j, c ≤ k → cell yp j k = vzero))) in H.
  - rewrite length_seq in H. destruct H as (? & ? & _). done.
  - split; [done|]. split; [intros; lia | done].
  - intros c k yp yp1 Hk (Hshape & Hdone & Hzero) Hstep.
    apply lookup_seq in Hk as [-> Hk]. change (0 + c) with c in *.
    assert (nrows yp = length cs) as Hyp.
    { unfold shape in Hshape. by injection Hshape as -> _. }
    destruct (accumulate_spec _ _ _ _ _ _ _ _ _ _ Hm Hcs Hrows Hyp Hstep)
      as (_ & rs & Hrs & Hlens & Hshape' & Hother & Hcol).
    split; [congruence|]. split.
    + intros k Hlt. destruct (decide (k = c)) as [->|Hne].
      * exists rs. split; [done|]. split; [done|]. intros j Hj.
        rewrite Hcol by done. rewrite Hzero by done. done.
      * destruct (Hdone k) as (rs' & ? & ? & Hk'); [lia|].
        exists rs'. split; [done|]. split; [done|]. intros j Hj.
        rewrite Hother by done. by apply Hk'.
    + intros k j Hle. rewrite Hother by lia. apply Hzero. lia.
Qed.

(** The loop over the groups. *)
Lemma accumulate_groups depth sim y dims ycurrent yprime :
  Simulation.IM_dims sim = Ok dims →
  Simulation.unflatten dims (Simulation.flat_bounds dims) y = Ok ycurrent →
  foldM (Simulation.accumulate_group depth sim ycurrent)
        ((λ '(r, c), np_zeros r c) <$> dims)
        (seq 0 (length (Simulation.IMs sim))) = Ok yprime →
  length yprime = length dims ∧
  ∀ i im n s, Simulation.IMs sim !! i = Some im → dims !! i = Some (n, s) →
    ∃ yp, yprime !! i = Some yp ∧ shape yp = (n, s) ∧
          ∀ k, k < s → column_resolved depth sim ycurrent i im n yp k.
Proof.
  intros Hdims Hyc H.
  destruct (IM_dims_spec _ _ Hdims) as [Hlen Hdim].
  destruct (unflatten_spec _ _ _ Hyc) as [_ Hcur].
  set (yprime0 := (λ '(r, c), np_zeros r c) <$> dims) in *.
  apply (foldM_ind _ (λ g yprime,
           length yprime = length dims ∧
           (∀ i im n s, i < g → Simulation.IMs sim !! i = Some im →
              dims !! i = Some (n, s) →
              ∃ yp, yprime !! i = Some yp ∧ shape yp = (n, s) ∧
                    ∀ k, k < s → column_resolved depth sim ycurrent i im n yp k) ∧
           (∀ i, g ≤ i → yprime !! i = yprime0 !! i))) in H.
  - rewrite length_seq in H. destruct H as (? & Hall & _). split; [done|].
    intros i im n s Him Hd. apply (Hall i im n s); [by eapply lookup_lt_Some|done|done].
  - split; [by unfold yprime0; rewrite length_fmap|]. split; [intros; lia | done].
  - intros g g' yprime1 yprime2 Hg (Hlen1 & Hdone & Hrest) Hstep.
    apply lookup_seq in Hg as [-> Hg]. change (0 + g) with g in *.
    unfold Simulation.accumulate_group in Hstep.
    apply bind_Ok in Hstep as (im & Him & Hstep). apply py_index_Ok in Him.
    apply bind_Ok in Hstep as (yp & Hyp & Hstep). apply py_index_Ok in Hyp.
    apply bind_Ok in Hstep as (yp' & Hloop & [= <-]).
    destruct (lookup_lt_is_Some_2 dims g) as [[n s] Hd]; [lia|].
    pose proof Hd as Hd'. apply Hdim in Hd' as (cs & im' & Hcs & Him' & -> & ->).
    assert (im' = im) as -> by congruence.
    destruct (Hcur _ _ _ Hd) as (m & Hm & Hshape & _).
    rewrite (Hrest g) in Hyp by done. unfold yprime0 in Hyp.
    rewrite list_lookup_fmap, Hd in Hyp. injection Hyp as <-.
    assert (nrows m = length cs) as Hrows.
    { unfold shape in Hshape. by injection Hshape as -> _. }
    destruct (accumulate_species _ _ _ _ _ _ _ _ _ Hm Hcs Hrows Hloop) as [Hshape' Hcols].
    split; [by rewrite length_insert|]. split.
    + intros i im2 n s Hi Him2 Hd2. destruct (decide (i = g)) as [->|Hne].
      * assert (im2 = im) as -> by congruence.
        rewrite Hd in Hd2. injection Hd2 as <- <-.
        exists yp'. split; [|done]. apply list_lookup_insert_eq. lia.
      * rewrite list_lookup_insert_ne by done.
        apply (Hdone i im2 n s); [lia|done|done].
    + intros i Hi. rewrite list_lookup_insert_ne by lia. apply Hrest. lia.
Qed.

Lemma take_fmap_lengths {A} (ls : list (list A)) (sizes : list nat) i :
  length <$> ls = sizes →
  sum_list (length <$> take i ls) = prefix_sum sizes i.
Proof. intros <-. unfold prefix_sum. by rewrite fmap_take. Qed.

(** The derivative assembly: the state is read, and the derivative written,
    group after group, cell after cell, species after species; the entry
    of cell [j] and species [k] of group [i] is the sum of the contributions
    to that species, resolved for the group. *)
Lemma deriv_assembly depth sim y t out :
  Simulation.deriv depth sim y t = Ok out →
  ∃ dims ycurrent,
    Simulation.IM_dims sim = Ok dims ∧
    Simulation.unflatten dims (Simulation.flat_bounds dims) y = Ok ycurrent ∧
    length out = sum_list (group_sizes dims) ∧
    ∀ i im n s, Simulation.IMs sim !! i = Some im → dims !! i = Some (n, s) →
      ∀ k, k < s →
        ∃ rs, mapM' (λ c, Simulation.resolve_contribution depth sim c ycurrent i)
                    (contributions sim im k) = Ok rs ∧
              Forall (λ r, length r = n) rs ∧
              ∀ j, j < n →
                out !! (prefix_sum (group_sizes dims) i + j * s + k)
                = Some (column_sum rs j).
Proof.
  unfold Simulation.deriv. intros H.
  apply bind_Ok in H as (dims & Hdims & H).
  apply bind_Ok in H as (ycurrent & Hyc & H).
  apply bind_Ok in H as (yprime & Hloop & H).
  exists dims, ycurrent. split; [done|]. split; [done|].
  destruct (accumulate_groups _ _ _ _ _ _ Hdims Hyc Hloop) as [Hlen Hgroups].
  destruct (IM_dims_spec _ _ Hdims) as [Hlen' _].
  assert (length <$> (flatten <$> yprime) = group_sizes dims) as Hsizes.
  { apply list_eq. intros i. unfold group_sizes. rewrite !list_lookup_fmap.
    destruct (dims !! i) as [[n s]|] eqn:Hd.
    - destruct (lookup_lt_is_Some_2 (Simulation.IMs sim) i) as [im Him].
      { apply lookup_lt_Some in Hd. lia. }
      destruct (Hgroups _ _ _ _ Him Hd) as (yp & -> & Hshape & _). simpl.
      rewrite length_flatten. unfold shape in Hshape. by injection Hshape as -> ->.
    - apply lookup_ge_None in Hd. rewrite lookup_ge_None_2 by lia. done. }
  assert (out = mjoin (flatten <$> yprime)) as ->.
  { destruct yprime as [|yp yprime]; [done|]. simpl in H. injection H as <-.
    by rewrite foldl_app_join. }
  split; [by rewrite length_join, Hsizes|].
  intros i im n s Him Hd k Hk.
  destruct (Hgroups _ _ _ _ Him Hd) as (yp & Hyp & Hshape & Hcols).
  destruct (Hcols k Hk) as (rs & Hrs & Hlens & Hcol).
  exists rs. split; [done|]. split; [done|]. intros j Hj.
  unfold shape in Hshape. injection Hshape as Hn Hs.
  rewrite <- Nat.add_assoc, <- (take_fmap_lengths (flatten <$> yprime)) by done.
  rewrite (join_lookup_offset _ i (flatten yp)).
  - rewrite <- Hs. rewrite flatten_lookup by lia. f_equal. by apply Hcol.
  - by rewrite list_lookup_fmap, Hyp.
  - rewrite length_flatten. nia.
Qed.

(** ** The layout of the initial state *)

Lemma initial_row_length sim s cid rowv :
  Simulation.initial_row sim s cid = Ok rowv → length rowv = s.
Proof.
  unfold Simulation.initial_row. intros H. apply bind_Ok in H as (c & _ & H).
  destruct (Cell.IC c) as [ic|]; [|done]. case_decide; [by injection H as <-|].
  destruct ic as [|v [|??]]; [done| |done]. injection H as <-. apply length_replicate.
Qed.

Lemma initial_row_IC sim s cid c ic :
  Simulation.cells sim !! cid = Some c → Cell.IC c = Some ic → length ic = s →
  Simulation.initial_row sim s cid = Ok ic.
Proof.
  intros Hc Hic Hlen. unfold Simulation.initial_row, py_index. rewrite Hc. simpl.
  rewrite Hic. by rewrite decide_True.
Qed.

(** One group of the initial state: the rows of its cells, in the order of
    the group's list of cells. *)
Lemma initial_group_layout sim s cs rows :
  mapM' (Simulation.initial_row sim s) cs = Ok rows →
  length (mjoin rows) = length cs * s ∧
  ∀ j cid, cs !! j = Some cid →
    ∃ rowv, Simulation.initial_row sim s cid = Ok rowv ∧
            ∀ k, k < s → mjoin rows !! (j * s + k) = rowv !! k.
Proof.
  intros H. pose proof (mapM'_length _ _ _ H) as Hlen.
  assert (Forall (λ l, length l = s) rows) as Hall.
  { apply mapM'_Forall2 in H. apply Forall_forall. intros r Hr.
    apply list_elem_of_lookup in Hr as [j Hj].
    destruct (Forall2_lookup_r _ _ _ _ _ H Hj) as (cid & _ & Hrow).
    by eapply initial_row_length. }
  split.
  - rewrite length_join, (sum_list_fmap_same s) by done. by rewrite Hlen.
  - intros j cid Hcid. destruct (mapM'_lookup _ _ _ _ _ H Hcid) as (rowv & Hrowv & Hrow).
    exists rowv. split; [done|]. intros k Hk.
    assert (length rowv = s) as Hs by (by eapply initial_row_length).
    destruct (lookup_lt_is_Some_2 rowv k) as [v Hv]; [lia|]. rewrite Hv.
    apply (join_lookup_Some_same_length' s); [done|done|]. eauto.
Qed.

Lemma initial_state_layout sim dims y0 :
  Simulation.IM_dims sim = Ok dims →
  Simulation.initial_state sim = Ok y0 →
  length y0 = sum_list (group_sizes dims) ∧
  ∀ i cs im j cid,
    Simulation.IM_cells sim !! i = Some cs → Simulation.IMs sim !! i = Some im →
    cs !! j = Some cid →
    ∃ rowv, Simulation.initial_row sim (InternalModel.num_nodes im) cid = Ok rowv ∧
            ∀ k, k < InternalModel.num_nodes im →
              y0 !! (prefix_sum (group_sizes dims) i + j * InternalModel.num_nodes im + k)
              = rowv !! k.
Proof.
  intros Hdims H. destruct (IM_dims_spec _ _ Hdims) as [Hlen Hdim].
  unfold Simulation.initial_state in H. apply bind_Ok in H as (yinitial & Hmap & Hred).
  pose proof (mapM'_length _ _ _ Hmap) as Hlen'. rewrite length_seq in Hlen'.
  assert (∀ i cs im, Simulation.IM_cells sim !! i = Some cs →
            Simulation.IMs sim !! i = Some im →
            ∃ rows, yinitial !! i = Some (mjoin rows) ∧
                    mapM' (Simulation.initial_row sim (InternalModel.num_nodes im)) cs
                    = Ok rows) as Hgroup.
  { intros i cs im Hcs Him.
    assert (seq 0 (length (Simulation.IMs sim)) !! i = Some i) as Hi.
    { apply lookup_seq. split; [done|]. by eapply lookup_lt_Some. }
    destruct (mapM'_lookup _ _ _ _ _ Hmap Hi) as (yi & Hyi & Hg). simpl in Hg.
    apply bind_Ok in Hg as (cs' & Hcs' & Hg). apply py_index_Ok in Hcs'.
    apply bind_Ok in Hg as (im' & Him' & Hg). apply py_index_Ok in Him'.
    apply bind_Ok in Hg as (rows & Hrows & [= <-]). simplify_eq. eauto. }
  assert (length <$> yinitial = group_sizes dims) as Hsizes.
  { apply list_eq. intros i. unfold group_sizes. rewrite !list_lookup_fmap.
    destruct (dims !! i) as [[n s]|] eqn:Hd.
    - pose proof Hd as Hd'. apply Hdim in Hd' as (cs & im & Hcs & Him & -> & ->).
      destruct (Hgroup _ _ _ Hcs Him) as (rows & -> & Hrows). simpl.
      by destruct (initial_group_layout _ _ _ _ Hrows) as [-> _].
    - apply lookup_ge_None in Hd. rewrite lookup_ge_None_2 by lia. done. }
  assert (y0 = mjoin yinitial) as ->.
  { destruct yinitial as [|yi yinitial]; [done|]. simpl in Hred. injection Hred as <-.
    by rewrite foldl_app_join. }
  split; [by rewrite length_join, Hsizes|].
  intros i cs im j cid Hcs Him Hcid.
  destruct (Hgroup _ _ _ Hcs Him) as (rows & Hyi & Hrows).
  destruct (initial_group_layout _ _ _ _ Hrows) as [Hlenyi Hlook].
  destruct (Hlook _ _ Hcid) as (rowv & Hrowv & Hk).
  exists rowv. split; [done|]. intros k Hlt.
  rewrite <- Nat.add_assoc, <- (take_fmap_lengths yinitial) by done.
  rewrite (join_lookup_offset _ i (mjoin rows)) by
    (done || (rewrite Hlenyi; apply lookup_lt_Some in Hcid; nia)).
  by apply Hk.
Qed.

Lemma set_cell_bounds_bounds sim :
  Simulation.IM_bounds (exec Simulation.set_cell_bounds sim)
  = Simulation.cell_bounds (length <$> Simulation.IM_cells sim).
Proof. reflexivity. Qed.

(** C1, as stated, fails: the bounds computed before integration count
    cells, not state entries.  With one cell of three species and two cells
    of one species they are [(0,1)] and [(1,3)], while the flattened vector
    has five entries. *)
Lemma C1_counterexample_bounds_count_cells :
  ¬ cell_bounds_tile_flat_vector sim_two_groups.
Proof.
  intros H. specialize (H [(1, 3); (2, 1)] eq_refl).
  vm_compute in H. destruct H as (_ & _ & _ & _ & H). discriminate H.
Qed.

(** C1 (amended): the flattened state and derivative are laid out group
    after group in registration order, cell after cell in the order of the
    group's list of cells, species after species in the model's node order;
    group [i] occupies the slice that [deriv] computes, and these slices
    tile the vector, whose length is the sum over the groups of cells times
    species.  The bounds computed before integration tile the cell
    positions instead: group [i] gets as many positions as it has cells. *)
Theorem C1_layout_and_bounds (depth : nat) (sim : Simulation.t)
    (dims : list (nat * nat)) :
  Simulation.IM_dims sim = Ok dims →
  (tiles 0 (Simulation.IM_bounds (exec Simulation.set_cell_bounds sim))
         (sum_list (length <$> Simulation.IM_cells sim)) ∧
   ∀ i cs, Simulation.IM_cells sim !! i = Some cs →
     ∃ lo, Simulation.IM_bounds (exec Simulation.set_cell_bounds sim) !! i
           = Some (lo, lo + length cs)) ∧
  (tiles 0 (flat_ranges dims) (sum_list (group_sizes dims)) ∧
   ∀ i n s, dims !! i = Some (n, s) →
     flat_ranges dims !! i
     = Some (prefix_sum (group_sizes dims) i, prefix_sum (group_sizes dims) i + n * s)) ∧
  (∀ y0, Simulation.initial_state sim = Ok y0 →
     length y0 = sum_list (group_sizes dims) ∧
     ∀ i cs im j cid c ic k,
       Simulation.IM_cells sim !! i = Some cs → Simulation.IMs sim !! i = Some im →
       cs !! j = Some cid → Simulation.cells sim !! cid = Some c →
       Cell.IC c = Some ic → length ic = InternalModel.num_nodes im →
       k < InternalModel.num_nodes im →
       y0 !! (prefix_sum (group_sizes dims) i + j * InternalModel.num_nodes im + k)
       = ic !! k) ∧
  (∀ y t out, Simulation.deriv depth sim y t = Ok out →
     length out = sum_list (group_sizes dims) ∧
     ∃ ycurrent,
       Simulation.unflatten dims (Simulation.flat_bounds dims) y = Ok ycurrent ∧
       ∀ i im n s, Simulation.IMs sim !! i = Some im → dims !! i = Some (n, s) →
         (∃ m, ycurrent !! i = Some m ∧
               ∀ j k, j < n → k < s →
                 cell m j k = y !!! (prefix_sum (group_sizes dims) i + j * s + k)) ∧
         ∀ k, k < s →
           ∃ rs, mapM' (λ c, Simulation.resolve_contribution depth sim c ycurrent i)
                       (contributions sim im k) = Ok rs ∧
                 ∀ j, j < n →
                   out !! (prefix_sum (group_sizes dims) i + j * s + k)
                   = Some (column_sum rs j)).
Proof.
  intros Hdims. split; [|split; [|split]].
  - rewrite set_cell_bounds_bounds. split; [apply cell_bounds_tile|].
    intros i cs Hcs. eexists. apply cell_bounds_lookup.
    by rewrite list_lookup_fmap, Hcs.
  - split; [apply flat_ranges_tile | apply flat_ranges_lookup].
  - intros y0 Hy0.
    destruct (initial_state_layout _ _ _ Hdims Hy0) as [Hlen Hlayout].
    split; [done|]. intros i cs im j cid c ic k Hcs Him Hcid Hc Hic Hlenic Hk.
    destruct (Hlayout _ _ _ _ _ Hcs Him Hcid) as (rowv & Hrow & Hlook).
    rewrite (initial_row_IC _ _ _ _ _ Hc Hic Hlenic) in Hrow. injection Hrow as <-.
    by apply Hlook.
  - intros y t out Hout.
    destruct (deriv_assembly _ _ _ _ _ Hout) as (dims' & ycurrent & Hdims' & Hyc & Hlen & Hent).
    rewrite Hdims in Hdims'. injection Hdims' as <-.
    split; [done|]. exists ycurrent. split; [done|].
    intros i im n s Him Hd. split.
    + destruct (unflatten_spec _ _ _ Hyc) as [_ Hcur].
      destruct (Hcur _ _ _ Hd) as (m & Hm & _ & Hcell). eauto.
    + intros k Hk. destruct (Hent _ _ _ _ Him Hd k Hk) as (rs & Hrs & _ & Hcol). eauto.
Qed.

Lemma C1_layout_and_bounds_witness :
  tiles 0 (Simulation.IM_bounds (exec Simulation.set_cell_bounds sim_two_groups)) 3 ∧
  tiles 0 (flat_ranges [(1, 3); (2, 1)]) 5 ∧
  [vzero; vone; vone; vint 7; vint 5] !! 3 = [vint 7] !! 0 ∧
  ∃ ycurrent rs,
    Simulation.unflatten [(1, 3); (2, 1)] (Simulation.flat_bounds [(1, 3); (2, 1)])
      [vzero; vone; vone; vint 7; vint 5] = Ok ycurrent ∧
    mapM' (λ c, Simulation.resolve_contribution 10 sim_two_groups c ycurrent 0)
          (contributions sim_two_groups (im_modified vone vone) 0) = Ok rs ∧
    [vfrac 1 2; vzero; vzero; vzero; vzero] !! 0 = Some (column_sum rs 0).
Proof.
  destruct (C1_layout_and_bounds 10 sim_two_groups [(1, 3); (2, 1)] eq_refl)
    as ((Hcells & _) & (Hflat & _) & Hinit & Hderiv).
  split; [exact Hcells|]. split; [exact Hflat|]. split.
  - destruct (Hinit [vzero; vone; vone; vint 7; vint 5]) as [_ Hlayout].
    { by apply (bool_decide_unpack _); vm_compute. }
    refine (Hlayout 1 [2; 1] im_species_a 0 2 _ [vint 7] 0 eq_refl eq_refl eq_refl _ _ _ _).
    + reflexivity.
    + reflexivity.
    + reflexivity.
    + vm_compute. lia.
  - destruct (Hderiv [vzero; vone; vone; vint 7; vint 5] vzero
                [vfrac 1 2; vzero; vzero; vzero; vzero]) as [_ (ycurrent & Hyc & Hent)].
    { by apply (bool_decide_unpack _); vm_compute. }
    assert (Simulation.IMs sim_two_groups !! 0 = Some (im_modified vone vone)) as Him
      by (vm_compute; reflexivity).
    destruct (Hent 0 (im_modified vone vone) 1 3 Him eq_refl) as [_ Hcols].
    destruct (Hcols 0) as (rs & Hrs & Hcol); [lia|].
    exists ycurrent, rs. split; [exact Hyc|]. split; [exact Hrs|]. apply (Hcol 0). lia.
Defined.

(** ** Interactions are matched to species by name *)

Lemma interaction_in_contributions sim im k N x :
  InternalModel.get_node_names im !! k = Some N →
  x ∈ Simulation.interactions sim →
  Interaction.to_node x = Some (TNode N) →
  ∃ p, contributions sim im k !! p = Some (External x).
Proof.
  intros Hk Hx Hto. unfold contributions. rewrite Hk.
  assert (x ∈ Simulation.get_contributions sim N) as Hin.
  { unfold Simulation.get_contributions. by apply list_elem_of_filter. }
  apply list_elem_of_lookup in Hin as [p Hp].
  exists (length (Internal <$> InternalModel.get_contributions im N) + p).
  rewrite lookup_app_r by lia.
  replace (_ + p - _) with p by lia. by rewrite list_lookup_fmap, Hp.
Qed.

(** C10: an interaction whose target is the node name [N] contributes to
    the species named [N] of every group whose model has a node of that
    name: in each such group its contribution, resolved for that group, is
    one of the terms added into the derivative of that species, for every
    cell of the group. *)
Theorem C10_interaction_matched_by_name (depth : nat) (sim : Simulation.t)
    (y : list val) (t : val) (out : list val) (x : Interaction.t) (N : string) :
  Simulation.deriv depth sim y t = Ok out →
  x ∈ Simulation.interactions sim →
  Interaction.to_node x = Some (TNode N) →
  ∃ dims ycurrent,
    Simulation.IM_dims sim = Ok dims ∧
    Simulation.unflatten dims (Simulation.flat_bounds dims) y = Ok ycurrent ∧
    ∀ i im n s k,
      Simulation.IMs sim !! i = Some im → dims !! i = Some (n, s) →
      InternalModel.get_node_names im !! k = Some N →
      ∃ rs p r,
        mapM' (λ c, Simulation.resolve_contribution depth sim c ycurrent i)
              (contributions sim im k) = Ok rs ∧
        contributions sim im k !! p = Some (External x) ∧
        rs !! p = Some r ∧
        Simulation.resolve_contribution depth sim (External x) ycurrent i = Ok r ∧
        ∀ j, j < n →
          out !! (prefix_sum (group_sizes dims) i + j * s + k) = Some (column_sum rs j).
Proof.
  intros Hout Hx Hto.
  destruct (deriv_assembly _ _ _ _ _ Hout) as (dims & ycurrent & Hdims & Hyc & _ & Hent).
  exists dims, ycurrent. split; [done|]. split; [done|].
  intros i im n s k Him Hd Hk.
  destruct (IM_dims_spec _ _ Hdims) as [_ Hdim].
  pose proof Hd as Hd'. apply Hdim in Hd' as (cs & im' & _ & Him' & -> & ->).
  assert (im' = im) as -> by congruence.
  assert (k < InternalModel.num_nodes im) as Hlt.
  { apply lookup_lt_Some in Hk. unfold InternalModel.get_node_names in Hk.
    by rewrite length_fmap in Hk. }
  destruct (Hent _ _ _ _ Him Hd k Hlt) as (rs & Hrs & _ & Hcol).
  destruct (interaction_in_contributions sim im k N x Hk Hx Hto) as [p Hp].
  destruct (mapM'_lookup _ _ _ _ _ Hrs Hp) as (r & Hr & Hres).
  exists rs, p, r. done.
Qed.

Lemma C10_interaction_matched_by_name_witness :
  ∃ x dims ycurrent rs0 rs1 r0 r1,
    Simulation.interactions sim_shared_name !! 0 = Some x ∧
    Simulation.IM_dims sim_shared_name = Ok dims ∧
    Simulation.unflatten dims (Simulation.flat_bounds dims) state_shared_name
      = Ok ycurrent ∧
    (* the species [a] of the first group, second cell *)
    Simulation.resolve_contribution 10 sim_shared_name (External x) ycurrent 0 = Ok r0 ∧
    r0 ∈ rs0 ∧
    [vfrac (-1) 4; vint 5; vfrac (-17) 4; vzero; vzero]
      !! (prefix_sum (group_sizes dims) 0 + 1 * 1 + 0) = Some (column_sum rs0 1) ∧
    (* the species [a] of the second group, its only cell *)
    Simulation.resolve_contribution 10 sim_shared_name (External x) ycurrent 1 = Ok r1 ∧
    r1 ∈ rs1 ∧
    [vfrac (-1) 4; vint 5; vfrac (-17) 4; vzero; vzero]
      !! (prefix_sum (group_sizes dims) 1 + 0 * 3 + 0) = Some (column_sum rs1 0).
Proof.
  destruct (Simulation.interactions sim_shared_name !! 0) as [x|] eqn:Hx;
    [|exfalso; vm_compute in Hx; discriminate Hx].
  assert (Interaction.to_node x = Some (TNode "a")) as Hto.
  { assert (Interaction.to_node <$> Simulation.interactions sim_shared_name !! 0
            = Some (Some (TNode "a"))) as H by (vm_compute; reflexivity).
    rewrite Hx in H. by injection H. }
  destruct (C10_interaction_matched_by_name 10 sim_shared_name state_shared_name vzero
              [vfrac (-1) 4; vint 5; vfrac (-17) 4; vzero; vzero] x "a")
    as (dims & ycurrent & Hdims & Hyc & Hall).
  - by apply (bool_decide_unpack _); vm_compute.
  - apply list_elem_of_lookup. eauto.
  - exact Hto.
  - assert (dims = [(2, 1); (1, 3)]) as Hd.
    { assert (Simulation.IM_dims sim_shared_name = Ok [(2, 1); (1, 3)]) as H
        by (vm_compute; reflexivity).
      rewrite Hdims in H. by injection H. }
    assert (Simulation.IMs sim_shared_name !! 0 = Some im_species_a) as Him0
      by (vm_compute; reflexivity).
    assert (Simulation.IMs sim_shared_name !! 1 = Some (im_modified vone vone)) as Him1
      by (vm_compute; reflexivity).
    assert (InternalModel.get_node_names im_species_a !! 0 = Some "a") as Hn0
      by (vm_compute; reflexivity).
    assert (InternalModel.get_node_names (im_modified vone vone) !! 0 = Some "a") as Hn1
      by (vm_compute; reflexivity).
    destruct (Hall 0 im_species_a 2 1 0 Him0) as (rs0 & p0 & r0 & _ & _ & Hr0 & Hres0 & Hcol0);
      [by rewrite Hd | exact Hn0 |].
    destruct (Hall 1 (im_modified vone vone) 1 3 0 Him1)
      as (rs1 & p1 & r1 & _ & _ & Hr1 & Hres1 & Hcol1); [by rewrite Hd | exact Hn1 |].
    exists x, dims, ycurrent, rs0, rs1, r0, r1.
    split; [reflexivity|]. split; [exact Hdims|]. split; [exact Hyc|].
    split; [exact Hres0|]. split; [by eapply list_elem_of_lookup_2|].
    split; [apply Hcol0; lia|].
    split; [exact Hres1|]. split; [by eapply list_elem_of_lookup_2|].
    apply Hcol1; lia.
Defined.

(** ** The state array is not written *)

Lemma preserves_weaken n {A} (m : st Store.heap A) (Q R : A → Prop) :
  preserves n m Q → (∀ a, Q a → R a) → preserves n m R.
Proof. intros Hm HQR h Hh. destruct (Hm h Hh) as (? & ? & ?). eauto. Qed.

Lemma preserves_ret n {A} (a : A) (Q : A → Prop) : Q a → preserves n (mret a) Q.
Proof. intros HQ h Hh. repeat split; [done|]. by intros a' [= <-]. Qed.

Lemma preserves_bind n {A B} (m : st Store.heap A) (f : A → st Store.heap B)
    (Q : A → Prop) (R : B → Prop) :
  preserves n m Q → (∀ a, Q a → preserves n (f a) R) → preserves n (m ≫= f) R.
Proof.
  intros Hm Hf h Hh. destruct (Hm h Hh) as (Hlen & Htake & HQ).
  unfold mbind, st_bind. destruct (m h) as [h1 [a|e]]; simpl in *.
  - destruct (Hf a (HQ a eq_refl) h1) as (Hlen' & Htake' & HR); [lia|].
    split; [lia|]. split; [congruence|done].
  - done.
Qed.

Lemma preserves_lift n {A} (r : result A) : preserves n (st_lift r) (λ a, r = Ok a).
Proof. intros h Hh. done. Qed.

Lemma preserves_raise n {A} (e : exn) (Q : A → Prop) : preserves n (st_raise e) Q.
Proof. intros h Hh. done. Qed.

Lemma preserves_alloc n data :
  preserves n (Store.alloc data) (λ v, n ≤ Store.vbuf v).
Proof.
  intros h Hh. unfold Store.alloc. cbn [fst snd].
  split; [rewrite length_app; lia|]. split.
  - by rewrite take_app_le.
  - by intros a [= <-].
Qed.

Lemma preserves_read n v : preserves n (Store.read v) (λ _, True).
Proof. intros h Hh. done. Qed.

Lemma preserves_read_buffer n b : preserves n (Store.read_buffer b) (λ _, True).
Proof. intros h Hh. done. Qed.

(** A write through an array whose buffer is not among the first [n]. *)
Lemma preserves_write n v data :
  n ≤ Store.vbuf v → preserves n (Store.write v data) (λ _, True).
Proof.
  intros Hv h Hh. unfold Store.write. cbn [fst snd].
  split; [by rewrite length_insert|]. split; [by rewrite take_insert_ge|done].
Qed.

Lemma preserves_iop n f a b :
  n ≤ Store.vbuf a → preserves n (Store.iop f a b) (λ _, True).
Proof.
  intros Ha. unfold Store.iop.
  eapply preserves_bind; [apply preserves_read|]. intros x _.
  eapply preserves_bind; [apply preserves_read|]. intros y _.
  eapply preserves_bind; [apply preserves_lift|]. intros z _.
  by apply preserves_write.
Qed.

Lemma preserves_st_for n {A} (l : list A) (body : A → st Store.heap unit) :
  (∀ x, preserves n (body x) (λ _, True)) →
  preserves n (st_for l body) (λ _, True).
Proof.
  intros Hbody. induction l as [|x l IH]; simpl.
  - by apply preserves_ret.
  - eapply preserves_bind; [apply Hbody|]. by intros.
Qed.

Lemma preserves_mapM_st n {A B} (f : A → st Store.heap B) (Q : B → Prop) (l : list A) :
  (∀ x, preserves n (f x) Q) →
  preserves n (Store.mapM_st f l) (Forall Q).
Proof.
  intros Hf. induction l as [|x l IH]; simpl.
  - by apply preserves_ret.
  - eapply preserves_bind; [apply Hf|]. intros y Hy.
    eapply preserves_bind; [apply IH|]. intros ys Hys.
    apply preserves_ret. by constructor.
Qed.

Lemma preserves_copy n v : preserves n (Store.copy v) (λ w, n ≤ Store.vbuf w).
Proof.
  unfold Store.copy. eapply preserves_bind; [apply preserves_read|]. intros x _.
  apply preserves_alloc.
Qed.

Lemma preserves_apply n m x : preserves n (Store.apply m x) (λ w, n ≤ Store.vbuf w).
Proof.
  unfold Store.apply. eapply preserves_bind; [apply preserves_read|]. intros xv _.
  eapply preserves_bind; [apply preserves_lift|]. intros yv _.
  apply preserves_alloc.
Qed.

Lemma preserves_zeros n r c : preserves n (Store.zeros r c) (λ m, n ≤ Store.mbuf m).
Proof.
  unfold Store.zeros. eapply preserves_bind; [apply preserves_alloc|]. intros v Hv.
  by apply preserves_ret.
Qed.

Lemma preserves_flatten n m : preserves n (Store.flatten m) (λ _, True).
Proof. apply preserves_read. Qed.

Lemma preserves_gather_source n sim from_node ycurrent :
  preserves n (Store.gather_source sim from_node ycurrent) (λ _, True).
Proof.
  unfold Store.gather_source.
  eapply preserves_bind; [|intros; by apply preserves_ret].
  apply (preserves_mapM_st n _ (λ _, True)). intros i.
  eapply preserves_bind; [apply preserves_lift|]. intros im _.
  case_decide.
  - eapply preserves_bind; [apply preserves_lift|]. intros from_id _.
    eapply preserves_bind; [apply preserves_lift|]. intros yc _.
    eapply preserves_bind; [apply preserves_lift|]. intros col _.
    apply preserves_read.
  - eapply preserves_bind; [apply preserves_lift|]. intros cs _.
    by apply preserves_ret.
Qed.

Lemma preserves_scale_by n resolve tag v mods :
  n ≤ Store.vbuf v →
  (∀ m, preserves n (resolve m) (λ r, n ≤ Store.vbuf r)) →
  preserves n (Store.scale_by resolve tag v mods) (λ _, True).
Proof.
  intros Hv Hres. unfold Store.scale_by. apply preserves_st_for. intros m.
  case_decide.
  - eapply preserves_bind; [apply Hres|]. intros r _. by apply preserves_iop.
  - by apply preserves_ret.
Qed.

(** Resolving a contribution writes only buffers it has allocated itself,
    and returns such a buffer. *)
Lemma preserves_resolve_contribution n depth sim c ycurrent IM_id :
  preserves n (Store.resolve_contribution depth sim c ycurrent IM_id)
            (λ r, n ≤ Store.vbuf r).
Proof.
  revert c. induction depth as [|depth IH]; intros c; [apply preserves_raise|].
  cbn [Store.resolve_contribution]. destruct c as [e|i].
  - eapply preserves_bind; [apply preserves_lift|]. intros im _.
    eapply preserves_bind; [apply preserves_lift|]. intros ext_mods _.
    eapply preserves_bind; [apply preserves_lift|]. intros from_node _.
    eapply preserves_bind; [apply preserves_lift|]. intros yc _.
    eapply preserves_bind; [apply preserves_lift|]. intros col _.
    eapply preserves_bind; [apply preserves_copy|]. intros xcontrib Hx.
    eapply preserves_bind; [by apply preserves_scale_by|]. intros _ _.
    eapply preserves_bind; [apply preserves_apply|]. intros ycontrib Hy.
    eapply preserves_bind; [by apply preserves_scale_by|]. intros _ _.
    by apply preserves_ret.
  - eapply preserves_bind; [apply preserves_lift|]. intros ext_mods _.
    eapply preserves_bind; [apply preserves_gather_source|]. intros xdata _.
    eapply preserves_bind; [apply preserves_lift|]. intros cs _.
    eapply preserves_bind; [apply preserves_lift|]. intros xcontrib _.
    eapply preserves_bind; [apply preserves_lift|]. intros bounds _.
    eapply preserves_bind; [apply preserves_lift|]. intros yv _.
    eapply preserves_bind; [apply preserves_alloc|]. intros ycontrib Hy.
    eapply preserves_bind; [by apply preserves_scale_by|]. intros _ _.
    by apply preserves_ret.
Qed.

Lemma column_buffer m j col : Store.column m j = Ok col → Store.vbuf col = Store.mbuf m.
Proof. unfold Store.column. case_decide; [|done]. by intros [= <-]. Qed.

Lemma preserves_accumulate n depth sim ycurrent i im yp j :
  n ≤ Store.mbuf yp →
  preserves n (Store.accumulate depth sim ycurrent i im yp j) (λ _, True).
Proof.
  intros Hyp. unfold Store.accumulate.
  eapply preserves_bind; [apply preserves_lift|]. intros cnode _.
  apply preserves_st_for. intros c.
  eapply preserves_bind; [apply preserves_resolve_contribution|]. intros r _.
  eapply preserves_bind; [apply preserves_lift|]. intros col Hcol.
  (* the target of [+=] is a view of the accumulator *)
  apply preserves_iop. by rewrite (column_buffer _ _ _ Hcol).
Qed.

Lemma preserves_accumulate_group n depth sim ycurrent yprime i :
  Forall (λ yp, n ≤ Store.mbuf yp) yprime →
  preserves n (Store.accumulate_group depth sim ycurrent yprime i) (λ _, True).
Proof.
  intros Hfresh. unfold Store.accumulate_group.
  eapply preserves_bind; [apply preserves_lift|]. intros im _.
  eapply preserves_bind; [apply preserves_lift|]. intros yp Hyp.
  apply preserves_st_for. intros j. apply preserves_accumulate.
  apply py_index_Ok in Hyp. rewrite Forall_forall in Hfresh.
  apply Hfresh. by eapply list_elem_of_lookup_2.
Qed.

Lemma preserves_unflatten n dims bounds y :
  preserves n (Store.unflatten dims bounds y) (λ _, True).
Proof.
  unfold Store.unflatten.
  eapply preserves_bind; [apply preserves_read_buffer|]. intros yv _.
  eapply preserves_weaken; [apply preserves_lift|done].
Qed.

(** [deriv] writes only the accumulators and the buffers of the resolver,
    all of them allocated during the call. *)
Lemma preserves_deriv n depth sim y t :
  preserves n (Store.deriv depth sim y t) (λ out, n ≤ Store.vbuf out).
Proof.
  unfold Store.deriv.
  eapply preserves_bind; [apply preserves_lift|]. intros dims _.
  eapply preserves_bind; [apply preserves_unflatten|]. intros ycurrent _.
  eapply preserves_bind.
  { apply (preserves_mapM_st n _ (λ yp, n ≤ Store.mbuf yp)).
    intros [r c]. apply preserves_zeros. }
  intros yprime Hyprime.
  eapply preserves_bind.
  { apply preserves_st_for. intros i. by apply preserves_accumulate_group. }
  intros _ _.
  eapply preserves_bind.
  { apply (preserves_mapM_st n _ (λ _, True)). intros yp. apply preserves_flatten. }
  intros flat _.
  eapply preserves_bind; [apply preserves_lift|]. intros out _.
  apply preserves_alloc.
Qed.

(** C9: whatever the store holds when [deriv] is called on the buffer [y],
    and whether the call returns or raises, every buffer that existed
    before the call, the state [y] among them, holds afterwards what it
    held before: the resolver multiplies into a copy of the source column
    and into the arrays the terms return, and [deriv] adds into its
    accumulators. *)
Theorem C9_deriv_leaves_state_unchanged (depth : nat) (sim : Simulation.t)
    (y : nat) (t : val) (h : Store.heap) :
  y < length h →
  exec (Store.deriv depth sim y t) h !! y = h !! y ∧
  take (length h) (exec (Store.deriv depth sim y t) h) = h.
Proof.
  intros Hy. destruct (preserves_deriv (length h) depth sim y t h) as (Hlen & Htake & _);
    [done|].
  unfold exec. rewrite firstn_all in Htake. split; [|done].
  rewrite <- (lookup_take_lt _ (length h)) by done. by rewrite Htake.
Qed.

Lemma C9_deriv_leaves_state_unchanged_witness :
  exec (Store.deriv 10 (sim_modified (vint 3) (vint 2)) 0 vzero) [state_modified] !! 0
    = [state_modified] !! 0 ∧
  take (length [state_modified])
       (exec (Store.deriv 10 (sim_modified (vint 3) (vint 2)) 0 vzero) [state_modified])
    = [state_modified].
Proof.
  apply (C9_deriv_leaves_state_unchanged 10 (sim_modified (vint 3) (vint 2)) 0 vzero
           [state_modified]).
  simpl. lia.
Defined.

(** The store tells a view from a copy: multiplying in place through the
    second column of a 2 x 2 array writes the buffer the column is a view
    of, and leaves it alone when the column has been copied first. *)
Lemma in_place_through_view_writes_buffer :
  exec (col ← st_lift (Store.column (Store.MRef 0 0 2 2) 1);
        r ← Store.alloc [vint 10; vint 10];
        Store.iop vmul col r) [[vint 1; vint 2; vint 3; vint 4]] !! 0
    = Some [vint 1; vint 20; vint 3; vint 40] ∧
  exec (col ← st_lift (Store.column (Store.MRef 0 0 2 2) 1);
        x ← Store.copy col;
        r ← Store.alloc [vint 10; vint 10];
        Store.iop vmul x r) [[vint 1; vint 2; vint 3; vint 4]] !! 0
    = Some [vint 1; vint 2; vint 3; vint 4].
Proof. split; by apply (bool_decide_unpack _); vm_compute. Qed.

(** Runs of [deriv] over the store on the configurations used above: the
    values it returns, and the exception of the modifier lookup. *)
Lemma store_deriv_values :
  Store.deriv_value 10 (sim_modified (vint 3) (vint 2)) state_modified vzero
    = Ok [vfrac 3 2; vzero; vzero] ∧
  Store.deriv_value 10 sim_shared_name state_shared_name vzero
    = Ok [vfrac (-1) 4; vint 5; vfrac (-17) 4; vzero; vzero] ∧
  Store.deriv_value 10 (sim_pair im_one_edge) state_pair vzero
    = Ok [vzero; vone] ∧
  Store.deriv_value 10
      (with_modifier (modifier_interaction "mult" None) (sim_pair im_species_a))
      state_pair vzero
    = Raise AttributeError.
Proof. repeat split; by apply (bool_decide_unpack _); vm_compute. Qed.

(** ** The store embedding computes what the value embedding computes *)

Lemma st_bind_unfold {S A B} (m : st S A) (g : A → st S B) (s : S) :
  (m ≫= g) s = match m s with
               | (s', Ok a) => g a s'
               | (s', Raise e) => (s', Raise e)
               end.
Proof. reflexivity. Qed.

Lemma refines_bind {A B A' B'} (R : Store.heap → A → B → Prop)
    (R' : Store.heap → A' → B' → Prop) (m : st Store.heap B)
    (g : B → st Store.heap B') (r : result A) (f : A → result A') h :
  refines R (m h) r →
  (∀ h' a b, R h' a b → refines R' (g b h') (f a)) →
  refines R' ((m ≫= g) h) (r ≫= f).
Proof.
  intros Hm Hk. rewrite st_bind_unfold. destruct r as [a|e]; simpl in Hm |- *.
  - destruct Hm as (h' & b & -> & HR). by apply Hk.
  - destruct Hm as (h' & ->). eauto.
Qed.

Lemma refines_weaken {A B} (R R' : Store.heap → A → B → Prop) out r :
  refines R out r → (∀ h a b, R h a b → R' h a b) → refines R' out r.
Proof.
  intros H HR. destruct r as [a|e]; simpl in *; [|done].
  destruct H as (h' & b & -> & H). eauto.
Qed.

Lemma refines_ret {A B} (R : Store.heap → A → B → Prop) h a b :
  R h a b → refines R (mret (M := st Store.heap) b h) (Ok a).
Proof. intros. simpl. by exists h, b. Qed.

Lemma refines_lift {A} (r : result A) h :
  refines (λ h' a b, h' = h ∧ a = b) (st_lift r h) r.
Proof. destruct r; simpl; eauto. Qed.

Lemma refines_lift_rel {A B} (P : A → B → Prop) (r : result A) (s : result B) h :
  result_rel P r s → refines (λ h' a b, h' = h ∧ P a b) (st_lift s h) r.
Proof.
  unfold result_rel. destruct r as [a|e], s as [b|e']; simpl; try done.
  - eauto.
  - intros ->. eauto.
Qed.

(** A step of the store embedding that leaves the store alone. *)
Lemma refines_pure {A} (m : st Store.heap A) (r : result A) h :
  m h = (h, r) → refines (λ h' a b, h' = h ∧ a = b) (m h) r.
Proof. intros ->. destruct r; simpl; eauto. Qed.

(** The store embedding returns what it has been working on. *)
Lemma refines_then_ret {A B C} (R : Store.heap → A → B → Prop)
    (R' : Store.heap → A → C → Prop) (m : st Store.heap B) (c : C) r h :
  refines R (m h) r →
  (∀ h' a b, R h' a b → R' h' a c) →
  refines R' ((m ≫= λ _, mret c) h) r.
Proof.
  intros Hm HR. rewrite st_bind_unfold. destruct r as [a|e]; simpl in *.
  - destruct Hm as (h' & b & -> & H). exists h', c. eauto.
  - destruct Hm as (h' & ->). eauto.
Qed.

(** The value embedding returns a function of what it computed. *)
Lemma refines_fmap {A A' B} (R : Store.heap → A → B → Prop)
    (R' : Store.heap → A' → B → Prop) (f : A → A') out r :
  refines R out r →
  (∀ h' a b, R h' a b → R' h' (f a) b) →
  refines R' out (a ← r; Ok (f a)).
Proof.
  intros Hm HR. destruct r as [a|e]; simpl in *; [|done].
  destruct Hm as (h' & b & -> & H). eauto.
Qed.

(** A loop: [Inv] relates the store to the accumulator of the value
    embedding. *)
Lemma refines_for {A X} (Inv : Store.heap → X → Prop)
    (body_s : A → st Store.heap unit) (body_p : X → A → result X) (l : list A) :
  (∀ a h x, a ∈ l → Inv h x →
     refines (λ h' x' _, Inv h' x') (body_s a h) (body_p x a)) →
  ∀ h x, Inv h x →
    refines (λ h' x' _, Inv h' x') (st_for l body_s h) (foldM body_p x l).
Proof.
  induction l as [|a l IH]; intros Hbody h x HI.
  - simpl. by exists h, tt.
  - cbn [st_for foldM].
    apply (refines_bind (λ h' x' (_ : unit), Inv h' x')).
    + apply Hbody; [left|done].
    + intros h' x' _ HI'. apply IH; [|done].
      intros. apply Hbody; [by right|done].
Qed.

Lemma result_rel_py_index {A B} (P : A → B → Prop) l l' i :
  Forall2 P l l' → result_rel P (py_index l i) (py_index l' i).
Proof.
  intros H. unfold py_index, result_rel.
  destruct (l !! i) as [a|] eqn:Ha.
  - destruct (Forall2_lookup_l _ _ _ _ _ H Ha) as (b & -> & ?). done.
  - apply lookup_ge_None in Ha. rewrite (Forall2_length _ _ _ H) in Ha.
    apply lookup_ge_None in Ha. by rewrite Ha.
Qed.

Lemma result_rel_mapM' {A B C} (P : B → C → Prop) (f : A → result B)
    (g : A → result C) l :
  (∀ x, x ∈ l → result_rel P (f x) (g x)) →
  result_rel (Forall2 P) (mapM' f l) (mapM' g l).
Proof.
  induction l as [|x l IH]; intros H; simpl; [constructor|].
  pose proof (H x (list_elem_of_here _ _)) as Hx. unfold result_rel in Hx.
  destruct (f x) as [b|e], (g x) as [c|e']; simpl; try done.
  assert (result_rel (Forall2 P) (mapM' f l) (mapM' g l)) as Hl.
  { apply IH. intros. apply H. by right. }
  unfold result_rel in Hl.
  destruct (mapM' f l) as [bs|e], (mapM' g l) as [cs|e']; simpl; try done.
  by constructor.
Qed.

(** ** Reading and writing buffers *)

Lemma fmap_lookup_total_seq (l : list val) :
  (λ p, l !!! p) <$> seq 0 (length l) = l.
Proof.
  apply list_eq. intros i. rewrite list_lookup_fmap.
  destruct (decide (i < length l)) as [Hi|Hi].
  - rewrite lookup_seq_lt by done. simpl.
    destruct (lookup_lt_is_Some_2 l i Hi) as [x Hx].
    by rewrite (list_lookup_total_correct _ _ _ Hx).
  - rewrite lookup_seq_ge by lia. simpl. symmetry. apply lookup_ge_None. lia.
Qed.

Lemma length_write_entries b l : length (write_entries b l) = length b.
Proof.
  revert b. induction l as [|[p x] l IH]; intros b; simpl; [done|].
  unfold write_entries in IH |- *. simpl. by rewrite IH, length_insert.
Qed.

Lemma write_entries_other b ps zs q :
  q ∉ ps → write_entries b (zip ps zs) !! q = b !! q.
Proof.
  revert b zs. induction ps as [|p ps IH]; intros b zs Hq; [done|].
  destruct zs as [|z zs]; [done|]. cbn [zip zip_with].
  apply not_elem_of_cons in Hq as [Hne Hq].
  change (write_entries b ((p, z) :: zip ps zs))
    with (write_entries (<[p := z]> b) (zip ps zs)).
  rewrite IH by done. by apply list_lookup_insert_ne.
Qed.

Lemma write_entries_at b ps zs k q z :
  NoDup ps → ps !! k = Some q → zs !! k = Some z → q < length b →
  write_entries b (zip ps zs) !! q = Some z.
Proof.
  revert b zs k. induction ps as [|p ps IH]; intros b zs k Hnd Hq Hz Hlt; [done|].
  destruct zs as [|z0 zs]; [done|]. apply NoDup_cons in Hnd as [Hp Hnd].
  change (write_entries b (zip (p :: ps) (z0 :: zs)))
    with (write_entries (<[p := z0]> b) (zip ps zs)).
  destruct k as [|k]; simpl in Hq, Hz.
  - injection Hq as ->. injection Hz as ->.
    rewrite write_entries_other by done. by apply list_lookup_insert_eq.
  - apply (IH _ _ k); [done..|]. by rewrite length_insert.
Qed.

(** Writing all of a buffer. *)
Lemma write_entries_all (b z : list val) :
  length z = length b → write_entries b (zip (seq 0 (length b)) z) = z.
Proof.
  intros Hlen. apply list_eq. intros q.
  destruct (decide (q < length b)) as [Hq|Hq].
  - destruct (lookup_lt_is_Some_2 z q) as [x Hx]; [lia|]. rewrite Hx.
    apply (write_entries_at _ _ _ q); [apply NoDup_seq| |done|done].
    by apply lookup_seq_lt.
  - rewrite (proj2 (lookup_ge_None z q)) by lia.
    apply lookup_ge_None. rewrite length_write_entries. lia.
Qed.

Lemma read_fresh h v ref :
  h !! Store.vbuf ref = Some v → Store.vidx ref = seq 0 (length v) →
  Store.read ref h = (h, Ok v).
Proof.
  intros Hb Hidx. unfold Store.read. rewrite Hidx.
  rewrite (list_lookup_total_correct _ _ _ Hb). by rewrite fmap_lookup_total_seq.
Qed.

Lemma alloc_bind {B} data (g : Store.vref → st Store.heap B) h :
  (Store.alloc data ≫= g) h
  = g (Store.VRef (length h) (seq 0 (length data))) (h ++ [data]).
Proof. reflexivity. Qed.

Lemma lookup_total_middle (hpre : Store.heap) buf k :
  (hpre ++ buf :: k) !!! length hpre = buf.
Proof. apply list_lookup_total_correct, list_lookup_middle. done. Qed.

(** [a op= b] where [a] shows the positions [ps] of one buffer. *)
Lemma iop_refines f hpre buf k ps b rv :
  Store.read b (hpre ++ buf :: k) = (hpre ++ buf :: k, Ok rv) →
  refines (λ h' z _, vec_iop f ((λ p, buf !!! p) <$> ps) rv = Ok z ∧
                     h' = hpre ++ write_entries buf (zip ps z) :: k)
    (Store.iop f (Store.VRef (length hpre) ps) b (hpre ++ buf :: k))
    (vec_iop f ((λ p, buf !!! p) <$> ps) rv).
Proof.
  intros Hb. unfold Store.iop. rewrite st_bind_unfold.
  unfold Store.read at 1. cbn [Store.vbuf Store.vidx].
  rewrite lookup_total_middle. rewrite st_bind_unfold, Hb.
  rewrite st_bind_unfold. unfold st_lift.
  destruct (vec_iop f _ rv) as [z|e] eqn:Hz; simpl; [|eauto].
  eexists _, tt. split; [reflexivity|]. split; [done|].
  cbn [Store.vbuf Store.vidx]. rewrite lookup_total_middle.
  rewrite insert_app_r_alt by lia. by rewrite Nat.sub_diag.
Qed.

Lemma views_app h k ms rs : views h ms rs → views (h ++ k) ms rs.
Proof.
  unfold views. intros H. eapply Forall2_impl; [exact H|]. intros m r (buf & Hb & Hv).
  exists buf. split; [|done]. by apply lookup_app_l_Some.
Qed.

(** A column of a view is read from the buffer the view is on. *)
Lemma column_view h buf m r j :
  h !! Store.mbuf r = Some buf → view_of buf m r →
  result_rel (λ v c, Store.read c h = (h, Ok v)) (column m j) (Store.column r j).
Proof.
  intros Hb (Hr & Hc & Hcell). unfold column, Store.column, result_rel.
  rewrite <- Hc. case_decide as Hj; [|done].
  unfold Store.read. cbn [Store.vbuf Store.vidx]. do 2 f_equal.
  rewrite (list_lookup_total_correct _ _ _ Hb). rewrite <- list_fmap_compose.
  rewrite <- Hr. apply list_fmap_ext. intros ? i Hi%lookup_seq. simpl.
  rewrite Hc. apply Hcell; lia.
Qed.

(** ** The resolver *)

Lemma foldM_append {A B} (f : B → result (list A))
    (body : list A → B → result (list A)) :
  (∀ xs i, body xs i = (c ← f i; Ok (xs ++ c))) →
  ∀ l acc, foldM body acc l = (xs ← mapM' f l; Ok (acc ++ mjoin xs)).
Proof.
  intros Hbody. induction l as [|i l IH]; intros acc; simpl.
  - by rewrite app_nil_r.
  - rewrite Hbody. destruct (f i) as [c|e]; simpl; [|done].
    rewrite IH. destruct (mapM' f l) as [xs|e]; simpl; [|done].
    by rewrite app_assoc.
Qed.

Lemma mapM_st_pure {S A B} (g : A → st S B) (f : A → result B) l (s : S) :
  (∀ i, i ∈ l → g i s = (s, f i)) → Store.mapM_st g l s = (s, mapM' f l).
Proof.
  induction l as [|i l IH]; intros H; [done|].
  cbn [Store.mapM_st mapM']. rewrite st_bind_unfold, H by left.
  destruct (f i) as [y|e]; simpl; [|done].
  rewrite st_bind_unfold, IH by (intros; apply H; by right).
  by destruct (mapM' f l).
Qed.

Lemma st_lift_bind {S A B} (r : result A) (g : A → st S B) (s : S) :
  (st_lift r ≫= g) s = match r with Ok a => g a s | Raise e => (s, Raise e) end.
Proof. by destruct r. Qed.

(** The source species is gathered from the buffers without writing. *)
Lemma gather_source_refines sim from_node ycp ycr h :
  views h ycp ycr →
  Store.gather_source sim from_node ycr h
  = (h, Simulation.gather_source sim from_node ycp).
Proof.
  intros Hv. unfold Store.gather_source, Simulation.gather_source.
  rewrite (foldM_append (λ i,
    im ← py_index (Simulation.IMs sim) i;
    if decide (is_Some (InternalModel.node_names im !! from_node)) then
      from_id ← InternalModel.get_node_id im from_node;
      yc ← py_index ycp i;
      column yc from_id
    else
      cs ← py_index (Simulation.IM_cells sim) i;
      Ok (replicate (length cs) NaN))).
  2:{ intros xs i. destruct (py_index (Simulation.IMs sim) i) as [im|]; simpl; [|done].
      case_decide.
      - destruct (InternalModel.get_node_id im from_node); simpl; [|done].
        destruct (py_index ycp i) as [yc|]; simpl; [|done].
        by destruct (column yc _).
      - by destruct (py_index (Simulation.IM_cells sim) i). }
  rewrite st_bind_unfold.
  match goal with |- context [mapM' ?f _] => rewrite (mapM_st_pure _ f) end;
    [by destruct (mapM' _ _)|].
  intros i _. rewrite st_lift_bind.
  destruct (py_index (Simulation.IMs sim) i) as [im|]; simpl; [|done].
  case_decide.
  - rewrite st_lift_bind.
    destruct (InternalModel.get_node_id im from_node) as [from_id|]; simpl; [|done].
    rewrite st_lift_bind.
    pose proof (result_rel_py_index _ _ _ i Hv) as Hyc. unfold result_rel in Hyc.
    destruct (py_index ycp i) as [yc|], (py_index ycr i) as [yr|]; simpl; try done;
      [|by subst].
    destruct Hyc as (buf & Hb & Hview). rewrite st_lift_bind.
    pose proof (column_view h buf yc yr from_id Hb Hview) as Hcol.
    unfold result_rel in Hcol.
    destruct (column yc from_id), (Store.column yr from_id); try done. by subst.
  - rewrite st_lift_bind. by destruct (py_index (Simulation.IM_cells sim) i).
Qed.

(** The loop that scales the buffer after [hpre] by the modifiers with
    one tag. *)
Lemma scale_by_refines res_s res_p ycp ycr tag hpre n mods :
  (∀ c h, views h ycp ycr → refines (fresh_vector h) (res_s c h) (res_p c)) →
  views hpre ycp ycr →
  ∀ v k, length v = n →
    refines (λ h' v' (_ : unit), ∃ k', h' = hpre ++ v' :: k' ∧ length v' = n)
      (Store.scale_by res_s tag (Store.VRef (length hpre) (seq 0 n)) mods
         (hpre ++ v :: k))
      (Simulation.scale_by res_p tag v mods).
Proof.
  intros Hres Hv v k Hlen. unfold Store.scale_by, Simulation.scale_by.
  apply (refines_for (λ h' v', ∃ k', h' = hpre ++ v' :: k' ∧ length v' = n)); [|eauto].
  clear v k Hlen. intros m h x _ (k & -> & Hlen). case_decide; [|apply refines_ret; eauto].
  eapply refines_bind; [apply Hres; by apply views_app|].
  intros h' rv ref ((k2 & ->) & Hidx & Hge & Hlook).
  rewrite <- app_assoc in Hlook |- *. cbn [app] in Hlook |- *.
  pose proof (iop_refines vmul hpre x (k ++ k2) (seq 0 (length x)) ref rv
                (read_fresh _ _ _ Hlook Hidx)) as Hiop.
  rewrite fmap_lookup_total_seq in Hiop. rewrite Hlen in Hiop.
  eapply refines_weaken; [exact Hiop|].
  intros h' z _ (Hz & ->). simpl.
  apply vec_iop_length in Hz. exists (k ++ k2). split; [|lia].
  rewrite <- Hlen. rewrite write_entries_all by done. done.
Qed.

Lemma apply_refines m hpre v k :
  refines (λ h' y yr, h' = (hpre ++ v :: k) ++ [y] ∧
                      yr = Store.VRef (length (hpre ++ v :: k)) (seq 0 (length y)))
    (Store.apply m (Store.VRef (length hpre) (seq 0 (length v))) (hpre ++ v :: k))
    (Model.apply m v).
Proof.
  unfold Store.apply. rewrite st_bind_unfold.
  rewrite (read_fresh _ v) by first [by apply list_lookup_middle | done].
  rewrite st_lift_bind. destruct (Model.apply m v) as [y|e]; simpl; eauto.
Qed.

(** A contribution resolved over the store is a new buffer that holds the
    values the value embedding computes; the two raise alike. *)
Lemma resolve_contribution_refines depth sim ycp ycr IM_id :
  ∀ c h, views h ycp ycr →
    refines (fresh_vector h)
      (Store.resolve_contribution depth sim c ycr IM_id h)
      (Simulation.resolve_contribution depth sim c ycp IM_id).
Proof.
  induction depth as [|depth IH]; intros c h Hv; [simpl; eauto|].
  cbn [Store.resolve_contribution Simulation.resolve_contribution].
  destruct c as [e|i].
  - eapply refines_bind; [apply refines_lift|]. intros ? im ? [-> <-].
    eapply refines_bind; [apply refines_lift|]. intros ? ext_mods ? [-> <-].
    eapply refines_bind; [apply refines_lift|]. intros ? from_node ? [-> <-].
    eapply refines_bind;
      [apply refines_lift_rel, (result_rel_py_index _ _ _ IM_id Hv)|].
    intros ? yc yr [-> (buf & Hb & Hview)].
    rewrite st_lift_bind.
    pose proof (column_view h buf yc yr from_node Hb Hview) as Hcol.
    unfold result_rel in Hcol.
    destruct (column yc from_node) as [x|], (Store.column yr from_node) as [col|];
      try done; [|subst; simpl; eauto].
    cbn [mbind result_bind].
    unfold Store.copy. rewrite st_bind_unfold, st_bind_unfold, Hcol.
    change (Store.alloc x h) with (h ++ [x], Ok (Store.VRef (length h) (seq 0 (length x)))).
    cbv iota beta.
    eapply refines_bind; [by apply (scale_by_refines _ _ ycp ycr _ h _ _ IH Hv x [])|].
    intros ? x' _ (k & -> & Hlen). rewrite <- Hlen.
    eapply refines_bind; [apply apply_refines|]. intros ? y yref [-> ->].
    eapply refines_then_ret.
    + apply (scale_by_refines _ _ ycp ycr _ _ _ _ IH); [by apply views_app|done].
    + intros ? y' _ (k' & -> & Hlen'). repeat split.
      * exists (x' :: k ++ y' :: k'). by rewrite <- app_assoc.
      * cbn [Store.vidx]. by rewrite Hlen'.
      * cbn [Store.vbuf]. rewrite length_app. lia.
      * cbn [Store.vbuf]. by apply list_lookup_middle.
  - eapply refines_bind; [apply refines_lift|]. intros ? ext_mods ? [-> <-].
    eapply refines_bind; [apply refines_pure, (gather_source_refines _ _ ycp); done|].
    intros ? xdata ? [-> <-].
    eapply refines_bind; [apply refines_lift|]. intros ? cs ? [-> <-].
    eapply refines_bind; [apply refines_lift|]. intros ? xcontrib ? [-> <-].
    eapply refines_bind; [apply refines_lift|]. intros ? bounds ? [-> <-].
    eapply refines_bind; [apply refines_lift|]. intros ? y ? [-> <-].
    rewrite alloc_bind. change (h ++ [y]) with (h ++ y :: []).
    eapply refines_then_ret.
    + by apply (scale_by_refines _ _ ycp ycr _ _ _ _ IH).
    + intros ? y' _ (k' & -> & Hlen'). repeat split.
      * by exists (y' :: k').
      * cbn [Store.vidx]. by rewrite Hlen'.
      * done.
      * cbn [Store.vbuf]. by apply list_lookup_middle.
Qed.

(** ** The accumulators *)

Lemma flatten_lookup_total (m : ndarray val) j k :
  j < nrows m → k < ncols m → flatten m !!! (j * ncols m + k) = cell m j k.
Proof. intros. by apply list_lookup_total_correct, flatten_lookup. Qed.

Lemma flatten_zeros r c : flatten (np_zeros r c) = replicate (r * c) vzero.
Proof.
  apply list_eq. intros q. destruct (decide (q < r * c)) as [Hq|Hq].
  - assert (0 < c) as Hc by nia.
    rewrite (Nat.div_mod_eq q c), (Nat.mul_comm c).
    assert (q `mod` c < c) by (apply Nat.mod_upper_bound; lia).
    assert (q `div` c < r) by (apply Nat.Div0.div_lt_upper_bound; lia).
    rewrite (flatten_lookup (np_zeros r c)) by done.
    symmetry. apply lookup_replicate_2. rewrite (Nat.mul_comm _ c).
    rewrite <- Nat.div_mod_eq. done.
  - rewrite (proj2 (lookup_ge_None _ q)) by (rewrite length_flatten; simpl; lia).
    symmetry. apply lookup_ge_None. rewrite length_replicate. lia.
Qed.

(** The entries of column [j] as a view of the row-major buffer. *)
Lemma column_positions (m : ndarray val) j :
  j < ncols m →
  (λ p, flatten m !!! p) <$> ((λ i, 0 + i * ncols m + j) <$> seq 0 (nrows m))
  = (λ i, cell m i j) <$> seq 0 (nrows m).
Proof.
  intros Hj. rewrite <- list_fmap_compose. apply list_fmap_ext.
  intros ? i Hi%lookup_seq. simpl. apply flatten_lookup_total; lia.
Qed.

(** Writing a column through the view is writing the column. *)
Lemma flatten_column_update (m : ndarray val) j (z : list val) :
  j < ncols m → length z = nrows m →
  write_entries (flatten m)
    (zip ((λ i, 0 + i * ncols m + j) <$> seq 0 (nrows m)) z)
  = flatten (NdArray (nrows m) (ncols m)
               (λ i k, if decide (k = j) then z !!! i else cell m i k)).
Proof.
  intros Hj Hz. set (c := ncols m). set (r := nrows m).
  set (m' := NdArray r c _). apply list_eq. intros q.
  destruct (decide (q < r * c)) as [Hq|Hq].
  - assert (q `mod` c < c) as Hk by (apply Nat.mod_upper_bound; lia).
    assert (q `div` c < r) as Hi by (apply Nat.Div0.div_lt_upper_bound; lia).
    assert (q = q `div` c * c + q `mod` c) as Hdm
      by (rewrite (Nat.mul_comm _ c); apply Nat.div_mod_eq).
    rewrite Hdm at 2. rewrite (flatten_lookup m') by done. cbn [cell m'].
    case_decide as Hcol.
    + apply (write_entries_at _ _ _ (q `div` c)).
      * apply NoDup_fmap_2_strong; [|apply NoDup_seq].
        intros a b _ _ Hab. nia.
      * rewrite list_lookup_fmap, lookup_seq_lt by done. simpl. f_equal. lia.
      * apply list_lookup_lookup_total_lt. lia.
      * rewrite length_flatten. fold r c. lia.
    + rewrite write_entries_other.
      * rewrite Hdm at 1. by apply flatten_lookup.
      * intros (i & Heq & _)%list_elem_of_fmap. apply Hcol.
        rewrite Heq. simpl. rewrite Nat.add_comm, Nat.Div0.mod_add.
        apply Nat.mod_small. done.
  - rewrite (proj2 (lookup_ge_None _ q))
      by (rewrite length_write_entries, length_flatten; fold r c; lia).
    symmetry. apply lookup_ge_None. rewrite length_flatten. simpl. lia.
Qed.

(** The contributions to one species of one group, added into the
    accumulator buffer of the group. *)
Lemma accumulate_refines depth sim ycp ycr i im hpre rest r c j :
  views hpre ycp ycr →
  ∀ h yp, holds_at hpre rest h (flatten yp) ∧ shape yp = (r, c) →
    refines (λ h' yp' (_ : unit), holds_at hpre rest h' (flatten yp') ∧ shape yp' = (r, c))
      (Store.accumulate depth sim ycr i im (Store.MRef (length hpre) 0 r c) j h)
      (Simulation.accumulate depth sim ycp i im yp j).
Proof.
  intros Hv h yp Hinv. unfold Store.accumulate, Simulation.accumulate.
  eapply refines_bind; [apply refines_lift|]. intros ? cnode ? [-> <-].
  apply (refines_for (λ h' yp', holds_at hpre rest h' (flatten yp') ∧ shape yp' = (r, c)));
    [|done].
  clear h yp Hinv. intros contrib h x _ ((k & ->) & Hshape).
  injection Hshape as <- <-.
  eapply refines_bind; [apply resolve_contribution_refines; by apply views_app|].
  intros h' rv ref ((k2 & ->) & Hidx & Hge & Hlook).
  rewrite <- app_assoc in Hlook |- *. cbn [app] in Hlook |- *.
  rewrite <- app_assoc in Hlook |- *.
  rewrite st_lift_bind. unfold Store.column, column_iadd, column.
  cbn [Store.mcols Store.mrows Store.mbuf Store.moff].
  case_decide as Hj; [|simpl; eauto]. cbn [mbind result_bind].
  apply (refines_fmap (λ h' z (_ : unit),
           vec_iop vadd ((λ i, cell x i j) <$> seq 0 (nrows x)) rv = Ok z ∧
           h' = hpre ++ write_entries (flatten x)
                          (zip ((λ i, 0 + i * ncols x + j) <$> seq 0 (nrows x)) z)
                        :: rest ++ k ++ k2)).
  - pose proof (iop_refines vadd hpre (flatten x) (rest ++ k ++ k2)
                  ((λ i, 0 + i * ncols x + j) <$> seq 0 (nrows x)) ref rv
                  (read_fresh _ _ _ Hlook Hidx)) as Hiop.
    rewrite column_positions in Hiop by lia. exact Hiop.
  - intros ? z _ (Hz & ->). apply vec_iop_length in Hz.
    rewrite length_fmap, length_seq in Hz. split; [|done].
    exists (k ++ k2). rewrite (flatten_column_update x j z) by lia. done.
Qed.

Lemma accumulator_refs_lookup n0 dims i :
  accumulator_refs n0 dims !! i
  = (λ '(r, c), Store.MRef (n0 + i) 0 r c) <$> dims !! i.
Proof. unfold accumulator_refs. apply list_lookup_imap. Qed.

(** The accumulators of all groups: the buffers after [h0], one per
    group, hold the accumulators flattened. *)
Lemma accumulate_group_refines depth sim ycp ycr h0 dims i :
  views h0 ycp ycr →
  ∀ h yprime,
    (∃ k, h = h0 ++ (flatten <$> yprime) ++ k) ∧ shape <$> yprime = dims →
    refines (λ h' yprime' (_ : unit),
               (∃ k, h' = h0 ++ (flatten <$> yprime') ++ k) ∧ shape <$> yprime' = dims)
      (Store.accumulate_group depth sim ycr (accumulator_refs (length h0) dims) i h)
      (Simulation.accumulate_group depth sim ycp yprime i).
Proof.
  intros Hv h yprime ((k & ->) & Hdims).
  unfold Store.accumulate_group, Simulation.accumulate_group.
  eapply refines_bind; [apply refines_lift|]. intros ? im ? [-> <-].
  eapply refines_bind.
  { apply (refines_lift_rel (λ yp ypr,
       yprime !! i = Some yp ∧
       ypr = Store.MRef (length h0 + i) 0 (nrows yp) (ncols yp))).
    unfold result_rel, py_index. rewrite accumulator_refs_lookup, <- Hdims.
    rewrite list_lookup_fmap. by destruct (yprime !! i). }
  intros ? yp ypr [-> [Hyp ->]].
  assert (i < length yprime) as Hi by (by eapply lookup_lt_Some).
  set (hpre := h0 ++ (flatten <$> take i yprime)).
  set (rest := flatten <$> drop (S i) yprime).
  assert (length hpre = length h0 + i) as Hlen.
  { unfold hpre. rewrite length_app, length_fmap, length_take. lia. }
  assert (∀ x k, h0 ++ (flatten <$> <[i := x]> yprime) ++ k
                 = hpre ++ flatten x :: rest ++ k) as Hsplit.
  { intros x k'. unfold hpre, rest. rewrite insert_take_drop by done.
    rewrite fmap_app, fmap_cons, <- !app_assoc. done. }
  rewrite <- Hlen.
  apply (refines_fmap (λ h' yp' (_ : unit),
           holds_at hpre rest h' (flatten yp') ∧ shape yp' = (nrows yp, ncols yp))).
  - apply (refines_for (λ h' yp',
             holds_at hpre rest h' (flatten yp') ∧ shape yp' = (nrows yp, ncols yp))).
    + intros j h x _ Hinv. apply accumulate_refines; [|done].
      unfold hpre. by apply views_app.
    + split; [|done]. exists k. rewrite <- Hsplit. by rewrite list_insert_id.
  - intros h' yp' _ ((k' & ->) & Hshape). split.
    + exists k'. by rewrite Hsplit.
    + rewrite list_fmap_insert, Hshape, <- Hdims. apply list_insert_id.
      by rewrite list_lookup_fmap, Hyp.
Qed.

(** ** The derivative *)

Lemma mapM_st_zeros dims h :
  Store.mapM_st (λ '(r, c), Store.zeros r c) dims h
  = (h ++ ((λ '(r, c), flatten (np_zeros r c)) <$> dims),
     Ok (accumulator_refs (length h) dims)).
Proof.
  revert h. induction dims as [|[r c] dims IH]; intros h.
  - simpl. by rewrite app_nil_r.
  - cbn [Store.mapM_st]. rewrite st_bind_unfold. unfold Store.zeros at 1.
    rewrite alloc_bind. cbn [mret st_ret Store.vbuf].
    rewrite st_bind_unfold, IH. cbn [mret st_ret].
    rewrite <- app_assoc. cbn [app fmap list_fmap]. rewrite flatten_zeros.
    unfold accumulator_refs. cbn [imap]. unfold mret, st_ret. do 3 f_equal.
    + f_equal. lia.
    + apply imap_ext. intros i [r' c'] _. simpl. f_equal.
      rewrite length_app. simpl. lia.
Qed.

Lemma mapM_st_flatten h0 dims k (yprime : list (ndarray val)) :
  shape <$> yprime = dims →
  Store.mapM_st Store.flatten (accumulator_refs (length h0) dims)
    (h0 ++ (flatten <$> yprime) ++ k)
  = (h0 ++ (flatten <$> yprime) ++ k, Ok (flatten <$> yprime)).
Proof.
  intros Hdims. set (h := h0 ++ _ ++ k).
  rewrite (mapM_st_pure _ (λ ref, Ok (h !!! Store.mbuf ref))).
  - f_equal. rewrite (mapM'_ok _ (λ ref, h !!! Store.mbuf ref))
      by (by apply Forall_forall).
    f_equal. apply list_eq. intros i.
    rewrite !list_lookup_fmap, accumulator_refs_lookup, <- Hdims, list_lookup_fmap.
    destruct (yprime !! i) as [yp|] eqn:Hyp; [|done]. simpl. f_equal.
    apply list_lookup_total_correct. unfold h.
    rewrite lookup_app_r by lia. rewrite lookup_app_l.
    + replace (length h0 + i - length h0) with i by lia.
      by rewrite list_lookup_fmap, Hyp.
    + rewrite length_fmap. apply lookup_lt_Some in Hyp. lia.
  - intros ref (i & Href)%list_elem_of_lookup_1.
    rewrite accumulator_refs_lookup, <- Hdims, list_lookup_fmap in Href.
    destruct (yprime !! i) as [yp|] eqn:Hyp; [|done]. simpl in Href.
    injection Href as <-. unfold Store.flatten, Store.read.
    cbn [Store.vbuf Store.vidx Store.mbuf Store.moff Store.mrows Store.mcols].
    do 2 f_equal.
    assert (h !!! (length h0 + i) = flatten yp) as ->.
    { apply list_lookup_total_correct. unfold h.
      rewrite lookup_app_r by lia. rewrite lookup_app_l.
      + replace (length h0 + i - length h0) with i by lia.
        by rewrite list_lookup_fmap, Hyp.
      + rewrite length_fmap. apply lookup_lt_Some in Hyp. lia. }
    rewrite <- list_fmap_compose. rewrite <- (length_flatten yp).
    apply fmap_lookup_total_seq.
Qed.

Lemma unflatten_refines dims bounds y yb h :
  h !! yb = Some y →
  refines (λ h' ycp ycr, h' = h ∧ views h ycp ycr)
    (Store.unflatten dims bounds yb h) (Simulation.unflatten dims bounds y).
Proof.
  intros Hy. unfold Store.unflatten, Simulation.unflatten.
  rewrite st_bind_unfold. unfold Store.read_buffer.
  rewrite (list_lookup_total_correct _ _ _ Hy).
  eapply refines_weaken.
  { apply refines_lift_rel. apply (result_rel_mapM' (λ m r,
      ∃ buf, h !! Store.mbuf r = Some buf ∧ view_of buf m r)).
    intros i _. unfold result_rel.
    destruct (py_index dims i) as [[r c]|]; simpl; [|done].
    destruct (py_index bounds i) as [lo|]; simpl; [|done].
    destruct (py_index bounds (i + 1)) as [hi|]; simpl; [|done].
    unfold reshape. case_decide as Hsz; [|done].
    exists y. split; [done|]. repeat split. cbn [nrows ncols cell Store.moff Store.mcols].
    intros j k Hj Hk. rewrite slice_lookup_total by (rewrite Hsz; nia).
    f_equal. lia. }
  intros ? ycp ycr [-> H]. done.
Qed.

(** [deriv] over the store returns an array that holds what [deriv] on
    values returns, and the two raise alike. *)
Lemma deriv_refines depth sim y yb t h :
  h !! yb = Some y →
  refines (λ h' v ref, Store.read ref h' = (h', Ok v))
    (Store.deriv depth sim yb t h) (Simulation.deriv depth sim y t).
Proof.
  intros Hy. unfold Store.deriv, Simulation.deriv.
  eapply refines_bind; [apply refines_lift|]. intros ? dims ? [-> <-].
  eapply refines_bind; [by apply unflatten_refines|]. intros ? ycp ycr [-> Hv].
  rewrite st_bind_unfold, mapM_st_zeros.
  eapply refines_bind.
  { apply (refines_for (λ h' yprime',
       (∃ k, h' = h ++ (flatten <$> yprime') ++ k) ∧ shape <$> yprime' = dims)).
    - intros i h' yprime _ Hinv. by apply accumulate_group_refines.
    - split.
      + exists []. rewrite app_nil_r. f_equal. rewrite <- list_fmap_compose.
        apply list_fmap_ext. by intros ? [r c] _.
      + rewrite <- list_fmap_compose. rewrite <- (list_fmap_id dims) at 2.
        apply list_fmap_ext. by intros ? [r c] _. }
  intros ? yprime _ ((k & ->) & Hdims).
  rewrite st_bind_unfold, mapM_st_flatten by done.
  rewrite st_lift_bind.
  destruct (reduce_append (flatten <$> yprime)) as [out|e]; simpl; [|eauto].
  eexists _, _. split; [reflexivity|].
  apply read_fresh; [|done]. cbn [Store.vbuf]. by apply list_lookup_middle.
Qed.

(** The two embeddings of [deriv] return the same values and raise the
    same exceptions. *)
Theorem store_deriv_refines depth sim y t :
  Store.deriv_value depth sim y t = Simulation.deriv depth sim y t.
Proof.
  unfold Store.deriv_value.
  pose proof (deriv_refines depth sim y 0 t [y] eq_refl) as H.
  destruct (Simulation.deriv depth sim y t) as [v|e]; simpl in H.
  - destruct H as (h' & ref & -> & Hread). cbn [mbind result_bind]. by rewrite Hread.
  - by destruct H as (h' & ->).
Qed.

(** ** Building a reaction graph: what each method does to the model *)

Lemma add_edge_effect from_node to type is_mod mod_type params im :
  (∃ e, InternalModel.add_edge from_node to type is_mod mod_type params im
        = (InternalModel.with_edge_counter S im, Raise e)) ∨
  (∃ m, InternalModel.get_edge_model type is_mod mod_type params = Ok (Some m) ∧
        InternalModel.add_edge from_node to type is_mod mod_type params im
        = (InternalModel.with_edges
             (λ es, es ++ [Edge.init from_node to m (InternalModel.edge_counter im)])
             (InternalModel.with_edge_counter S im),
           Ok (InternalModel.edge_counter im))).
Proof.
  unfold InternalModel.add_edge, InternalModel.fresh_edge_id.
  unfold mbind, st_bind, st_get, st_modify, st_lift, st_raise, mret, st_ret. simpl.
  destruct (InternalModel.get_edge_model _ _ _ _) as [[m|]|e]; simpl; eauto.
Qed.

(** The first edge with the id just given out, in a model that has the
    new edge at its end. *)
Lemma get_edge_app_new im e :
  ∃ e', InternalModel.get_edge
          (InternalModel.with_edges (λ es, es ++ [e]) im) (Edge.edge_id e) = Ok e'.
Proof.
  unfold InternalModel.get_edge. simpl. rewrite filter_app, filter_cons_True by done.
  unfold py_index.
  destruct (filter _ (InternalModel.edges im)) as [|e0 l]; simpl; eauto.
Qed.

Lemma set_node_degradation_effect name degradation params im :
  (∃ e, InternalModel.set_node_degradation name degradation params im = (im, Raise e)) ∨
  (∃ i node, InternalModel.node_names im !! name = Some i ∧
     InternalModel.nodes im !! i = Some node ∧ degradation = None ∧
     InternalModel.set_node_degradation name degradation params im
     = (InternalModel.with_nodes <[i := Node.set_degradation node None]> im, Ok None)) ∨
  (∃ i node m e,
     InternalModel.node_names im !! name = Some i ∧
     InternalModel.nodes im !! i = Some node ∧ is_Some degradation ∧
     Model.is_mod m = false ∧ Model.mod_type m = None ∧
     InternalModel.set_node_degradation name degradation params im
     = (InternalModel.with_edges
          (λ es, es ++ [Edge.init name (TNode name) m (InternalModel.edge_counter im)])
          (InternalModel.with_edge_counter S
             (InternalModel.with_nodes <[i := Node.set_degradation node (Some m)]> im)),
        Ok (Some e))).
Proof.
  unfold InternalModel.set_node_degradation, InternalModel.fresh_edge_id.
  unfold mbind, st_bind, st_get, st_modify, st_lift, st_raise, mret, st_ret. simpl.
  unfold InternalModel.get_node_id.
  destruct (InternalModel.node_names im !! name) as [i|] eqn:Hi; simpl; [|eauto].
  destruct (InternalModel.nodes im !! i) as [node|] eqn:Hn;
    [rewrite (proj2 (py_index_Ok _ _ _) Hn)
    |unfold py_index; rewrite Hn; simpl; eauto]; simpl.
  repeat case_decide; simpl; eauto 10.
  - destruct (Model.param1 params) as [C|]; simpl; [|eauto].
    right. right.
      pose proof (get_edge_app_new
        (InternalModel.with_edge_counter S
           (InternalModel.with_nodes <[i := Node.set_degradation node (Some (LinearDegradation C))]> im))
        (Edge.init name (TNode name) (LinearDegradation C) (InternalModel.edge_counter im)))
        as [e' He'].
    rewrite edge_init_id in He'.
    exists i, node, (LinearDegradation C), e'. split_and!; try done. by rewrite He'.
  - destruct (Model.param1 params) as [C|]; simpl; [|eauto].
    right. right.
      pose proof (get_edge_app_new
        (InternalModel.with_edge_counter S
           (InternalModel.with_nodes <[i := Node.set_degradation node (Some (ParabolicDegradation C))]> im))
        (Edge.init name (TNode name) (ParabolicDegradation C) (InternalModel.edge_counter im)))
        as [e' He'].
    rewrite edge_init_id in He'.
    exists i, node, (ParabolicDegradation C), e'. split_and!; try done. by rewrite He'.
Qed.

(** [add_node] stores the node and its name, then sets the degradation. *)
Lemma add_node_effect name degradation params im :
  let im1 := InternalModel.with_node_names <[name := length (InternalModel.nodes im)]>
               (InternalModel.with_nodes (λ ns, ns ++ [Node.init name]) im) in
  exec (InternalModel.add_node name degradation params) im
  = exec (InternalModel.set_node_degradation name degradation params) im1.
Proof.
  intros im1. unfold exec, InternalModel.add_node.
  unfold mbind at 1 2, st_bind at 1 2, st_modify at 1 2. simpl.
  replace (length (InternalModel.nodes im ++ [Node.init name]) - 1)
    with (length (InternalModel.nodes im)) by (rewrite length_app; simpl; lia).
  fold im1. unfold mbind, st_bind.
  destruct (InternalModel.set_node_degradation name degradation params im1)
    as [im2 [r|e]]; simpl; [|done].
  unfold st_get, st_lift. done.
Qed.

Lemma add_node_run name degradation params im :
  let im1 := InternalModel.with_node_names <[name := length (InternalModel.nodes im)]>
               (InternalModel.with_nodes (λ ns, ns ++ [Node.init name]) im) in
  InternalModel.add_node name degradation params im
  = match InternalModel.set_node_degradation name degradation params im1 with
    | (im2, Ok _) => (im2, InternalModel.get_node im2 name)
    | (im2, Raise e) => (im2, Raise e)
    end.
Proof.
  intros im1. unfold InternalModel.add_node.
  unfold mbind at 1 2, st_bind at 1 2, st_modify at 1 2. simpl.
  replace (length (InternalModel.nodes im ++ [Node.init name]) - 1)
    with (length (InternalModel.nodes im)) by (rewrite length_app; simpl; lia).
  fold im1. unfold mbind, st_bind.
  destruct (InternalModel.set_node_degradation name degradation params im1)
    as [im2 [r|e]]; simpl; done.
Qed.

(** What a call leaves of the model it was made on: the edges, with at
    most one new edge after them; the names of the nodes, with at most one
    new node after them. *)
Lemma run_call_edges im c :
  ∃ es, InternalModel.edges (run_call im c) = InternalModel.edges im ++ es ∧
        Forall edge_kind_ok es.
Proof.
  assert (∀ f to m k, edge_kind_ok (Edge.init f to m k)) as Hinit.
  { intros f to m k. unfold edge_kind_ok, Edge.init.
    destruct (Model.is_mod m) eqn:Hm; simpl; rewrite ?Hm; eauto 10. }
  assert (∀ name degradation params im0, ∃ es,
    InternalModel.edges (exec (InternalModel.set_node_degradation name degradation params) im0)
    = InternalModel.edges im0 ++ es ∧ Forall edge_kind_ok es) as Hdeg.
  { intros name degradation params im0. unfold exec.
    destruct (set_node_degradation_effect name degradation params im0)
      as [(e & ->)|[(i & node & _ & _ & _ & ->)|(i & node & m & e & _ & _ & _ & _ & _ & ->)]];
      simpl.
    - exists []. by rewrite app_nil_r.
    - exists []. by rewrite app_nil_r.
    - eexists. split; [reflexivity|]. by constructor. }
  destruct c as [name degradation params|name degradation params
                |from_node to type is_mod mod_type params]; simpl.
  - fold (exec (InternalModel.add_node name degradation params) im).
    rewrite add_node_effect. cbv zeta.
    match goal with |- context [exec _ ?im1] =>
      destruct (Hdeg name degradation params im1) as (es & Hes & ?) end.
    exists es. split; [exact Hes|done].
  - apply Hdeg.
  - destruct (add_edge_effect from_node to type is_mod mod_type params im)
      as [(e & ->)|(m & _ & ->)]; simpl.
    + exists []. by rewrite app_nil_r.
    + eexists. split; [reflexivity|]. by constructor.
Qed.

Lemma names_index_nodes_init : names_index_nodes InternalModel.init.
Proof. split; [done|]. intros node Hn. by apply elem_of_nil in Hn. Qed.

Lemma names_index_nodes_set_degradation im i node d :
  InternalModel.nodes im !! i = Some node →
  names_index_nodes im →
  names_index_nodes (InternalModel.with_nodes <[i := Node.set_degradation node d]> im).
Proof.
  intros Hn [H1 H2].
  assert (Node.name <$> <[i := Node.set_degradation node d]> (InternalModel.nodes im)
          = Node.name <$> InternalModel.nodes im) as Hnames.
  { rewrite list_fmap_insert. apply list_insert_id. by rewrite list_lookup_fmap, Hn. }
  split; simpl.
  - intros name k Hk. rewrite <- list_lookup_fmap, Hnames, list_lookup_fmap. by apply H1.
  - intros node' Hin.
    assert (Node.name node' ∈ Node.name <$> InternalModel.nodes im) as Hin'.
    { rewrite <- Hnames. by apply list_elem_of_fmap_2. }
    apply list_elem_of_fmap in Hin' as (n0 & -> & Hn0). by apply H2.
Qed.

Lemma names_index_nodes_append im name :
  names_index_nodes im →
  names_index_nodes
    (InternalModel.with_node_names <[name := length (InternalModel.nodes im)]>
       (InternalModel.with_nodes (λ ns, ns ++ [Node.init name]) im)).
Proof.
  intros [H1 H2]. split; simpl.
  - intros n k Hk. destruct (decide (n = name)) as [->|Hne].
    + rewrite lookup_insert_eq in Hk. injection Hk as <-.
      by rewrite list_lookup_middle.
    + rewrite lookup_insert_ne in Hk by done.
      pose proof (H1 n k Hk) as Hn.
      destruct (InternalModel.nodes im !! k) as [node|] eqn:Hnode; [|done].
      by rewrite (lookup_app_l_Some _ _ _ _ Hnode).
  - intros node [Hin| ->%list_elem_of_singleton]%elem_of_app.
    + destruct (decide (Node.name node = name)) as [->|Hne].
      * rewrite lookup_insert_eq. eauto.
      * rewrite lookup_insert_ne by done. by apply H2.
    + simpl. rewrite lookup_insert_eq. eauto.
Qed.

Lemma names_index_nodes_edges im f g :
  names_index_nodes im →
  names_index_nodes (InternalModel.with_edges f (InternalModel.with_edge_counter g im)).
Proof. by intros [??]. Qed.

Lemma set_node_degradation_names name degradation params im :
  names_index_nodes im →
  names_index_nodes (exec (InternalModel.set_node_degradation name degradation params) im).
Proof.
  intros H. unfold exec.
  destruct (set_node_degradation_effect name degradation params im)
    as [(e & ->)|[(i & node & _ & Hn & _ & ->)|(i & node & m & e & _ & Hn & _ & _ & _ & ->)]];
    simpl; [done| |].
  - by apply names_index_nodes_set_degradation.
  - apply names_index_nodes_edges. by apply names_index_nodes_set_degradation.
Qed.

Lemma run_call_names im c : names_index_nodes im → names_index_nodes (run_call im c).
Proof.
  intros H. destruct c as [name degradation params|name degradation params
                          |from_node to type is_mod mod_type params]; simpl.
  - fold (exec (InternalModel.add_node name degradation params) im).
    rewrite add_node_effect. apply set_node_degradation_names.
    by apply names_index_nodes_append.
  - by apply set_node_degradation_names.
  - destruct (add_edge_effect from_node to type is_mod mod_type params im)
      as [(e & ->)|(m & _ & ->)]; simpl.
    + by destruct H.
    + by apply names_index_nodes_edges.
Qed.

Lemma build_from_names calls im :
  names_index_nodes im → names_index_nodes (foldl run_call im calls).
Proof.
  revert im. induction calls as [|c calls IH]; intros im H; simpl; [done|].
  apply IH. by apply run_call_names.
Qed.

Lemma build_from_edge_kinds calls im :
  Forall edge_kind_ok (InternalModel.edges im) →
  Forall edge_kind_ok (InternalModel.edges (foldl run_call im calls)).
Proof.
  revert im. induction calls as [|c calls IH]; intros im H; simpl; [done|].
  apply IH. destruct (run_call_edges im c) as (es & -> & Hes).
  apply Forall_app. done.
Qed.

(** X1: [add_node] stores the node and registers its name before it sets
    the degradation, so it does both even when it raises (an unknown
    degradation string, a parameter list that is too short): the name is
    listed last, it is looked up as the index of the new node, and the
    other names are looked up as before.  When it returns, it returns a
    node of that name that degrades exactly if a degradation was given. *)
Theorem X1_add_node_registers_name (im : InternalModel.t) (name : string)
    (degradation : option string) (params : option (list val)) :
  let im' := exec (InternalModel.add_node name degradation params) im in
  InternalModel.get_node_names im' = InternalModel.get_node_names im ++ [name] ∧
  InternalModel.get_node_id im' name = Ok (InternalModel.num_nodes im) ∧
  (∀ other, other ≠ name →
     InternalModel.get_node_id im' other = InternalModel.get_node_id im other) ∧
  (∀ node, eval (InternalModel.add_node name degradation params) im = Ok node →
     Node.name node = name ∧
     Node.degrades node = bool_decide (is_Some degradation)).
Proof.
  cbv zeta. unfold exec, eval. rewrite add_node_run. cbv zeta.
  set (im1 := InternalModel.with_node_names _ _).
  assert (InternalModel.node_names im1 !! name = Some (length (InternalModel.nodes im)))
    as Hname by apply lookup_insert_eq.
  assert (InternalModel.nodes im1 !! length (InternalModel.nodes im)
          = Some (Node.init name)) as Hnode by (by apply list_lookup_middle).
  assert (∀ d, Node.name <$> <[length (InternalModel.nodes im)
                               := Node.set_degradation (Node.init name) d]>
                             (InternalModel.nodes im1)
               = (Node.name <$> InternalModel.nodes im) ++ [name]) as Hnames.
  { intros d. rewrite list_fmap_insert. simpl. rewrite fmap_app. simpl.
    rewrite insert_app_r_alt by (rewrite length_fmap; lia).
    by rewrite length_fmap, Nat.sub_diag. }
  assert (∀ im2 : InternalModel.t,
            InternalModel.node_names im2 = InternalModel.node_names im1 →
            InternalModel.get_node_id im2 name = Ok (InternalModel.num_nodes im) ∧
            ∀ other, other ≠ name →
              InternalModel.get_node_id im2 other = InternalModel.get_node_id im other)
    as Hids.
  { intros im2 Heq. unfold InternalModel.get_node_id. rewrite Heq. split.
    - by rewrite Hname.
    - intros other Hne. simpl. by rewrite lookup_insert_ne. }
  unfold InternalModel.get_node_names.
  destruct (set_node_degradation_effect name degradation params im1)
    as [(e & ->)|[(i & node & Hi & Hn & -> & ->)|(i & node & m & e & Hi & Hn & Hd & _ & _ & ->)]];
    simpl.
  - split; [by rewrite fmap_app|]. split_and!; try apply Hids; done.
  - rewrite Hname in Hi. injection Hi as <-. rewrite Hnode in Hn. injection Hn as <-.
    split; [apply Hnames|]. split_and!; try apply Hids; try done.
    intros node. unfold InternalModel.get_node, InternalModel.get_node_id. simpl.
    rewrite lookup_insert_eq. simpl. unfold py_index.
    rewrite list_lookup_insert_eq by (rewrite length_app; simpl; lia).
    by intros [= <-].
  - rewrite Hname in Hi. injection Hi as <-. rewrite Hnode in Hn. injection Hn as <-.
    split; [apply Hnames|]. split_and!; try apply Hids; try done.
    intros node. unfold InternalModel.get_node, InternalModel.get_node_id. simpl.
    rewrite lookup_insert_eq. simpl. unfold py_index.
    rewrite list_lookup_insert_eq by (rewrite length_app; simpl; lia).
    intros [= <-]. simpl. split; [done|]. by rewrite !bool_decide_eq_true_2.
Qed.

(** X2: in a model built through its methods, whatever calls returned or
    raised on the way, the name dictionary and the node list agree: the
    names that can be looked up are the names of the nodes, [get_node] of
    such a name returns the node stored at the index [get_node_id] gives,
    and that node has this name; any other name is a [KeyError]. *)
Theorem X2_names_index_nodes (calls : list im_call) (name : string) :
  let im := build calls in
  (name ∈ InternalModel.get_node_names im ↔
     ∃ i, InternalModel.get_node_id im name = Ok i) ∧
  (∀ i, InternalModel.get_node_id im name = Ok i →
     ∃ node, InternalModel.get_node im name = Ok node ∧
             InternalModel.nodes im !! i = Some node ∧ Node.name node = name) ∧
  (name ∉ InternalModel.get_node_names im →
     InternalModel.get_node_id im name = Raise KeyError ∧
     InternalModel.get_node im name = Raise KeyError).
Proof.
  cbv zeta.
  pose proof (build_from_names calls _ names_index_nodes_init) as [H1 H2].
  fold (build calls) in H1, H2. set (im := build calls) in *.
  assert (∀ i, InternalModel.get_node_id im name = Ok i →
            ∃ node, InternalModel.get_node im name = Ok node ∧
                    InternalModel.nodes im !! i = Some node ∧ Node.name node = name) as Hget.
  { intros i Hi. unfold InternalModel.get_node. rewrite Hi. simpl.
    unfold InternalModel.get_node_id in Hi.
    destruct (InternalModel.node_names im !! name) as [k|] eqn:Hk; [|done].
    injection Hi as ->. pose proof (H1 name i Hk) as Hn.
    destruct (InternalModel.nodes im !! i) as [node|] eqn:Hnode; [|done].
    injection Hn as Hn. exists node. by rewrite (proj2 (py_index_Ok _ _ _) Hnode). }
  assert (name ∈ InternalModel.get_node_names im ↔
            ∃ i, InternalModel.get_node_id im name = Ok i) as Hiff.
  { split.
    - intros (node & -> & Hin)%list_elem_of_fmap.
      destruct (H2 node Hin) as [i Hi]. exists i.
      unfold InternalModel.get_node_id. by rewrite Hi.
    - intros [i Hi]. destruct (Hget i Hi) as (node & _ & Hnode & <-).
      apply list_elem_of_fmap. exists node. split; [done|].
      by eapply list_elem_of_lookup_2. }
  split; [done|]. split; [done|].
  intros Hnot. assert (InternalModel.get_node_id im name = Raise KeyError) as Hid.
  { unfold InternalModel.get_node_id.
    destruct (InternalModel.node_names im !! name) as [i|] eqn:Hi; [|done].
    exfalso. apply Hnot, Hiff. exists i. unfold InternalModel.get_node_id. by rewrite Hi. }
  split; [done|]. unfold InternalModel.get_node. by rewrite Hid.
Qed.

Lemma X2_names_index_nodes_witness :
  InternalModel.get_node_id im_one_edge "b" = Raise KeyError ∧
  InternalModel.get_node im_one_edge "b" = Raise KeyError.
Proof.
  apply (X2_names_index_nodes
           [Call_add_node "a" None None;
            Call_add_edge "a" (TNode "a") "lin_activ" false None (Some [vone])] "b").
  vm_compute. intros H. by repeat (apply elem_of_cons in H as [H|H]; [done|]);
    apply elem_of_nil in H.
Defined.

(** ** Edges: ids, kinds, and what no call takes away *)

Lemma filter_none {A} (P : A → Prop) `{∀ x, Decision (P x)} (l : list A) :
  Forall (λ x, ¬ P x) l → filter P l = [].
Proof.
  induction 1 as [|x l Hx _ IH]; [done|]. by rewrite filter_cons_False.
Qed.

Lemma get_edge_not_stored im id :
  id ∉ edge_ids im → InternalModel.get_edge im id = Raise IndexError.
Proof.
  intros Hid. unfold InternalModel.get_edge.
  rewrite filter_none; [done|].
  apply Forall_forall. intros e He Heq. apply Hid. unfold edge_ids.
  rewrite <- Heq. by apply list_elem_of_fmap_2.
Qed.

(** X3: [add_edge] and [get_edge] round-trip.  In a model built through
    its methods, a call of [add_edge] that returns has returned the value
    the counter had, the edge it stored is the last one and goes from
    [from_node], [get_edge] of the returned id gives back exactly that
    edge, and every other id is looked up as before the call. *)
Theorem X3_add_edge_then_get_edge (calls : list im_call) (from_node : string)
    (to : target) (type : string) (is_mod : bool) (mod_type : option string)
    (params : option (list val)) (im' : InternalModel.t) (eid : nat) :
  InternalModel.add_edge from_node to type is_mod mod_type params (build calls)
    = (im', Ok eid) →
  eid = InternalModel.edge_counter (build calls) ∧
  ∃ e, InternalModel.edges im' = InternalModel.edges (build calls) ++ [e] ∧
       InternalModel.get_edge im' eid = Ok e ∧
       Edge.edge_id e = eid ∧ Edge.from_node e = from_node ∧
       ∀ id, id ≠ eid →
         InternalModel.get_edge im' id = InternalModel.get_edge (build calls) id.
Proof.
  pose proof (build_from_fresh calls _ edge_ids_fresh_init) as [_ Hlt].
  fold (build calls) in Hlt. set (im := build calls) in *. intros Hadd.
  destruct (add_edge_effect from_node to type is_mod mod_type params im)
    as [(e & He)|(m & _ & He)]; rewrite He in Hadd; [done|].
  injection Hadd as <- <-. split; [done|].
  eexists. split; [reflexivity|].
  assert (∀ f t k, Edge.from_node (Edge.init f t m k) = f) as Hfrom.
  { intros. unfold Edge.init. by destruct (Model.is_mod m). }
  rewrite edge_init_id, Hfrom. unfold InternalModel.get_edge. simpl.
  split_and!; try done.
  - rewrite filter_app, filter_cons_True, filter_nil by apply edge_init_id.
    rewrite filter_none; [done|].
    apply Forall_forall. intros e He' Heq.
    rewrite Forall_forall in Hlt. specialize (Hlt (Edge.edge_id e)).
    unfold edge_ids in Hlt. rewrite Heq in Hlt.
    assert (InternalModel.edge_counter im < InternalModel.edge_counter im); [|lia].
    apply Hlt. rewrite <- Heq. by apply list_elem_of_fmap_2.
  - intros id Hid. rewrite filter_app, filter_cons_False, filter_nil, app_nil_r; [done|].
    rewrite edge_init_id. done.
Qed.

Lemma X3_add_edge_then_get_edge_witness :
  1 = InternalModel.edge_counter (build [Call_add_node "a" (Some "linear") (Some [vone])]) ∧
  ∃ e, InternalModel.edges
         (exec (InternalModel.add_edge "a" (TNode "a") "lin_activ" false None (Some [vone]))
               (build [Call_add_node "a" (Some "linear") (Some [vone])]))
       = InternalModel.edges (build [Call_add_node "a" (Some "linear") (Some [vone])]) ++ [e] ∧
       InternalModel.get_edge
         (exec (InternalModel.add_edge "a" (TNode "a") "lin_activ" false None (Some [vone]))
               (build [Call_add_node "a" (Some "linear") (Some [vone])])) 1 = Ok e ∧
       Edge.edge_id e = 1 ∧ Edge.from_node e = "a" ∧
       ∀ id, id ≠ 1 →
         InternalModel.get_edge
           (exec (InternalModel.add_edge "a" (TNode "a") "lin_activ" false None (Some [vone]))
                 (build [Call_add_node "a" (Some "linear") (Some [vone])])) id
         = InternalModel.get_edge (build [Call_add_node "a" (Some "linear") (Some [vone])]) id.
Proof.
  apply (X3_add_edge_then_get_edge [Call_add_node "a" (Some "linear") (Some [vone])]
           "a" (TNode "a") "lin_activ" false None (Some [vone])).
  reflexivity.
Defined.

(** X4: an id that was never given out is not found.  In a model built
    through its methods every edge id is below the counter, so [get_edge]
    of the counter's value or of anything above it raises [IndexError];
    and a call of [add_edge] that raises (unknown type, too few
    parameters) stores no edge and still moves the counter, so the id it
    used up stays unknown. *)
Theorem X4_unknown_edge_id (calls : list im_call) :
  (∀ id, InternalModel.edge_counter (build calls) ≤ id →
     InternalModel.get_edge (build calls) id = Raise IndexError) ∧
  (∀ from_node to type is_mod mod_type params e,
     eval (InternalModel.add_edge from_node to type is_mod mod_type params) (build calls)
       = Raise e →
     let im' := exec (InternalModel.add_edge from_node to type is_mod mod_type params)
                     (build calls) in
     InternalModel.edges im' = InternalModel.edges (build calls) ∧
     InternalModel.edge_counter im' = S (InternalModel.edge_counter (build calls)) ∧
     InternalModel.get_edge im' (InternalModel.edge_counter (build calls))
       = Raise IndexError).
Proof.
  pose proof (build_from_fresh calls _ edge_ids_fresh_init) as [_ Hlt].
  fold (build calls) in Hlt. set (im := build calls) in *.
  assert (∀ id, InternalModel.edge_counter im ≤ id → id ∉ edge_ids im) as Hnot.
  { intros id Hid Hin. rewrite Forall_forall in Hlt. apply Hlt in Hin. lia. }
  split.
  - intros id Hid. by apply get_edge_not_stored, Hnot.
  - intros from_node to type is_mod mod_type params e. unfold eval, exec.
    destruct (add_edge_effect from_node to type is_mod mod_type params im)
      as [(e' & ->)|(m & _ & ->)]; [|done].
    intros _. cbv zeta. simpl. split_and!; try done.
    apply (get_edge_not_stored (InternalModel.with_edge_counter S im)), Hnot. done.
Qed.

(** X5: no call takes an edge away or changes one.  After any call on any
    model, returned or raised, the contributions to every node and the
    modifiers of every edge are those of before, in the same order,
    possibly followed by a new one.  In particular
    [set_node_degradation(name, None)] clears the flags of the node and
    leaves an earlier degradation edge among its contributions. *)
Theorem X5_edges_are_kept (im : InternalModel.t) (c : im_call) :
  (∀ N, InternalModel.get_contributions im N
          `prefix_of` InternalModel.get_contributions (run_call im c) N) ∧
  (∀ k, InternalModel.get_modifiers im k
          `prefix_of` InternalModel.get_modifiers (run_call im c) k) ∧
  (∀ name params i node,
     c = Call_set_node_degradation name None params →
     InternalModel.node_names im !! name = Some i →
     InternalModel.nodes im !! i = Some node →
     ∃ node', InternalModel.get_node (run_call im c) name = Ok node' ∧
              Node.degrades node' = false ∧ Node.degradation node' = None ∧
              InternalModel.get_contributions (run_call im c) name
              = InternalModel.get_contributions im name).
Proof.
  destruct (run_call_edges im c) as (es & Hes & _).
  split_and!.
  - intros N. unfold InternalModel.get_contributions.
    rewrite Hes, filter_app. by apply prefix_app_r.
  - intros k. unfold InternalModel.get_modifiers.
    rewrite Hes, filter_app. by apply prefix_app_r.
  - intros name params i node -> Hi Hn. simpl.
    destruct (set_node_degradation_effect name None params im)
      as [(e & He)|[(i' & node' & Hi' & Hn' & _ & He)
                   |(i' & node' & m & e & _ & _ & [? Hd] & _)]]; [| |done].
    + exfalso. revert He.
      unfold InternalModel.set_node_degradation, InternalModel.get_node_id.
      unfold mbind, st_bind, st_get, st_modify, st_lift, st_raise, mret, st_ret. simpl.
      rewrite Hi. simpl. rewrite (proj2 (py_index_Ok _ _ _) Hn). simpl. done.
    + clear Hes. rewrite He. simpl.
      rewrite Hi in Hi'. injection Hi' as <-. rewrite Hn in Hn'. injection Hn' as <-.
      eexists. split_and!.
      * unfold InternalModel.get_node, InternalModel.get_node_id. simpl. rewrite Hi. simpl.
        apply py_index_Ok. apply list_lookup_insert_eq. by eapply lookup_lt_Some.
      * done.
      * done.
      * done.
Qed.

Lemma X5_edges_are_kept_witness :
  ∃ node', InternalModel.get_node
             (run_call (build [Call_add_node "a" (Some "linear") (Some [vone])])
                       (Call_set_node_degradation "a" None None)) "a" = Ok node' ∧
           Node.degrades node' = false ∧ Node.degradation node' = None ∧
           InternalModel.get_contributions
             (run_call (build [Call_add_node "a" (Some "linear") (Some [vone])])
                       (Call_set_node_degradation "a" None None)) "a"
           = InternalModel.get_contributions
               (build [Call_add_node "a" (Some "linear") (Some [vone])]) "a".
Proof.
  refine (proj2 (proj2 (X5_edges_are_kept
            (build [Call_add_node "a" (Some "linear") (Some [vone])])
            (Call_set_node_degradation "a" None None))) "a" None 0 _ _ _ _).
  - reflexivity.
  - reflexivity.
  - reflexivity.
Defined.

(** X6: in a model built through its methods every edge is of one kind,
    the one its term has.  A modifier points at an edge and is never among
    the contributions to a node; a contribution points at a node and is
    never among the modifiers of an edge.  Degradations and constant
    productions are never modifiers: [ConstantProduction] takes no
    [is_mod], so a ['const_prod'] edge asked for with [is_mod=True] is
    stored as a contribution. *)
Theorem X6_edge_is_modifier_or_contribution (calls : list im_call) (e : Edge.t) :
  e ∈ InternalModel.edges (build calls) →
  Edge.is_mod e = Model.is_mod (Edge.model_ e) ∧
  Edge.mod_type e = Model.mod_type (Edge.model_ e) ∧
  (Edge.is_mod e = true →
     is_Some (Edge.to_edge e) ∧
     ∀ N, e ∉ InternalModel.get_contributions (build calls) N) ∧
  (Edge.is_mod e = false →
     is_Some (Edge.to_node e) ∧
     ∀ k, e ∉ InternalModel.get_modifiers (build calls) k) ∧
  (match Edge.model_ e with
   | ConstantProduction _ | LinearDegradation _ | ParabolicDegradation _ =>
       Edge.is_mod e = false
   | _ => True
   end).
Proof.
  intros He.
  pose proof (build_from_edge_kinds calls InternalModel.init (Forall_nil_2 _)) as Hk.
  fold (build calls) in Hk. rewrite Forall_forall in Hk.
  destruct (Hk e He) as (Hmod & Hty & Hkind). split_and!; try done.
  - intros Htrue. rewrite Htrue in Hkind. destruct Hkind as [Hto ?]. split; [done|].
    intros N [HN _]%list_elem_of_filter. by rewrite Hto in HN.
  - intros Hfalse. rewrite Hfalse in Hkind. destruct Hkind as [Hto ?]. split; [done|].
    intros k [[_ Hm] _]%list_elem_of_filter. by rewrite Hfalse in Hm.
  - rewrite Hmod. by destruct (Edge.model_ e).
Qed.

Lemma X6_edge_is_modifier_or_contribution_witness :
  ∃ e, InternalModel.edges
         (build [Call_add_node "a" None None;
                 Call_add_edge "a" (TEdge 7) "const_prod" true (Some "mult") (Some [vone])])
       !! 0 = Some e ∧
       Edge.is_mod e = false ∧ is_Some (Edge.to_node e) ∧
       ∀ k, e ∉ InternalModel.get_modifiers
                  (build [Call_add_node "a" None None;
                          Call_add_edge "a" (TEdge 7) "const_prod" true (Some "mult")
                            (Some [vone])]) k.
Proof.
  eexists. split; [reflexivity|].
  match goal with |- Edge.is_mod ?e = _ ∧ _ =>
    pose proof (X6_edge_is_modifier_or_contribution
      [Call_add_node "a" None None;
       Call_add_edge "a" (TEdge 7) "const_prod" true (Some "mult") (Some [vone])] e)
      as H end.
  destruct H as (_ & _ & _ & Hc & Hm).
  - apply list_elem_of_lookup. exists 0. reflexivity.
  - split; [exact Hm|]. apply Hc. exact Hm.
Defined.

(** ** The reaction terms *)











Lemma mapM'_app {A B} (f : A → result B) (l k : list A) :
  mapM' f (l ++ k) = (a ← mapM' f l; b ← mapM' f k; Ok (a ++ b)).
Proof.
  induction l as [|x l IH]; simpl.
  - by destruct (mapM' f k).
  - destruct (f x) as [y|e]; simpl; [|done]. rewrite IH.
    destruct (mapM' f l) as [a|e]; simpl; [|done].
    by destruct (mapM' f k).
Qed.

(** X8: the terms of an internal model act on each compartment by itself.
    The vector a term returns for the concentrations [x ++ y] is the
    vector it returns for [x] followed by the one it returns for [y], and
    it raises exactly when one of the two raises, the first one first; so
    an entry of the result depends on the entry at the same place of the
    input only, and the result is as long as the input. *)
Theorem X8_terms_act_entrywise (m : model) (x y : list val) :
  (∀ C dist_pre cmask, m ≠ Diffusion C dist_pre cmask) →
  Model.apply m (x ++ y)
  = (a ← Model.apply m x; b ← Model.apply m y; Ok (a ++ b)) ∧
  ∀ r, Model.apply m x = Ok r → length r = length x.
Proof.
  intros Hm. split; [|intros r; apply apply_length].
  destruct m as [p|? ? p|? ? p|? ? p|p|p|C d c]; simpl;
    try (destruct p as [C|]; simpl; [|done]; by rewrite ?length_app, ?replicate_add, ?fmap_app).
  - destruct p as [[[C A] n]|]; simpl; [|done]. apply mapM'_app.
  - destruct p as [[[[D C] A] n]|]; simpl; [|done]. apply mapM'_app.
  - by destruct (Hm C d c).
Qed.

Lemma X8_terms_act_entrywise_witness :
  Model.apply (LinearDegradation (Some (vint 2))) ([vone] ++ [vint 3])
  = (a ← Model.apply (LinearDegradation (Some (vint 2))) [vone];
     b ← Model.apply (LinearDegradation (Some (vint 2))) [vint 3]; Ok (a ++ b)) ∧
  ∀ r, Model.apply (LinearDegradation (Some (vint 2))) [vone] = Ok r →
       length r = length [vone].
Proof.
  apply (X8_terms_act_entrywise (LinearDegradation (Some (vint 2))) [vone] [vint 3]).
  discriminate.
Defined.

(** ** Diffusion: the distance prefactors *)

Lemma sq_diff_sym a b : vpow (vsub a b) 2 = vpow (vsub b a) 2.
Proof.
  destruct a as [|a], b as [|b]; try done. unfold vpow, vsub, vlift2.
  rewrite decide_False by done. rewrite decide_True by done. f_equal.
  simpl. ring.
Qed.

Lemma sqeuclidean_sym u v : Model.sqeuclidean u v = Model.sqeuclidean v u.
Proof.
  unfold Model.sqeuclidean. f_equal.
  revert v. induction u as [|a u IH]; intros [|b v]; try done.
  simpl. by rewrite IH, sq_diff_sym.
Qed.

Lemma foldl_vadd_NaN l : foldl vadd NaN l = NaN.
Proof. induction l as [|a l IH]; [done|]. simpl. exact IH. Qed.

(** A point is at distance zero from itself, or at no distance at all
    when one of its coordinates is not a number. *)
Lemma sqeuclidean_self u :
  Model.sqeuclidean u u = vzero ∨ Model.sqeuclidean u u = NaN.
Proof.
  unfold Model.sqeuclidean, vsum.
  induction u as [|a u IH]; [by left|]. cbn [zip_with foldl].
  destruct a as [|a].
  - right. cbn. apply foldl_vadd_NaN.
  - assert (vadd vzero (vpow (vsub (Fin a) (Fin a)) 2) = vzero) as ->; [|done].
    unfold vpow, vsub, vadd, vlift2, vzero.
    rewrite decide_False by done. rewrite decide_True by done. f_equal. simpl. ring.
Qed.

Lemma mapM'_raises {A B} (f : A → result B) (e : exn) (l : list A) :
  Forall (λ x, is_Some (match f x with Ok y => Some y | Raise _ => None end) ∨
               f x = Raise e) l →
  Exists (λ x, f x = Raise e) l →
  mapM' f l = Raise e.
Proof.
  induction l as [|x l IH]; intros Hall Hex; [by apply Exists_nil in Hex|].
  apply Forall_cons in Hall as [Hx Hall]. simpl.
  destruct (f x) as [y|e'] eqn:Hfx; simpl.
  - apply Exists_cons in Hex as [Hex|Hex]; [congruence|]. by rewrite IH.
  - destruct Hx as [[? Hx]|Hx]; [done|]. by injection Hx as ->.
Qed.

(** X9: the distance prefactors of a diffusion term.  [set_dist_pre]
    raises [ValueError] when there is no cell or when a cell has no
    position.  When it returns, the matrix has one row and one column per
    cell, it is symmetric, and its diagonal is zero whatever the
    connections say: a cell is at distance zero from itself, and the
    inverse of a zero distance is masked and filled with [0]. *)
Theorem X9_distance_prefactors (positions : list (option (list val))) :
  (positions = [] → Model.set_dist_pre positions = Raise ValueError) ∧
  (None ∈ positions → Model.set_dist_pre positions = Raise ValueError) ∧
  (∀ dist_pre, Model.set_dist_pre positions = Ok dist_pre →
     shape dist_pre = (length positions, length positions) ∧
     ∀ i j, cell dist_pre i j = cell dist_pre j i ∧ cell dist_pre i i = vzero).
Proof.
  unfold Model.set_dist_pre. split_and!.
  - by intros ->.
  - intros Hin. destruct positions as [|[p0|] positions]; [done| |done].
    cbn [Model.positions_array]. rewrite (mapM'_raises _ ValueError); [done| |].
    + apply Forall_forall. intros [q|] _; [|by right].
      case_decide; [left; eauto | by right].
    + apply Exists_exists. exists None. done.
  - intros dist_pre H. apply bind_Ok in H as (pos & Hpos & [= <-]).
    cbn [nrows ncols cell shape]. split.
    + assert (length pos = length positions) as ->; [|done].
      destruct positions as [|[p0|] positions]; [done| |done].
      cbn [Model.positions_array] in Hpos. by apply mapM'_length in Hpos.
    + intros i j. split; [by rewrite sqeuclidean_sym|].
      by destruct (sqeuclidean_self (pos !!! i)) as [-> | ->].
Qed.

(** ** Diffusion: what the term computes on finite data *)














(** ** Building a simulation: what each method does to it *)

Lemma st_for_unchanged {S A} (l : list A) (body : A → st S unit) (s : S) :
  (∀ x, x ∈ l → body x s = (s, Ok tt)) → st_for l body s = (s, Ok tt).
Proof.
  induction l as [|x l IH]; intros H; [done|].
  rewrite st_for_cons, H by left. apply IH. intros. apply H. by right.
Qed.

Lemma mapM'_py_index_Ok {A} (cells : list A) (ids : list nat) :
  Forall (λ cid, cid < length cells) ids →
  ∃ cs, mapM' (py_index cells) ids = Ok cs.
Proof.
  induction 1 as [|cid ids Hcid _ [cs IH]]; simpl; [eauto|].
  destruct (lookup_lt_is_Some_2 cells cid Hcid) as [c Hc].
  rewrite (proj2 (py_index_Ok _ _ _) Hc). simpl. rewrite IH. simpl. eauto.
Qed.

Lemma mapM'_py_index_Raise {A} (cells : list A) (ids : list nat) :
  ¬ Forall (λ cid, cid < length cells) ids →
  mapM' (py_index cells) ids = Raise IndexError.
Proof.
  intros H. apply (mapM'_raises _ IndexError).
  - apply Forall_forall. intros cid _. unfold py_index.
    destruct (cells !! cid); [left; eauto | by right].
  - apply not_Forall_Exists in H; [|apply _].
    eapply Exists_impl; [exact H|]. simpl. intros cid Hcid. unfold py_index.
    rewrite (proj2 (lookup_ge_None _ _)); [done|lia].
Qed.

(** The loop of [set_internal_model] over cells that exist. *)
Lemma set_IM_loop (sim : Simulation.t) (im : InternalModel.t) (IM_id : nat)
    (ids : list nat) (sim0 : Simulation.t) :
  Simulation.IMs sim !! IM_id = Some im →
  Forall (λ cid, cid < length (Simulation.cells sim0)) ids →
  st_for ids (λ cid,
      im ← st_lift (py_index (Simulation.IMs sim) IM_id);
      Simulation.on_cell cid (st_modify (Cell.set_IM im))) sim0
  = (Simulation.with_cells
       (λ cs, foldl (λ cs cid, alter (Cell.set_IM im) cid cs) cs ids) sim0, Ok tt).
Proof.
  intros Him.
  set (body := λ cid : nat,
         im ← st_lift (py_index (Simulation.IMs sim) IM_id);
         Simulation.on_cell cid (st_modify (Cell.set_IM im))).
  assert (∀ cid s c, Simulation.cells s !! cid = Some c →
            body cid s = (Simulation.with_cells <[cid := Cell.set_IM im c]> s, Ok tt))
    as Hbody.
  { intros cid s c Hc. unfold body.
    rewrite st_lift_bind, (proj2 (py_index_Ok _ _ _) Him).
    unfold Simulation.on_cell. by rewrite Hc. }
  clearbody body. revert sim0. induction ids as [|cid ids IH]; intros sim0 Hids.
  - by destruct sim0.
  - apply Forall_cons in Hids as [Hcid Hids]. rewrite st_for_cons.
    destruct (lookup_lt_is_Some_2 _ _ Hcid) as [c Hc]. rewrite (Hbody _ _ _ Hc).
    rewrite IH by (simpl; by rewrite length_insert).
    f_equal. destruct sim0. unfold Simulation.with_cells. simpl. f_equal.
    simpl in Hc. f_equal. apply list_eq. intros k.
    destruct (decide (k = cid)) as [->|Hne].
    + rewrite list_lookup_insert_eq by (by eapply lookup_lt_Some).
      by rewrite list_lookup_alter_eq, Hc.
    + rewrite list_lookup_insert_ne by done.
      by rewrite list_lookup_alter_ne.
Qed.

Lemma foldl_alter_length {A} (f : A → A) (ids : list nat) (cs : list A) :
  length (foldl (λ cs cid, alter f cid cs) cs ids) = length cs.
Proof.
  revert cs. induction ids as [|cid ids IH]; intros cs; [done|].
  simpl. by rewrite IH, length_alter.
Qed.

Lemma foldl_alter_lookup {A} (f : A → A) (ids : list nat) (cs : list A) k :
  (∀ c, f (f c) = f c) →
  foldl (λ cs cid, alter f cid cs) cs ids !! k
  = (if decide (k ∈ ids) then f else id) <$> cs !! k.
Proof.
  intros Hidem. revert cs. induction ids as [|cid ids IH]; intros cs.
  - cbn [foldl]. case_decide as Hin; [by apply elem_of_nil in Hin|]. by destruct (cs !! k).
  - cbn [foldl]. rewrite IH. destruct (decide (k = cid)) as [->|Hne].
    + rewrite list_lookup_alter_eq.
      destruct (decide (cid ∈ cid :: ids)) as [_|Hnin]; [|exfalso; apply Hnin; left].
      destruct (cs !! cid) as [c|]; [|done]. simpl.
      case_decide; simpl; by rewrite ?Hidem.
    + rewrite list_lookup_alter_ne by done.
      destruct (decide (k ∈ ids)) as [Hin|Hnin].
      * destruct (decide (k ∈ cid :: ids)) as [_|Hn]; [done|]. exfalso. apply Hn. by right.
      * destruct (decide (k ∈ cid :: ids)) as [Hn|_]; [|done].
        by apply elem_of_cons in Hn as [?|?].
Qed.

(** What [set_internal_model] does, on a simulation with one group per
    model. *)
Lemma set_internal_model_effect (sim : Simulation.t) (cell_id_list : list nat)
    (IM_id : nat) :
  length (Simulation.IM_cells sim) = length (Simulation.IMs sim) →
  (¬ (Forall (λ cid, cid < Simulation.num_cells sim) cell_id_list ∧
      IM_id < length (Simulation.IMs sim)) →
     Simulation.set_internal_model cell_id_list IM_id sim = (sim, Raise IndexError)) ∧
  (∀ im, Forall (λ cid, cid < Simulation.num_cells sim) cell_id_list →
     Simulation.IMs sim !! IM_id = Some im →
     Simulation.set_internal_model cell_id_list IM_id sim
     = (Simulation.with_IM_cells (alter (λ l, l ++ cell_id_list) IM_id)
          (Simulation.with_cells
             (λ cs, foldl (λ cs cid, alter (Cell.set_IM im) cid cs) cs cell_id_list)
             sim), Ok tt)).
Proof.
  intros Hlen. unfold Simulation.set_internal_model, Simulation.num_cells. split.
  - intros Hbad. rewrite st_bind_unfold. cbn [st_get]. rewrite st_lift_bind.
    destruct (decide (Forall (λ cid, cid < length (Simulation.cells sim)) cell_id_list))
      as [Hids|Hids]; [|by rewrite mapM'_py_index_Raise].
    destruct (mapM'_py_index_Ok _ _ Hids) as [cs ->].
    assert (¬ IM_id < length (Simulation.IMs sim)) as HIM by tauto.
    assert (py_index (Simulation.IMs sim) IM_id = Raise IndexError) as HIMs.
    { unfold py_index. rewrite (proj2 (lookup_ge_None _ _)); [done|lia]. }
    rewrite st_bind_unfold.
    destruct cell_id_list as [|cid ids].
    + cbn [st_for mret st_ret]. rewrite st_lift_bind.
      unfold py_index. rewrite (proj2 (lookup_ge_None _ _)); [done|lia].
    + rewrite st_for_cons, st_lift_bind, HIMs. done.
  - intros im Hids Him. rewrite st_bind_unfold. cbn [st_get]. rewrite st_lift_bind.
    destruct (mapM'_py_index_Ok _ _ Hids) as [cs ->].
    rewrite st_bind_unfold, (set_IM_loop sim im IM_id cell_id_list sim Him Hids).
    rewrite st_lift_bind.
    destruct (lookup_lt_is_Some_2 (Simulation.IM_cells sim) IM_id) as [g Hg].
    { rewrite Hlen. by eapply lookup_lt_Some. }
    by rewrite (proj2 (py_index_Ok _ _ _) Hg).
Qed.

(** X13: initial conditions set before the model are lost without a word.
    [set_initial_conditions] on cells that exist and have no model yet
    returns normally and leaves the simulation exactly as it was
    ([Cell.set_IC] prints and returns), so [set_internal_model] has to
    come first; on a cell id that does not exist it raises [IndexError]
    before it has touched any cell. *)
Theorem X13_initial_conditions_need_model (sim : Simulation.t)
    (cell_id_list : list nat) (IC : gmap string val) :
  (Forall (λ cid, ∃ c, Simulation.cells sim !! cid = Some c ∧ Cell.IM c = None)
          cell_id_list →
     Simulation.set_initial_conditions cell_id_list IC sim = (sim, Ok tt)) ∧
  (¬ Forall (λ cid, cid < Simulation.num_cells sim) cell_id_list →
     Simulation.set_initial_conditions cell_id_list IC sim = (sim, Raise IndexError)).
Proof.
  unfold Simulation.set_initial_conditions, Simulation.num_cells. split.
  - intros Hall. rewrite st_bind_unfold. cbn [st_get]. rewrite st_lift_bind.
    destruct (mapM'_py_index_Ok (Simulation.cells sim) cell_id_list) as [cs ->].
    { eapply Forall_impl; [exact Hall|]. simpl. intros cid (c & Hc & _).
      by eapply lookup_lt_Some. }
    apply st_for_unchanged. intros cid Hcid.
    rewrite Forall_forall in Hall. destruct (Hall cid Hcid) as (c & Hc & HIM).
    rewrite st_bind_unfold. unfold Simulation.on_cell. rewrite Hc.
    unfold Cell.set_IC. rewrite st_bind_unfold. cbn [st_get]. rewrite HIM.
    cbn [mret st_ret]. by rewrite with_cells_insert_id.
  - intros Hbad. rewrite st_bind_unfold. cbn [st_get]. rewrite st_lift_bind.
    by rewrite mapM'_py_index_Raise.
Qed.

Lemma X13_initial_conditions_need_model_witness :
  Simulation.set_initial_conditions [0] {[ "a" := vone ]}
    (sim_build [Sim_add_cell (Some [vone]); Sim_add_internal_model im_one_edge])
  = (sim_build [Sim_add_cell (Some [vone]); Sim_add_internal_model im_one_edge], Ok tt).
Proof.
  apply (proj1 (X13_initial_conditions_need_model
                  (sim_build [Sim_add_cell (Some [vone]);
                              Sim_add_internal_model im_one_edge])
                  [0] {[ "a" := vone ]})).
  repeat constructor. eexists. split; reflexivity.
Defined.

(** ** Simulations built through their methods *)

Lemma sim_well_formed_init : sim_well_formed Simulation.init.
Proof. repeat split; constructor. Qed.

Lemma on_cell_shape {A} cid (m : st Cell.t A) sim :
  ∃ cells', fst (Simulation.on_cell cid m sim) = Simulation.with_cells (λ _, cells') sim ∧
            length cells' = length (Simulation.cells sim).
Proof.
  unfold Simulation.on_cell. destruct (Simulation.cells sim !! cid) as [c|].
  - destruct (m c) as [c' r]. simpl. exists (<[cid := c']> (Simulation.cells sim)).
    split; [by destruct sim|]. by rewrite length_insert.
  - simpl. exists (Simulation.cells sim). split; [by destruct sim|done].
Qed.

(** A loop whose steps change the cells only, and not their number. *)
Lemma st_for_cells_only {A} (l : list A) (body : A → st Simulation.t unit) sim :
  (∀ x s, ∃ cells', fst (body x s) = Simulation.with_cells (λ _, cells') s ∧
                    length cells' = length (Simulation.cells s)) →
  ∃ cells', fst (st_for l body sim) = Simulation.with_cells (λ _, cells') sim ∧
            length cells' = length (Simulation.cells sim).
Proof.
  intros Hbody. revert sim. induction l as [|x l IH]; intros sim.
  - exists (Simulation.cells sim). split; [by destruct sim|done].
  - rewrite st_for_cons. destruct (Hbody x sim) as (cells1 & H1 & Hlen1).
    destruct (body x sim) as [s1 [[]|e]]; simpl in H1; subst s1.
    + destruct (IH (Simulation.with_cells (λ _, cells1) sim)) as (cells2 & H2 & Hlen2).
      exists cells2. rewrite H2. split; [by destruct sim|]. simpl in Hlen2. congruence.
    + simpl. eauto.
Qed.

Lemma set_initial_conditions_shape cell_id_list IC sim :
  ∃ cells', exec (Simulation.set_initial_conditions cell_id_list IC) sim
            = Simulation.with_cells (λ _, cells') sim ∧
            length cells' = length (Simulation.cells sim).
Proof.
  unfold exec, Simulation.set_initial_conditions.
  rewrite st_bind_unfold. cbn [st_get]. rewrite st_lift_bind.
  destruct (mapM' _ _) as [cs|e].
  - apply st_for_cells_only. intros cid s. rewrite st_bind_unfold.
    destruct (on_cell_shape cid (Cell.set_IC IC) s) as (cells' & H & Hlen).
    exists cells'. destruct (Simulation.on_cell cid (Cell.set_IC IC) s) as [s' [r|e]];
      simpl in *; done.
  - simpl. exists (Simulation.cells sim). split; [by destruct sim|done].
Qed.

Lemma with_cells_well_formed sim cells' :
  length cells' = length (Simulation.cells sim) →
  sim_well_formed sim → sim_well_formed (Simulation.with_cells (λ _, cells') sim).
Proof.
  intros Hlen (H1 & H2 & H3 & H4 & H5). unfold sim_well_formed, Simulation.num_cells in *.
  simpl. rewrite Hlen. done.
Qed.

Lemma new_Diffusion_is_diffusion connections positions params m :
  Model.new_Diffusion connections positions params = Ok m →
  ∃ C dist_pre cmask, m = Diffusion C dist_pre cmask.
Proof.
  unfold Model.new_Diffusion. intros H.
  apply bind_Ok in H as (C & _ & H). apply bind_Ok in H as (d & _ & [= <-]). eauto.
Qed.

Lemma add_interaction_effect from_node to type connections IM_id is_mod mod_type params sim :
  (∃ e, Simulation.add_interaction from_node to type connections IM_id is_mod mod_type
          params sim = (Simulation.with_int_counter S sim, Raise e)) ∨
  (∃ i, plain_diffusion i ∧ Interaction.int_id i = Simulation.int_counter sim ∧
        Interaction.from_node i = from_node ∧ Interaction.to_node i = Some to ∧
        Simulation.add_interaction from_node to type connections IM_id is_mod mod_type
          params sim
        = (Simulation.with_interactions (λ l, l ++ [i]) (Simulation.with_int_counter S sim),
           Ok (Simulation.int_counter sim))).
Proof.
  unfold Simulation.add_interaction, Simulation.get_int_model.
  rewrite st_bind_unfold. cbn [st_get]. rewrite st_bind_unfold. cbn [st_modify].
  rewrite st_lift_bind. case_decide; [|left; eauto].
  destruct (Model.new_Diffusion _ _ _) as [m|e] eqn:Hm; simpl; [|left; eauto].
  destruct (new_Diffusion_is_diffusion _ _ _ _ Hm) as (C & d & c & ->).
  right. eexists. split_and!; [| | | |reflexivity]; try done.
  unfold plain_diffusion. simpl. eauto 10.
Qed.

Lemma add_cell_effect c sim :
  Simulation.add_cell c sim
  = (Simulation.with_cells
       (λ cs, alter (Cell.set_cell_id (length (cs ++ [c]) - 1))
                    (length (cs ++ [c]) - 1) (cs ++ [c])) sim,
     Ok (length (Simulation.cells sim ++ [c]) - 1)).
Proof. by destruct sim. Qed.

Lemma add_internal_model_effect im sim :
  Simulation.add_internal_model im sim
  = (Simulation.with_IM_cells (λ l, l ++ [[]]) (Simulation.with_IMs (λ l, l ++ [im]) sim),
     Ok (length (Simulation.IMs sim ++ [im]) - 1)).
Proof. by destruct sim. Qed.

Lemma sim_run_call_well_formed sim c :
  sim_well_formed sim → sim_well_formed (sim_run_call sim c).
Proof.
  intros Hwf. pose proof Hwf as (H1 & H2 & H3 & H4 & H5).
  destruct c as [position|im|cell_id_list IM_id|cell_id_list IC
                |from_node to type connections IM_id is_mod mod_type params|]; simpl.
  - unfold sim_well_formed, Simulation.num_cells in *.
    unfold exec. rewrite add_cell_effect. cbn.
    rewrite length_alter, length_app. split_and!; try done.
    eapply Forall_impl; [exact H2|]. simpl. intros g Hg.
    eapply Forall_impl; [exact Hg|]. simpl. intros; lia.
  - unfold sim_well_formed, Simulation.num_cells in *.
    unfold exec. rewrite add_internal_model_effect. cbn.
    rewrite !length_app, H1. split_and!; try done.
    apply Forall_app. split; [done|]. by repeat constructor.
  - unfold exec.
    destruct (decide (Forall (λ cid, cid < Simulation.num_cells sim) cell_id_list ∧
                      IM_id < length (Simulation.IMs sim))) as [[Hids HIM]|Hbad].
    + destruct (lookup_lt_is_Some_2 _ _ HIM) as [im Him].
      rewrite (proj2 (set_internal_model_effect sim cell_id_list IM_id H1) im Hids Him).
      unfold sim_well_formed, Simulation.num_cells in *.
      cbn [fst Simulation.with_cells Simulation.with_IM_cells
           Simulation.cells Simulation.IMs Simulation.IM_cells Simulation.interactions
           Simulation.int_counter].
      rewrite foldl_alter_length, length_alter.
      split_and!; try done.
      apply Forall_alter; [done|]. intros g _ Hg. apply Forall_app. done.
    + by rewrite (proj1 (set_internal_model_effect sim cell_id_list IM_id H1) Hbad).
  - destruct (set_initial_conditions_shape cell_id_list IC sim) as (cells' & -> & Hlen).
    by apply with_cells_well_formed.
  - unfold exec.
    destruct (add_interaction_effect from_node to type connections IM_id is_mod mod_type
                params sim) as [(e & ->)|(i & Hi & Hid & _ & _ & ->)]; simpl.
    + unfold sim_well_formed in *. simpl. split_and!; try done.
      eapply Forall_impl; [exact H5|]. simpl. intros; lia.
    + unfold sim_well_formed in *. simpl. rewrite fmap_app. simpl. split_and!; try done.
      * apply Forall_app. split; [done|]. by apply Forall_singleton.
      * apply NoDup_app. split; [done|]. split; [|apply NoDup_singleton].
        intros x Hx ->%list_elem_of_singleton.
        apply list_elem_of_fmap in Hx as (i' & Heq & Hin).
        rewrite Forall_forall in H5. apply H5 in Hin. lia.
      * apply Forall_app. split.
        -- eapply Forall_impl; [exact H5|]. simpl. intros; lia.
        -- apply Forall_singleton. lia.
  - done.
Qed.

Lemma sim_build_from_well_formed calls sim :
  sim_well_formed sim → sim_well_formed (foldl sim_run_call sim calls).
Proof.
  revert sim. induction calls as [|c calls IH]; intros sim H; simpl; [done|].
  apply IH. by apply sim_run_call_well_formed.
Qed.

(** X12: [set_internal_model] checks before it changes.  In a simulation
    built through its methods, with a cell of its own for every
    [add_cell], if one of the listed cell ids or the model id does not
    exist the call raises [IndexError] and the simulation is as before.
    Otherwise it returns: every listed cell has the model and its number
    of species, every other cell is as before, and the listed ids are
    appended to the group of the model as they are given, with no check
    for ids that are repeated or already in a group. *)
Theorem X12_set_internal_model (calls : list sim_call) (cell_id_list : list nat)
    (IM_id : nat) :
  let sim := sim_build calls in
  (¬ (Forall (λ cid, cid < Simulation.num_cells sim) cell_id_list ∧
      IM_id < length (Simulation.IMs sim)) →
     Simulation.set_internal_model cell_id_list IM_id sim = (sim, Raise IndexError)) ∧
  (∀ im, Forall (λ cid, cid < Simulation.num_cells sim) cell_id_list →
     Simulation.IMs sim !! IM_id = Some im →
     ∃ sim', Simulation.set_internal_model cell_id_list IM_id sim = (sim', Ok tt) ∧
       Simulation.IMs sim' = Simulation.IMs sim ∧
       Simulation.interactions sim' = Simulation.interactions sim ∧
       Simulation.IM_cells sim'
         = alter (λ l, l ++ cell_id_list) IM_id (Simulation.IM_cells sim) ∧
       length (Simulation.cells sim') = length (Simulation.cells sim) ∧
       ∀ cid c, Simulation.cells sim !! cid = Some c →
         Simulation.cells sim' !! cid
         = Some (if decide (cid ∈ cell_id_list) then Cell.set_IM im c else c)).
Proof.
  intros sim.
  destruct (sim_build_from_well_formed calls _ sim_well_formed_init) as (Hlen & _).
  destruct (set_internal_model_effect sim cell_id_list IM_id Hlen) as [Hbad Hok].
  split; [done|]. intros im Hids Him. rewrite (Hok im Hids Him).
  eexists. split; [reflexivity|]. cbn. split_and!; try done.
  - apply foldl_alter_length.
  - intros cid c Hc. rewrite foldl_alter_lookup, Hc; [|done].
    simpl. by case_decide.
Qed.

Lemma IM_dims_total sim :
  length (Simulation.IM_cells sim) = length (Simulation.IMs sim) →
  Simulation.IM_dims sim
  = Ok (zip (length <$> Simulation.IM_cells sim)
            (InternalModel.num_nodes <$> Simulation.IMs sim)).
Proof.
  intros Hlen. unfold Simulation.IM_dims.
  rewrite (mapM'_ok _ (λ i, length (Simulation.IM_cells sim !!! i))).
  - cbn [mbind result_bind]. do 2 f_equal. rewrite <- Hlen.
    apply list_eq. intros i. rewrite !list_lookup_fmap.
    destruct (Simulation.IM_cells sim !! i) as [cs|] eqn:Hcs.
    + rewrite lookup_seq_lt by (by eapply lookup_lt_Some). simpl.
      by rewrite (list_lookup_total_correct _ _ _ Hcs).
    + rewrite lookup_seq_ge; [done|]. by apply lookup_ge_None.
  - apply Forall_forall. intros i [_ Hi]%elem_of_seq. rewrite <- Hlen in Hi.
    destruct (lookup_lt_is_Some_2 _ _ Hi) as [cs Hcs].
    rewrite (proj2 (py_index_Ok _ _ _) Hcs). simpl.
    by rewrite (list_lookup_total_correct _ _ _ Hcs).
Qed.

(** X14: the methods of a simulation cannot make a modifier.  In a
    simulation built through its methods every interaction is a diffusion
    term that ends on a node: [add_interaction] hands [is_mod],
    [mod_type] and [IM_id] to nothing that keeps them.  The interactions
    have ids of their own, and the lookup of the interactions that modify
    an edge or an interaction finds none, for any id and any group. *)
Theorem X14_interactions_are_plain_diffusions (calls : list sim_call) :
  Forall plain_diffusion (Simulation.interactions (sim_build calls)) ∧
  NoDup (Interaction.int_id <$> Simulation.interactions (sim_build calls)) ∧
  (∀ to_edge IM_id,
     Simulation.get_modifiers (sim_build calls) to_edge IM_id = Ok []) ∧
  (∀ N i, i ∈ Simulation.get_contributions (sim_build calls) N →
     Interaction.to_node i = Some (TNode N) ∧ Interaction.is_mod i = false).
Proof.
  pose proof (sim_build_from_well_formed calls _ sim_well_formed_init)
    as (_ & _ & Hplain & Hnd & _).
  fold (sim_build calls) in Hplain, Hnd. split_and!; try done.
  - intros to_edge IM_id. apply get_modifiers_nil.
    eapply Forall_impl; [exact Hplain|]. simpl. intros i (_ & _ & Hto & _).
    by rewrite Hto.
  - intros N i [HN Hin]%list_elem_of_filter. split; [done|].
    rewrite Forall_forall in Hplain. by destruct (Hplain i Hin) as (? & _).
Qed.

(** X15: the groups of a simulation built through its methods.  There is
    one group per registered model, in the order of registration, and a
    group lists only cells that exist; so the sizes [deriv] and
    [simulate] compute never fail on an index, and [set_cell_bounds]
    gives one pair of bounds per model. *)
Theorem X15_groups_of_built_simulation (calls : list sim_call) :
  length (Simulation.IM_cells (sim_build calls))
    = length (Simulation.IMs (sim_build calls)) ∧
  Forall (Forall (λ cid, cid < Simulation.num_cells (sim_build calls)))
         (Simulation.IM_cells (sim_build calls)) ∧
  Simulation.IM_dims (sim_build calls)
    = Ok (zip (length <$> Simulation.IM_cells (sim_build calls))
              (InternalModel.num_nodes <$> Simulation.IMs (sim_build calls))) ∧
  length (Simulation.IM_bounds (exec Simulation.set_cell_bounds (sim_build calls)))
    = length (Simulation.IMs (sim_build calls)).
Proof.
  pose proof (sim_build_from_well_formed calls _ sim_well_formed_init)
    as (Hlen & Hids & _).
  fold (sim_build calls) in Hlen, Hids. split_and!; try done.
  - by apply IM_dims_total.
  - rewrite set_cell_bounds_bounds, cell_bounds_closed.
    by rewrite length_fmap, length_seq, length_fmap.
Qed.

(** ** The resolver: modifiers that do nothing, and the depth of the recursion *)

Lemma scale_by_no_tag resolve tag v mods :
  Forall (λ m, contrib_mod_type m ≠ Some tag) mods →
  Simulation.scale_by resolve tag v mods = Ok v.
Proof.
  induction 1 as [|m mods Hm _ IH]; [done|]. by rewrite scale_by_cons_other.
Qed.

Lemma scale_by_ext res1 res2 tag v mods :
  (∀ m, m ∈ mods → res1 m = res2 m) →
  Simulation.scale_by res1 tag v mods = Simulation.scale_by res2 tag v mods.
Proof.
  revert v. induction mods as [|m mods IH]; intros v H; [done|].
  unfold Simulation.scale_by. cbn [foldM]. rewrite (H m) by left.
  destruct (if decide _ then _ else _) as [v'|e]; simpl; [|done].
  apply IH. intros. apply H. by right.
Qed.

(** X16: a modifier edge whose [mod_type] is neither ['intern'] nor
    ['mult'] does nothing.  When no interaction is aimed at an edge and
    every modifier edge of the model aimed at it has such a [mod_type]
    (the default, [None], is one), the edge resolves to its term applied
    to the source column, exactly as without modifiers; the modifiers are
    not even resolved. *)
Theorem X16_untyped_modifiers_do_nothing (depth : nat) (sim : Simulation.t)
    (e : Edge.t) (ycurrent : list (ndarray val)) (IM_id : nat)
    (im : InternalModel.t) :
  Simulation.IMs sim !! IM_id = Some im →
  Forall (λ i, Interaction.to_edge i ≠ Some (TEdge (Edge.edge_id e)))
         (Simulation.interactions sim) →
  Forall (λ m, Edge.mod_type m ≠ Some "intern" ∧ Edge.mod_type m ≠ Some "mult")
         (InternalModel.get_modifiers im (Edge.edge_id e)) →
  Simulation.resolve_contribution (S depth) sim (Internal e) ycurrent IM_id
  = (from_node ← InternalModel.get_node_id im (Edge.from_node e);
     yc ← py_index ycurrent IM_id;
     xcontrib ← column yc from_node;
     Model.apply (Edge.model_ e) xcontrib).
Proof.
  intros Him Hno Hmods. rewrite (resolve_internal_same_model _ _ _ _ _ im Him Hno).
  cbv zeta.
  destruct (InternalModel.get_node_id im _) as [from|]; simpl; [|done].
  destruct (py_index ycurrent IM_id) as [yc|]; simpl; [|done].
  destruct (column yc from) as [x|]; simpl; [|done].
  rewrite scale_by_no_tag.
  2:{ apply Forall_fmap. eapply Forall_impl; [exact Hmods|]. by intros m [? _]. }
  simpl. destruct (Model.apply _ x) as [y|]; simpl; [|done].
  apply scale_by_no_tag.
  apply Forall_fmap. eapply Forall_impl; [exact Hmods|]. by intros m [_ ?].
Qed.

Lemma X16_untyped_modifiers_do_nothing_witness :
  Simulation.resolve_contribution 3
    (sim_pair (build [Call_add_node "a" None None;
                      Call_add_edge "a" (TNode "a") "lin_activ" false None (Some [vint 3]);
                      Call_add_edge "a" (TEdge 0) "lin_activ" true None (Some [vint 5])]))
    (Internal (Edge.init "a" (TNode "a") (LinearActivation false None (Some (vint 3))) 0))
    ycurrent_pair 0
  = (from_node ← InternalModel.get_node_id
       (build [Call_add_node "a" None None;
               Call_add_edge "a" (TNode "a") "lin_activ" false None (Some [vint 3]);
               Call_add_edge "a" (TEdge 0) "lin_activ" true None (Some [vint 5])]) "a";
     yc ← py_index ycurrent_pair 0;
     xcontrib ← column yc from_node;
     Model.apply (LinearActivation false None (Some (vint 3))) xcontrib).
Proof.
  apply (X16_untyped_modifiers_do_nothing 2 _
           (Edge.init "a" (TNode "a") (LinearActivation false None (Some (vint 3))) 0)
           ycurrent_pair 0).
  - reflexivity.
  - vm_compute. repeat constructor; discriminate.
  - vm_compute. repeat constructor; discriminate.
Defined.

(** *** Exceptions other than the one for too deep a recursion *)

Lemma bind_Raise {A B} (m : result A) (f : A → result B) e :
  m ≫= f = Raise e → m = Raise e ∨ ∃ a, m = Ok a ∧ f a = Raise e.
Proof. destruct m as [a|e']; simpl; [eauto|]. intros [= ->]. by left. Qed.

Lemma foldM_Raise {A B} (f : A → B → result A) (P : exn → Prop) l a e :
  (∀ a x e, x ∈ l → f a x = Raise e → P e) → foldM f a l = Raise e → P e.
Proof.
  revert a. induction l as [|x l IH]; intros a Hf H; [done|]. simpl in H.
  apply bind_Raise in H as [H|(a' & _ & H)].
  - eapply Hf; [left|done].
  - eapply IH; [|done]. intros. eapply Hf; [by right|done].
Qed.

Lemma mapM'_Raise {A B} (f : A → result B) (P : exn → Prop) l e :
  (∀ x e, x ∈ l → f x = Raise e → P e) → mapM' f l = Raise e → P e.
Proof.
  induction l as [|x l IH]; intros Hf H; [done|]. simpl in H.
  apply bind_Raise in H as [H|(y & _ & H)]; [eapply Hf; [left|done]|].
  apply bind_Raise in H as [H|(ys & _ & H)]; [|done].
  eapply IH; [|done]. intros. eapply Hf; [by right|done].
Qed.

Lemma py_index_Raise {A} (l : list A) i e : py_index l i = Raise e → e = IndexError.
Proof. unfold py_index. destruct (l !! i); congruence. Qed.

Lemma get_node_id_Raise im name e :
  InternalModel.get_node_id im name = Raise e → e = KeyError.
Proof. unfold InternalModel.get_node_id. destruct (_ !! _); congruence. Qed.

Lemma column_Raise {A} (m : ndarray A) j e : column m j = Raise e → e = IndexError.
Proof. unfold column. case_decide; congruence. Qed.

Lemma vec_iop_Raise f a b e : vec_iop f a b = Raise e → e = ValueError.
Proof. unfold vec_iop. case_decide; [done|]. destruct b as [|? [|??]]; congruence. Qed.

Lemma getattr_Raise {A} (p : option A) e : Model.getattr p = Raise e → e = AttributeError.
Proof. destruct p; simpl; congruence. Qed.

Lemma apply_Raise m x e : Model.apply m x = Raise e → e ≠ RuntimeError.
Proof.
  destruct m as [p|? ? p|? ? p|? ? p|p|p|? ? ?]; simpl; intros H;
    try (apply bind_Raise in H as [H|(a & _ & H)];
         [apply getattr_Raise in H; by subst|]); try done.
  - destruct a as [[C A] n]. revert H. apply (mapM'_Raise _ (λ e, e ≠ RuntimeError)). intros xi e' _.
    unfold Model.hill. destruct (as_int n); congruence.
  - destruct a as [[[D C] A] n]. revert H. apply (mapM'_Raise _ (λ e, e ≠ RuntimeError)). intros xi e' _ H.
    apply bind_Raise in H as [H|(? & _ & H)]; [|done].
    unfold Model.hill in H. destruct (as_int n); congruence.
  - congruence.
Qed.

Lemma apply2_Raise m x b e : Model.apply2 m x b = Raise e → e ≠ RuntimeError.
Proof.
  destruct m as [| | | | | |C d c]; simpl; try congruence.
  unfold Model.Diffusion_apply, Model.Diffusion_masked_contribs. destruct b as [lo hi].
  intros H. apply bind_Raise in H as [H|(? & _ & H)]; [|done].
  apply bind_Raise in H as [H|(? & _ & H)].
  { unfold mat_vec_op in H. repeat case_match; congruence. }
  apply bind_Raise in H as [H|(? & _ & H)]; [apply getattr_Raise in H; by subst|].
  apply bind_Raise in H as [H|(? & _ & H)].
  { unfold mat_op in H. repeat case_match; congruence. }
  unfold ma_filled in H. apply bind_Raise in H as [H|(? & _ & H)]; [|done].
  unfold ma_mask in H. repeat case_decide; congruence.
Qed.

Lemma gather_source_Raise sim from_node ycurrent e :
  Simulation.gather_source sim from_node ycurrent = Raise e → e ≠ RuntimeError.
Proof.
  unfold Simulation.gather_source. apply (foldM_Raise _ (λ e, e ≠ RuntimeError)). intros xdata i e' _ H.
  apply bind_Raise in H as [H|(im & _ & H)]; [apply py_index_Raise in H; by subst|].
  case_decide.
  - apply bind_Raise in H as [H|(? & _ & H)]; [apply get_node_id_Raise in H; by subst|].
    apply bind_Raise in H as [H|(? & _ & H)]; [apply py_index_Raise in H; by subst|].
    apply bind_Raise in H as [H|(? & _ & H)]; [apply column_Raise in H; by subst|done].
  - apply bind_Raise in H as [H|(? & _ & H)]; [apply py_index_Raise in H; by subst|done].
Qed.

Lemma get_modifiers_Raise sim to_edge IM_id e :
  Simulation.get_modifiers sim to_edge IM_id = Raise e → e = AttributeError.
Proof.
  destruct (get_modifiers_cases sim to_edge IM_id) as [-> | ->]; congruence.
Qed.

Lemma get_modifiers_Ok sim to_edge IM_id mods :
  Simulation.get_modifiers sim to_edge IM_id = Ok mods → mods = [].
Proof.
  destruct (get_modifiers_cases sim to_edge IM_id) as [-> | ->]; congruence.
Qed.

Lemma scale_by_Raise resolve tag v mods e :
  (∀ m, m ∈ mods → resolve m ≠ Raise RuntimeError) →
  Simulation.scale_by resolve tag v mods = Raise e → e ≠ RuntimeError.
Proof.
  intros Hres. unfold Simulation.scale_by. apply (foldM_Raise _ (λ e, e ≠ RuntimeError)). intros a m e' Hm H.
  case_decide; [|done].
  apply bind_Raise in H as [H|(? & _ & H)].
  - intros ->. by apply (Hres m Hm).
  - apply vec_iop_Raise in H. by subst.
Qed.

(** An interaction is resolved without recursion: the lookup of its
    modifiers raises or finds none. *)
Lemma resolve_external_fuel d k sim i ycurrent IM_id :
  Simulation.resolve_contribution (S d) sim (External i) ycurrent IM_id
    ≠ Raise RuntimeError ∧
  Simulation.resolve_contribution (S d + k) sim (External i) ycurrent IM_id
  = Simulation.resolve_contribution (S d) sim (External i) ycurrent IM_id.
Proof.
  cbn [Nat.add Simulation.resolve_contribution].
  destruct (Simulation.get_modifiers sim _ None) as [mods|e] eqn:Hmods.
  2:{ apply get_modifiers_Raise in Hmods as ->. done. }
  apply get_modifiers_Ok in Hmods as ->. cbn [mbind result_bind fmap list_fmap foldM].
  split; [|done]. intros H.
  apply bind_Raise in H as [H|(? & _ & H)]; [by apply gather_source_Raise in H|].
  apply bind_Raise in H as [H|(? & _ & H)]; [apply py_index_Raise in H; by subst|].
  apply bind_Raise in H as [H|(? & _ & H)]; [apply py_index_Raise in H; by subst|].
  apply bind_Raise in H as [H|(? & _ & H)]; [by apply apply2_Raise in H|done].
Qed.

(** *** Chains of modifiers *)

Lemma linked_successor chain m :
  linked chain → m ∈ chain →
  Edge.to_edge m = None ∨
  ∃ t, t ∈ tail chain ∧ Edge.to_edge m = Some (TEdge (Edge.edge_id t)).
Proof.
  induction chain as [|x chain IH]; intros Hl Hm; [by apply elem_of_nil in Hm|].
  destruct chain as [|t rest].
  - apply list_elem_of_singleton in Hm as ->. by left.
  - destruct Hl as [Hx Hl]. apply elem_of_cons in Hm as [->|Hm].
    + right. exists t. split; [left|done].
    + destruct (IH Hl Hm) as [?|(t' & Ht' & ?)]; [by left|].
      right. exists t'. split; [by right|done].
Qed.

Lemma edge_id_inj im e1 e2 :
  NoDup (edge_ids im) → e1 ∈ InternalModel.edges im → e2 ∈ InternalModel.edges im →
  Edge.edge_id e1 = Edge.edge_id e2 → e1 = e2.
Proof.
  intros Hnd (i & Hi)%list_elem_of_lookup_1 (j & Hj)%list_elem_of_lookup_1 Heq.
  assert (i = j) as ->; [|congruence].
  eapply (NoDup_lookup _ _ _ _ Hnd); unfold edge_ids; rewrite list_lookup_fmap.
  - by rewrite Hi.
  - rewrite Hj. simpl. by rewrite Heq.
Qed.

(** A modifier of the head of a chain is not on the chain. *)
Lemma modifier_extends_chain im e rest m :
  NoDup (edge_ids im) → Forall (λ x, x ∈ InternalModel.edges im) (e :: rest) →
  NoDup (e :: rest) → linked (e :: rest) →
  Edge.to_edge m = Some (TEdge (Edge.edge_id e)) →
  m ∉ e :: rest.
Proof.
  intros Hids Hin Hnd Hl Hm Hmem.
  destruct (linked_successor _ _ Hl Hmem) as [Hnone|(t & Ht & Hto)]; [congruence|].
  simpl in Ht. rewrite Hm in Hto. injection Hto as Hto.
  apply NoDup_cons in Hnd as [Hnotin _]. apply Hnotin.
  rewrite Forall_forall in Hin.
  rewrite (edge_id_inj im e t Hids); [done| | |done]; apply Hin; [left|by right].
Qed.

Lemma resolve_internal_fuel sim IM_id im ycurrent :
  Simulation.IMs sim !! IM_id = Some im → NoDup (edge_ids im) →
  ∀ d e rest,
    Forall (λ x, x ∈ InternalModel.edges im) (e :: rest) →
    NoDup (e :: rest) → linked (e :: rest) →
    length (InternalModel.edges im) < length (e :: rest) + d →
    Simulation.resolve_contribution d sim (Internal e) ycurrent IM_id
      ≠ Raise RuntimeError ∧
    ∀ k, Simulation.resolve_contribution (d + k) sim (Internal e) ycurrent IM_id
         = Simulation.resolve_contribution d sim (Internal e) ycurrent IM_id.
Proof.
  intros Him Hids. induction d as [|d IH]; intros e rest Hin Hnd Hl Hlen.
  - exfalso. assert (length (e :: rest) ≤ length (InternalModel.edges im)); [|lia].
    apply submseteq_length, NoDup_submseteq; [done|]. by apply Forall_forall.
  - assert (∀ m, m ∈ InternalModel.get_modifiers im (Edge.edge_id e) →
              Simulation.resolve_contribution d sim (Internal m) ycurrent IM_id
                ≠ Raise RuntimeError ∧
              ∀ k, Simulation.resolve_contribution (d + k) sim (Internal m) ycurrent IM_id
                   = Simulation.resolve_contribution d sim (Internal m) ycurrent IM_id)
      as Hmods.
    { intros m [[Hto _] Hm]%list_elem_of_filter. apply (IH m (e :: rest)).
      - by constructor.
      - apply NoDup_cons. split; [|done]. by eapply modifier_extends_chain.
      - split; done.
      - simpl in *. lia. }
    cbn [Nat.add Simulation.resolve_contribution].
    rewrite (proj2 (py_index_Ok _ _ _) Him). cbn [mbind result_bind].
    destruct (Simulation.get_modifiers sim _ (Some IM_id)) as [mods|e'] eqn:Hext.
    2:{ apply get_modifiers_Raise in Hext as ->. done. }
    apply get_modifiers_Ok in Hext as ->.
    cbn [mbind result_bind fmap list_fmap]. rewrite app_nil_r.
    assert (∀ c, c ∈ Internal <$> InternalModel.get_modifiers im (Edge.edge_id e) →
              Simulation.resolve_contribution d sim c ycurrent IM_id ≠ Raise RuntimeError ∧
              ∀ k, Simulation.resolve_contribution (d + k) sim c ycurrent IM_id
                   = Simulation.resolve_contribution d sim c ycurrent IM_id) as Hc.
    { intros c (m & -> & Hm)%list_elem_of_fmap. by apply Hmods. }
    split.
    + intros H.
      apply bind_Raise in H as [H|(? & _ & H)]; [apply get_node_id_Raise in H; by subst|].
      apply bind_Raise in H as [H|(? & _ & H)]; [apply py_index_Raise in H; by subst|].
      apply bind_Raise in H as [H|(? & _ & H)]; [apply column_Raise in H; by subst|].
      apply bind_Raise in H as [H|(? & _ & H)].
      { apply scale_by_Raise in H; [done|]. intros c Hcm. by apply Hc. }
      apply bind_Raise in H as [H|(? & _ & H)]; [by apply apply_Raise in H|].
      apply scale_by_Raise in H; [done|]. intros c Hcm. by apply Hc.
    + intros k.
      destruct (InternalModel.get_node_id im _) as [from|]; simpl; [|done].
      destruct (py_index ycurrent IM_id) as [yc|]; simpl; [|done].
      destruct (column yc from) as [x|]; simpl; [|done].
      rewrite (scale_by_ext _ (λ c, Simulation.resolve_contribution d sim c ycurrent IM_id))
        by (intros c Hcm; by apply Hc).
      destruct (Simulation.scale_by _ "intern" x _) as [x'|]; simpl; [|done].
      destruct (Model.apply _ x') as [y|]; simpl; [|done].
      apply scale_by_ext. intros c Hcm. by apply Hc.
Qed.

(** X17: resolving a contribution recurses at most as deep as the model
    has edges.  In a model built through its methods a modifier modifies
    one edge, and an edge that contributes to a node modifies none, so the
    chain of modifiers above a contribution never comes back to an edge
    it went through.  Hence with a depth budget of the number of edges of
    the model, or more, a contribution never fails for too deep a
    recursion, and a larger budget changes nothing; an interaction needs
    a single level, as the lookup of its modifiers raises or finds none. *)
Theorem X17_resolver_depth (calls : list im_call) (sim : Simulation.t) (IM_id : nat)
    (N : string) (e : Edge.t) (ycurrent : list (ndarray val)) (depth : nat) :
  Simulation.IMs sim !! IM_id = Some (build calls) →
  e ∈ InternalModel.get_contributions (build calls) N →
  length (InternalModel.edges (build calls)) ≤ depth →
  (Simulation.resolve_contribution depth sim (Internal e) ycurrent IM_id
     ≠ Raise RuntimeError ∧
   ∀ k, Simulation.resolve_contribution (depth + k) sim (Internal e) ycurrent IM_id
        = Simulation.resolve_contribution depth sim (Internal e) ycurrent IM_id) ∧
  (∀ i d k,
     Simulation.resolve_contribution (S d) sim (External i) ycurrent IM_id
       ≠ Raise RuntimeError ∧
     Simulation.resolve_contribution (S d + k) sim (External i) ycurrent IM_id
     = Simulation.resolve_contribution (S d) sim (External i) ycurrent IM_id).
Proof.
  intros Him [Hto He]%list_elem_of_filter Hdepth.
  split; [|intros; apply resolve_external_fuel].
  pose proof (build_from_fresh calls _ edge_ids_fresh_init) as [Hids _].
  pose proof (build_from_edge_kinds calls InternalModel.init (Forall_nil_2 _)) as Hk.
  fold (build calls) in Hids, Hk. rewrite Forall_forall in Hk.
  destruct (Hk e He) as (_ & _ & Hkind).
  assert (Edge.to_edge e = None) as Hnone.
  { destruct (Edge.is_mod e); [|by destruct Hkind].
    destruct Hkind as [Hn _]. by rewrite Hn in Hto. }
  apply (resolve_internal_fuel sim IM_id (build calls) ycurrent Him Hids depth e []).
  - by apply Forall_singleton.
  - apply NoDup_singleton.
  - done.
  - simpl. apply list_elem_of_lookup_1 in He as [j Hj]. apply lookup_lt_Some in Hj. lia.
Qed.

Lemma X17_resolver_depth_witness :
  (Simulation.resolve_contribution 2
     (sim_pair (build [Call_add_node "a" None None;
                       Call_add_edge "a" (TNode "a") "lin_activ" false None (Some [vint 3]);
                       Call_add_edge "a" (TEdge 0) "lin_activ" true (Some "mult")
                         (Some [vint 5])]))
     (Internal (Edge.init "a" (TNode "a") (LinearActivation false None (Some (vint 3))) 0))
     ycurrent_pair 0 ≠ Raise RuntimeError ∧
   ∀ k, Simulation.resolve_contribution (2 + k)
          (sim_pair (build [Call_add_node "a" None None;
                            Call_add_edge "a" (TNode "a") "lin_activ" false None
                              (Some [vint 3]);
                            Call_add_edge "a" (TEdge 0) "lin_activ" true (Some "mult")
                              (Some [vint 5])]))
          (Internal (Edge.init "a" (TNode "a")
                       (LinearActivation false None (Some (vint 3))) 0))
          ycurrent_pair 0
        = Simulation.resolve_contribution 2
            (sim_pair (build [Call_add_node "a" None None;
                              Call_add_edge "a" (TNode "a") "lin_activ" false None
                                (Some [vint 3]);
                              Call_add_edge "a" (TEdge 0) "lin_activ" true (Some "mult")
                                (Some [vint 5])]))
            (Internal (Edge.init "a" (TNode "a")
                         (LinearActivation false None (Some (vint 3))) 0))
            ycurrent_pair 0) ∧
  (∀ i d k,
     Simulation.resolve_contribution (S d)
       (sim_pair (build [Call_add_node "a" None None;
                         Call_add_edge "a" (TNode "a") "lin_activ" false None (Some [vint 3]);
                         Call_add_edge "a" (TEdge 0) "lin_activ" true (Some "mult")
                           (Some [vint 5])]))
       (External i) ycurrent_pair 0 ≠ Raise RuntimeError ∧
     Simulation.resolve_contribution (S d + k)
       (sim_pair (build [Call_add_node "a" None None;
                         Call_add_edge "a" (TNode "a") "lin_activ" false None (Some [vint 3]);
                         Call_add_edge "a" (TEdge 0) "lin_activ" true (Some "mult")
                           (Some [vint 5])]))
       (External i) ycurrent_pair 0
     = Simulation.resolve_contribution (S d)
         (sim_pair (build [Call_add_node "a" None None;
                           Call_add_edge "a" (TNode "a") "lin_activ" false None
                             (Some [vint 3]);
                           Call_add_edge "a" (TEdge 0) "lin_activ" true (Some "mult")
                             (Some [vint 5])]))
         (External i) ycurrent_pair 0).
Proof.
  apply (X17_resolver_depth
           [Call_add_node "a" None None;
            Call_add_edge "a" (TNode "a") "lin_activ" false None (Some [vint 3]);
            Call_add_edge "a" (TEdge 0) "lin_activ" true (Some "mult") (Some [vint 5])]
           _ 0 "a").
  - reflexivity.
  - apply list_elem_of_lookup. exists 0. reflexivity.
  - vm_compute. lia.
Defined.

(** ** The derivative and the length of its input *)

Lemma mapM'_ext {A B} (f g : A → result B) l :
  (∀ x, x ∈ l → f x = g x) → mapM' f l = mapM' g l.
Proof.
  induction l as [|x l IH]; intros H; [done|]. simpl.
  rewrite (H x) by left. rewrite IH; [done|]. intros. apply H. by right.
Qed.

Lemma slice_app_le {A} (y extra : list A) lo hi :
  hi ≤ length y → slice (y ++ extra) lo hi = slice y lo hi.
Proof.
  intros Hhi. unfold slice. destruct (decide (lo ≤ length y)) as [Hlo|Hlo].
  - rewrite drop_app_le by done. apply take_app_le. rewrite length_drop. lia.
  - replace (hi - lo) with 0 by lia. done.
Qed.

Lemma length_slice {A} (y : list A) lo hi :
  length (slice y lo hi) = (hi - lo) `min` (length y - lo).
Proof. unfold slice. by rewrite length_take, length_drop. Qed.

Lemma prefix_sum_le l i : prefix_sum l i ≤ sum_list l.
Proof.
  unfold prefix_sum. rewrite <- (take_drop i l) at 2. rewrite sum_list_with_app. lia.
Qed.

(** Slices of the right lengths, one after the other, fit in the vector. *)
Lemma slices_fit {A} (sizes : list nat) (y : list A) :
  (∀ i n, sizes !! i = Some n →
     length (slice y (prefix_sum sizes i) (prefix_sum sizes (S i))) = n) →
  ∀ i, i ≤ length sizes → prefix_sum sizes i ≤ length y.
Proof.
  intros Hfit. induction i as [|i IH]; intros Hi; [unfold prefix_sum; simpl; lia|].
  destruct (lookup_lt_is_Some_2 sizes i) as [n Hn]; [lia|].
  pose proof (Hfit i n Hn) as Hlen. rewrite length_slice in Hlen.
  rewrite (prefix_sum_S _ _ _ Hn) in Hlen |- *. specialize (IH ltac:(lia)). lia.
Qed.

Lemma unflatten_step_Ok dims i :
  i < length dims →
  ∃ r c, py_index dims i = Ok (r, c) ∧
    py_index (Simulation.flat_bounds dims) i = Ok (prefix_sum (group_sizes dims) i) ∧
    py_index (Simulation.flat_bounds dims) (i + 1)
      = Ok (prefix_sum (group_sizes dims) (S i)) ∧
    group_sizes dims !! i = Some (r * c).
Proof.
  intros Hi. destruct (lookup_lt_is_Some_2 dims i Hi) as [[r c] Hrc].
  exists r, c. split_and!.
  - by apply py_index_Ok.
  - apply py_index_Ok, flat_bounds_lookup. lia.
  - apply py_index_Ok. rewrite Nat.add_1_r. apply flat_bounds_lookup. lia.
  - unfold group_sizes. by rewrite list_lookup_fmap, Hrc.
Qed.

(** X18: the length of the state handed to [deriv].  With the sizes of
    the groups known, [deriv] reads the first (cells x species, summed
    over the groups) entries of [y] and nothing else: entries after them
    change neither the value nor the exception, and the result is not
    longer for them.  A [y] that is too short makes the reshape of a slice
    fail, and [deriv] raises [ValueError] before any term is applied. *)
Theorem X18_deriv_input_length (depth : nat) (sim : Simulation.t)
    (dims : list (nat * nat)) (t : val) :
  Simulation.IM_dims sim = Ok dims →
  (∀ y extra, length y = sum_list (group_sizes dims) →
     Simulation.deriv depth sim (y ++ extra) t = Simulation.deriv depth sim y t) ∧
  (∀ y, length y < sum_list (group_sizes dims) →
     Simulation.deriv depth sim y t = Raise ValueError).
Proof.
  intros Hdims. unfold Simulation.deriv. rewrite Hdims. cbn [mbind result_bind].
  split.
  - intros y extra Hlen.
    assert (Simulation.unflatten dims (Simulation.flat_bounds dims) (y ++ extra)
            = Simulation.unflatten dims (Simulation.flat_bounds dims) y) as ->; [|done].
    unfold Simulation.unflatten. apply mapM'_ext. intros i [_ Hi]%elem_of_seq.
    destruct (unflatten_step_Ok dims i) as (r & c & -> & -> & -> & _); [lia|].
    cbn [mbind result_bind]. rewrite slice_app_le; [done|].
    rewrite Hlen. apply prefix_sum_le.
  - intros y Hlen.
    destruct (Simulation.unflatten dims (Simulation.flat_bounds dims) y)
      as [ycurrent|e] eqn:Hun; cbn [mbind result_bind].
    + exfalso. unfold Simulation.unflatten in Hun.
      assert (sum_list (group_sizes dims) ≤ length y); [|lia].
      rewrite <- (prefix_sum_all (group_sizes dims) (length (group_sizes dims))) by done.
      apply slices_fit; [|done]. intros i n Hn.
      assert (i < length dims) as Hi.
      { apply lookup_lt_Some in Hn. unfold group_sizes in Hn. by rewrite length_fmap in Hn. }
      assert (seq 0 (length dims) !! i = Some i) as Hseq by (by apply lookup_seq).
      destruct (mapM'_lookup _ _ _ _ _ Hun Hseq) as (m & _ & Hm).
      simpl in Hm.
      destruct (unflatten_step_Ok dims i Hi) as (r & c & Hd & Hlo & Hhi & Hsz).
      rewrite Hd, Hlo, Hhi in Hm. cbn [mbind result_bind] in Hm.
      unfold reshape in Hm. case_decide as Hre; [|done].
      rewrite Hn in Hsz. injection Hsz as ->. done.
    + f_equal. revert Hun. unfold Simulation.unflatten.
      apply (mapM'_Raise _ (λ e, e = ValueError)). intros i e' [_ Hi]%elem_of_seq.
      destruct (unflatten_step_Ok dims i) as (r & c & -> & -> & -> & _); [lia|].
      cbn [mbind result_bind]. unfold reshape. case_decide; congruence.
Qed.

Lemma X18_deriv_input_length_witness :
  (∀ y extra, length y = sum_list (group_sizes [(2, 1)]) →
     Simulation.deriv 5 (sim_pair im_one_edge) (y ++ extra) vzero
     = Simulation.deriv 5 (sim_pair im_one_edge) y vzero) ∧
  (∀ y, length y < sum_list (group_sizes [(2, 1)]) →
     Simulation.deriv 5 (sim_pair im_one_edge) y vzero = Raise ValueError).
Proof.
  apply (X18_deriv_input_length 5 (sim_pair im_one_edge) [(2, 1)] vzero).
  reflexivity.
Defined.

(** ** What the derivative reads of the groups *)

Lemma foldM_ext {A B} (f g : A → B → result A) l a :
  (∀ a x, x ∈ l → f a x = g a x) → foldM f a l = foldM g a l.
Proof.
  revert a. induction l as [|x l IH]; intros a H; [done|]. simpl.
  rewrite (H a x) by left. destruct (g a x) as [a'|e]; simpl; [|done].
  apply IH. intros. apply H. by right.
Qed.

Lemma py_index_lengths {A B} (l' l : list (list A)) i (f : nat → result B) :
  length <$> l' = length <$> l →
  (cs ← py_index l' i; f (length cs)) = (cs ← py_index l i; f (length cs)).
Proof.
  intros H. apply (f_equal (λ k, k !! i)) in H. rewrite !list_lookup_fmap in H.
  unfold py_index. destruct (l' !! i), (l !! i); simpl in *; congruence.
Qed.

Section cell_ids.
Context (sim : Simulation.t) (groups' : list (list nat)).
Hypothesis Hsizes : length <$> groups' = length <$> Simulation.IM_cells sim.

Let sim' := Simulation.with_IM_cells (λ _, groups') sim.

Lemma IM_dims_cell_ids : Simulation.IM_dims sim' = Simulation.IM_dims sim.
Proof.
  unfold Simulation.IM_dims. cbn.
  rewrite (mapM'_ext _ (λ i, cs ← py_index (Simulation.IM_cells sim) i; Ok (length cs)));
    [done|].
  intros i _. by apply (py_index_lengths _ _ i Ok).
Qed.

Lemma gather_source_cell_ids from_node ycurrent :
  Simulation.gather_source sim' from_node ycurrent
  = Simulation.gather_source sim from_node ycurrent.
Proof.
  unfold Simulation.gather_source. cbn. apply foldM_ext. intros xdata i _.
  destruct (py_index (Simulation.IMs sim) i) as [im|]; simpl; [|done].
  case_decide; [done|].
  by apply (py_index_lengths _ _ i (λ n, Ok (xdata ++ replicate n NaN))).
Qed.

Lemma resolve_contribution_cell_ids depth c ycurrent IM_id :
  Simulation.resolve_contribution depth sim' c ycurrent IM_id
  = Simulation.resolve_contribution depth sim c ycurrent IM_id.
Proof.
  revert c. induction depth as [|depth IH]; intros c; [done|].
  cbn [Simulation.resolve_contribution]. destruct c as [e|i].
  - cbn [Simulation.IMs sim' Simulation.with_IM_cells].
    destruct (py_index (Simulation.IMs sim) IM_id) as [im|]; simpl; [|done].
    change (Simulation.get_modifiers sim' (Edge.edge_id e) (Some IM_id))
      with (Simulation.get_modifiers sim (Edge.edge_id e) (Some IM_id)).
    destruct (Simulation.get_modifiers sim _ _) as [ext_mods|]; simpl; [|done].
    destruct (InternalModel.get_node_id im _) as [from|]; simpl; [|done].
    destruct (py_index ycurrent IM_id) as [yc|]; simpl; [|done].
    destruct (column yc from) as [x|]; simpl; [|done].
    rewrite (scale_by_ext _ (λ m, Simulation.resolve_contribution depth sim m ycurrent IM_id))
      by (intros; apply IH).
    destruct (Simulation.scale_by _ "intern" x _) as [x'|]; simpl; [|done].
    destruct (Model.apply _ x') as [y|]; simpl; [|done].
    apply scale_by_ext. intros; apply IH.
  - change (Simulation.get_modifiers sim' (Interaction.int_id i) None)
      with (Simulation.get_modifiers sim (Interaction.int_id i) None).
    destruct (Simulation.get_modifiers sim _ _) as [ext_mods|]; simpl; [|done].
    rewrite gather_source_cell_ids.
    destruct (Simulation.gather_source sim _ _) as [xdata|]; simpl; [|done].
    apply (py_index_lengths groups' (Simulation.IM_cells sim) IM_id
             (λ n, xcontrib ← foldM (λ xcontrib mod_,
                       if decide (Interaction.mod_type mod_ = Some "intern")
                       then Raise NameError else Ok xcontrib)
                     (np_tile xdata n) ext_mods;
                   bounds ← py_index (Simulation.IM_bounds sim) IM_id;
                   ycontrib ← Model.apply2 (Interaction.model_ i) xcontrib bounds;
                   Simulation.scale_by
                     (λ m, Simulation.resolve_contribution depth sim' m ycurrent IM_id)
                     "mult" ycontrib (External <$> ext_mods))) in Hsizes as Hpy.
    cbn [Simulation.IM_cells Simulation.IM_bounds sim' Simulation.with_IM_cells].
    etrans; [exact Hpy|].
    destruct (py_index (Simulation.IM_cells sim) IM_id) as [cs|]; simpl; [|done].
    destruct (foldM _ _ ext_mods) as [xcontrib|]; simpl; [|done].
    destruct (py_index (Simulation.IM_bounds sim) IM_id) as [bounds|]; simpl; [|done].
    destruct (Model.apply2 _ xcontrib bounds) as [y|]; simpl; [|done].
    apply scale_by_ext. intros; apply IH.
Qed.

Lemma deriv_cell_ids depth y t :
  Simulation.deriv depth sim' y t = Simulation.deriv depth sim y t.
Proof.
  unfold Simulation.deriv. rewrite IM_dims_cell_ids.
  destruct (Simulation.IM_dims sim) as [dims|]; simpl; [|done].
  destruct (Simulation.unflatten _ _ y) as [ycurrent|]; simpl; [|done].
  rewrite (foldM_ext _ (Simulation.accumulate_group depth sim ycurrent)); [done|].
  intros yprime i _. unfold Simulation.accumulate_group. cbn.
  destruct (py_index (Simulation.IMs sim) i) as [im|]; simpl; [|done].
  destruct (py_index yprime i) as [yp|]; simpl; [|done].
  rewrite (foldM_ext _ (Simulation.accumulate depth sim ycurrent i im)); [done|].
  intros yp' j _. unfold Simulation.accumulate.
  destruct (py_index _ j) as [cnode|]; simpl; [|done].
  apply foldM_ext. intros yp'' c _. by rewrite resolve_contribution_cell_ids.
Qed.
End cell_ids.

(** X19: the derivative knows the cells of a group by their place, not
    by their id.  [deriv] and the resolver read of [IM_cells] the sizes of
    the groups and nothing else: with other cell ids in the groups, or
    the same ids in another order, [deriv] returns the same vector and
    raises the same exception.  The [k]-th row of a group stands for the
    [k]-th cell after those of the groups before it, also where
    [Diffusion] looks up distances and connections, which are numbered by
    cell id. *)
Theorem X19_deriv_reads_group_sizes_only (depth : nat) (sim : Simulation.t)
    (groups' : list (list nat)) (y : list val) (t : val) :
  length <$> groups' = length <$> Simulation.IM_cells sim →
  Simulation.deriv depth (Simulation.with_IM_cells (λ _, groups') sim) y t
  = Simulation.deriv depth sim y t ∧
  ∀ c ycurrent IM_id,
    Simulation.resolve_contribution depth
      (Simulation.with_IM_cells (λ _, groups') sim) c ycurrent IM_id
    = Simulation.resolve_contribution depth sim c ycurrent IM_id.
Proof.
  intros H. split; [by apply deriv_cell_ids|].
  intros. by apply resolve_contribution_cell_ids.
Qed.

Lemma X19_deriv_reads_group_sizes_only_witness :
  Simulation.deriv 5 (Simulation.with_IM_cells (λ _, [[1; 0]]) (sim_pair im_one_edge))
    state_pair vzero
  = Simulation.deriv 5 (sim_pair im_one_edge) state_pair vzero ∧
  ∀ c ycurrent IM_id,
    Simulation.resolve_contribution 5
      (Simulation.with_IM_cells (λ _, [[1; 0]]) (sim_pair im_one_edge)) c ycurrent IM_id
    = Simulation.resolve_contribution 5 (sim_pair im_one_edge) c ycurrent IM_id.
Proof.
  apply (X19_deriv_reads_group_sizes_only 5 (sim_pair im_one_edge) [[1; 0]]
           state_pair vzero).
  reflexivity.
Defined.

(** ** The derivative needs the parameters of every term it meets *)

Lemma apply_Ok_params m x y : Model.apply m x = Ok y → Model.params_set m = true.
Proof.
  destruct m as [p|? ? p|? ? p|? ? p|p|p|? ? ?]; simpl; try done;
    destruct p; simpl; try done; intros _; by apply bool_decide_eq_true_2.
Qed.

Lemma apply2_Ok_params m x b y : Model.apply2 m x b = Ok y → Model.params_set m = true.
Proof.
  destruct m as [| | | | | |C d c]; simpl; try done.
  unfold Model.Diffusion_apply, Model.Diffusion_masked_contribs. destruct b as [lo hi].
  intros H. apply bind_Ok in H as (? & H & _). apply bind_Ok in H as (? & _ & H).
  apply bind_Ok in H as (? & H & _). destruct C; [|done].
  by apply bool_decide_eq_true_2.
Qed.

Lemma resolve_Ok_params depth sim c ycurrent i r :
  Simulation.resolve_contribution depth sim c ycurrent i = Ok r →
  contrib_params_set c = true.
Proof.
  destruct depth as [|depth]; [done|]. cbn [Simulation.resolve_contribution].
  destruct c as [e|x]; intros H; simpl.
  - apply bind_Ok in H as (? & _ & H). apply bind_Ok in H as (? & _ & H).
    apply bind_Ok in H as (? & _ & H). apply bind_Ok in H as (? & _ & H).
    apply bind_Ok in H as (? & _ & H). apply bind_Ok in H as (? & _ & H).
    apply bind_Ok in H as (? & H & _). by eapply apply_Ok_params.
  - apply bind_Ok in H as (? & _ & H). apply bind_Ok in H as (? & _ & H).
    apply bind_Ok in H as (? & _ & H). apply bind_Ok in H as (? & _ & H).
    apply bind_Ok in H as (? & _ & H). apply bind_Ok in H as (? & H & _).
    by eapply apply2_Ok_params.
Qed.

(** X20: [deriv] returns only when every term it has to apply has its
    parameters.  If [deriv] returns a vector, then every edge and every
    interaction that contributes to a species of a registered model has
    [params_set]: a term without parameters raises when it is applied.
    For the edges this is what the readiness check asks for beforehand;
    for the interactions nothing checks it before the integrator runs. *)
Theorem X20_deriv_needs_parameters (depth : nat) (sim : Simulation.t) (y : list val)
    (t : val) (out : list val) :
  Simulation.deriv depth sim y t = Ok out →
  ∀ i im k c,
    Simulation.IMs sim !! i = Some im → k < InternalModel.num_nodes im →
    c ∈ contributions sim im k →
    contrib_params_set c = true.
Proof.
  intros Hderiv i im k c Him Hk Hc.
  destruct (deriv_assembly _ _ _ _ _ Hderiv) as (dims & ycurrent & Hdims & _ & _ & Hall).
  destruct (IM_dims_spec _ _ Hdims) as [Hlen Hspec].
  destruct (lookup_lt_is_Some_2 dims i) as [[n s] Hd].
  { rewrite Hlen. by eapply lookup_lt_Some. }
  pose proof (proj1 (Hspec i n s) Hd) as (cs & im' & _ & Him' & _ & ->).
  rewrite Him in Him'. injection Him' as <-.
  destruct (Hall i im n _ Him Hd k Hk) as (rs & Hrs & _).
  apply mapM'_Forall2 in Hrs.
  apply list_elem_of_lookup_1 in Hc as [p Hp].
  destruct (Forall2_lookup_l _ _ _ _ _ Hrs Hp) as (r & _ & Hr).
  by eapply resolve_Ok_params.
Qed.

Lemma X20_deriv_needs_parameters_witness :
  Simulation.deriv 5 (sim_pair im_one_edge) state_pair vzero = Ok [vzero; vone] ∧
  ∀ i im k c,
    Simulation.IMs (sim_pair im_one_edge) !! i = Some im →
    k < InternalModel.num_nodes im →
    c ∈ contributions (sim_pair im_one_edge) im k →
    contrib_params_set c = true.
Proof.
  assert (Simulation.deriv 5 (sim_pair im_one_edge) state_pair vzero
          = Ok [vzero; vone]) as H
    by (apply (bool_decide_unpack _); vm_compute; exact I).
  split; [exact H|].
  exact (X20_deriv_needs_parameters 5 (sim_pair im_one_edge) state_pair vzero
           [vzero; vone] H).
Defined.

(** ** Initial conditions of the wrong length *)

Lemma mapM'_Ok_or_Raise {A B} (f : A → result B) (e : exn) (l : list A) :
  Forall (λ x, (∃ y, f x = Ok y) ∨ f x = Raise e) l →
  (∃ ys, mapM' f l = Ok ys) ∨ mapM' f l = Raise e.
Proof.
  induction 1 as [|x l Hx _ IH]; [left; by eexists|]. simpl.
  destruct Hx as [[y ->]| ->]; simpl; [|by right].
  destruct IH as [[ys ->]| ->]; simpl; [left; by eexists|by right].
Qed.

Lemma mapM'_raises_or {A B} (f : A → result B) (e : exn) (l : list A) :
  Forall (λ x, (∃ y, f x = Ok y) ∨ f x = Raise e) l →
  Exists (λ x, f x = Raise e) l →
  mapM' f l = Raise e.
Proof.
  intros Hall Hex. apply mapM'_raises; [|done].
  eapply Forall_impl; [exact Hall|]. simpl. intros x [[y ->]| ->]; [left; eauto|by right].
Qed.

Lemma initial_row_cases sim s cid c ic :
  Simulation.cells sim !! cid = Some c → Cell.IC c = Some ic →
  (∃ r, Simulation.initial_row sim s cid = Ok r) ∨
  Simulation.initial_row sim s cid = Raise ValueError.
Proof.
  intros Hc Hic. unfold Simulation.initial_row.
  rewrite (proj2 (py_index_Ok _ _ _) Hc). simpl. rewrite Hic.
  case_decide; [left; by eexists|]. destruct ic as [|v [|??]]; eauto.
Qed.

(** X21: the readiness check does not look at the length of an initial
    condition.  In a simulation whose groups list cells that exist and
    that passes the check, if a cell of a group holds an initial condition
    whose length is neither the number of species of the group's model nor
    one (it was set under another model), then [simulate] sets the bounds
    and raises [ValueError] while it lays out the initial state, before
    the integrator is called.  An initial condition of length one is
    taken for every species. *)
Theorem X21_initial_condition_length (sim : Simulation.t) (i : nat) (cs : list nat)
    (im : InternalModel.t) (cid : nat) (c : Cell.t) (ic : list val) :
  length (Simulation.IM_cells sim) = length (Simulation.IMs sim) →
  Forall (Forall (λ cid, cid < Simulation.num_cells sim)) (Simulation.IM_cells sim) →
  Simulation.simulation_ready sim = Ok true →
  Simulation.IM_cells sim !! i = Some cs → Simulation.IMs sim !! i = Some im →
  cid ∈ cs → Simulation.cells sim !! cid = Some c → Cell.IC c = Some ic →
  length ic ≠ InternalModel.num_nodes im →
  (length ic ≠ 1 →
     ∀ odeint depth times,
       Simulation.simulate odeint depth times sim
       = (exec Simulation.set_cell_bounds sim, Raise ValueError)) ∧
  (∀ v, ic = [v] →
     Simulation.initial_row sim (InternalModel.num_nodes im) cid
     = Ok (replicate (InternalModel.num_nodes im) v)).
Proof.
  intros Hlen Hvalid Hready Hcs Him Hcid Hc Hic Hne. split.
  - intros Hne1 odeint depth times.
    destruct (simulation_ready_true _ Hready) as (_ & HIC & _).
    assert (Simulation.initial_state sim = Raise ValueError) as Hinit.
    { unfold Simulation.initial_state.
      rewrite (mapM'_raises_or _ ValueError); [done| |].
      - apply Forall_forall. intros i' [_ Hi']%elem_of_seq.
        destruct (lookup_lt_is_Some_2 (Simulation.IM_cells sim) i') as [cs' Hcs'];
          [lia|].
        destruct (lookup_lt_is_Some_2 (Simulation.IMs sim) i') as [im' Him']; [lia|].
        rewrite (proj2 (py_index_Ok _ _ _) Hcs'), (proj2 (py_index_Ok _ _ _) Him').
        cbn [mbind result_bind].
        destruct (mapM'_Ok_or_Raise
                    (Simulation.initial_row sim (InternalModel.num_nodes im'))
                    ValueError cs') as [[rows ->]| ->]; [|left; by eexists|by right].
        apply Forall_forall. intros cid' Hcid'.
        rewrite Forall_forall in Hvalid.
        pose proof (Hvalid cs' (list_elem_of_lookup_2 _ _ _ Hcs')) as Hv.
        rewrite Forall_forall in Hv. specialize (Hv cid' Hcid').
        destruct (lookup_lt_is_Some_2 _ _ Hv) as [c' Hc'].
        unfold every_cell_has_IC in HIC. rewrite Forall_forall in HIC.
        destruct (HIC c' (list_elem_of_lookup_2 _ _ _ Hc')) as [ic' Hic'].
        by eapply initial_row_cases.
      - apply Exists_exists. exists i. split.
        { apply elem_of_seq. apply lookup_lt_Some in Him. lia. }
        rewrite (proj2 (py_index_Ok _ _ _) Hcs), (proj2 (py_index_Ok _ _ _) Him).
        cbn [mbind result_bind].
        rewrite (mapM'_raises_or _ ValueError); [done| |].
        + apply Forall_forall. intros cid' Hcid'.
          rewrite Forall_forall in Hvalid.
          pose proof (Hvalid cs (list_elem_of_lookup_2 _ _ _ Hcs)) as Hv.
          rewrite Forall_forall in Hv. specialize (Hv cid' Hcid').
          destruct (lookup_lt_is_Some_2 _ _ Hv) as [c' Hc'].
          unfold every_cell_has_IC in HIC. rewrite Forall_forall in HIC.
          destruct (HIC c' (list_elem_of_lookup_2 _ _ _ Hc')) as [ic' Hic'].
          by eapply initial_row_cases.
        + apply Exists_exists. exists cid. split; [done|].
          unfold Simulation.initial_row.
          rewrite (proj2 (py_index_Ok _ _ _) Hc). simpl. rewrite Hic.
          rewrite decide_False by done. by destruct ic as [|v [|??]]. }
    assert (Simulation.simulate_prepare sim
            = (exec Simulation.set_cell_bounds sim, Raise ValueError)) as Hprep.
    { unfold Simulation.simulate_prepare.
      rewrite st_bind_unfold. cbn [st_get]. rewrite st_lift_bind, Hready.
      cbn [negb]. rewrite st_bind_unfold.
      change (Simulation.set_cell_bounds sim)
        with (exec Simulation.set_cell_bounds sim, Ok () : result unit).
      cbv iota beta. rewrite st_bind_unfold. cbn [st_get]. rewrite st_lift_bind.
      change (Simulation.initial_state (exec Simulation.set_cell_bounds sim))
        with (Simulation.initial_state sim).
      by rewrite Hinit. }
    unfold Simulation.simulate. by rewrite st_bind_unfold, Hprep.
  - intros v ->. unfold Simulation.initial_row.
    rewrite (proj2 (py_index_Ok _ _ _) Hc). simpl. rewrite Hic.
    by rewrite decide_False.
Qed.

Lemma X21_initial_condition_length_witness :
  (2 ≠ 1 →
     ∀ odeint depth times,
       Simulation.simulate odeint depth times sim_stale_IC
       = (exec Simulation.set_cell_bounds sim_stale_IC, Raise ValueError)) ∧
  (∀ v, [vone; vzero] = [v] →
     Simulation.initial_row sim_stale_IC (InternalModel.num_nodes im_three_species) 0
     = Ok (replicate (InternalModel.num_nodes im_three_species) v)).
Proof.
  eapply (X21_initial_condition_length sim_stale_IC 1 [0] im_three_species 0 _
            [vone; vzero]).
  - reflexivity.
  - repeat constructor.
  - by vm_compute.
  - reflexivity.
  - reflexivity.
  - set_solver.
  - reflexivity.
  - reflexivity.
  - vm_compute. lia.
Defined.

(** ** Splitting the trajectory per cell *)

(** The loop over the cells of one group. *)
Lemma split_group (sol : ndarray val) (nspecies : nat) (cs : list nat) :
  ∀ (cdata : list (option (ndarray val))) (sol_index : nat),
    Forall (λ cid, cid < length cdata) cs →
    ∃ cdata',
      foldM (λ '(cdata, sol_index) cid,
               if decide (cid < length cdata)
               then Ok (<[cid := Some (cols_slice sol_index (sol_index + nspecies) sol)]>
                          cdata, sol_index + nspecies)
               else Raise IndexError) (cdata, sol_index) cs
      = Ok (cdata', sol_index + length cs * nspecies) ∧
      length cdata' = length cdata ∧
      (∀ cid, cid ∉ cs → cdata' !! cid = cdata !! cid) ∧
      (∀ j cid, cs !! j = Some cid → cid ∉ drop (S j) cs →
         cdata' !! cid
         = Some (Some (cols_slice (sol_index + j * nspecies)
                                  (sol_index + j * nspecies + nspecies) sol))).
Proof.
  induction cs as [|c cs IH]; intros cdata sol_index Hvalid.
  - exists cdata. simpl. rewrite Nat.add_0_r. by split_and!.
  - apply Forall_cons in Hvalid as [Hc Hvalid]. cbn [foldM].
    rewrite decide_True by done. cbn [mbind result_bind].
    destruct (IH (<[c := Some (cols_slice sol_index (sol_index + nspecies) sol)]> cdata)
                 (sol_index + nspecies)) as (cdata' & -> & Hlen & Hother & Hat).
    { by rewrite length_insert. }
    rewrite length_insert in Hlen.
    exists cdata'. split_and!.
    + do 2 f_equal. simpl. lia.
    + done.
    + intros cid [Hne Hcid]%not_elem_of_cons.
      rewrite Hother by done. by apply list_lookup_insert_ne.
    + intros [|j] cid Hj Hlast; simpl in Hj, Hlast.
      * injection Hj as ->. rewrite Hother by done.
        rewrite Nat.add_0_r. by apply list_lookup_insert_eq.
      * rewrite (Hat j cid Hj Hlast). do 2 f_equal. f_equal; simpl; lia.
Qed.

(** The loop over the groups [a, a + m). *)
Lemma split_groups (sim : Simulation.t) (sol : ndarray val) (dims : list (nat * nat)) :
  Simulation.IM_dims sim = Ok dims →
  Forall (Forall (λ cid, cid < Simulation.num_cells sim)) (Simulation.IM_cells sim) →
  ∀ m a (cdata : list (option (ndarray val))),
    a + m = length (Simulation.IMs sim) →
    length cdata = Simulation.num_cells sim →
    ∃ cdata',
      foldM (λ '(cdata, sol_index) i,
               '(_, nspecies) ← py_index dims i;
               cs ← py_index (Simulation.IM_cells sim) i;
               foldM (λ '(cdata, sol_index) cid,
                        if decide (cid < length cdata)
                        then Ok (<[cid := Some (cols_slice sol_index
                                                  (sol_index + nspecies) sol)]> cdata,
                                 sol_index + nspecies)
                        else Raise IndexError) (cdata, sol_index) cs)
            (cdata, prefix_sum (group_sizes dims) a) (seq a m)
      = Ok (cdata', prefix_sum (group_sizes dims) (a + m)) ∧
      length cdata' = length cdata ∧
      (∀ cid, (∀ i cs, a ≤ i < a + m → Simulation.IM_cells sim !! i = Some cs → cid ∉ cs) →
         cdata' !! cid = cdata !! cid) ∧
      (∀ i cs n s j cid,
         a ≤ i < a + m →
         Simulation.IM_cells sim !! i = Some cs → dims !! i = Some (n, s) →
         cs !! j = Some cid → cid ∉ drop (S j) cs →
         (∀ i' cs', i < i' < a + m → Simulation.IM_cells sim !! i' = Some cs' → cid ∉ cs') →
         cdata' !! cid
         = Some (Some (cols_slice (prefix_sum (group_sizes dims) i + j * s)
                                  (prefix_sum (group_sizes dims) i + j * s + s) sol))).
Proof.
  intros Hdims Hvalid. destruct (IM_dims_spec _ _ Hdims) as [Hlen Hspec].
  induction m as [|m IH]; intros a cdata Ham Hcd.
  - exists cdata. simpl. rewrite Nat.add_0_r. split_and!; [done..|]. intros; lia.
  - cbn [seq foldM].
    destruct (lookup_lt_is_Some_2 dims a) as [[n s] Hd]; [lia|].
    pose proof (proj1 (Hspec a n s) Hd) as (cs & im & Hcs & Him & -> & ->).
    rewrite (proj2 (py_index_Ok _ _ _) Hd). cbn [mbind result_bind].
    rewrite (proj2 (py_index_Ok _ _ _) Hcs). cbn [mbind result_bind].
    destruct (split_group sol (InternalModel.num_nodes im) cs cdata
                (prefix_sum (group_sizes dims) a))
      as (cdata1 & -> & Hlen1 & Hother1 & Hat1).
    { rewrite Hcd. rewrite Forall_forall in Hvalid.
      by apply Hvalid, (list_elem_of_lookup_2 _ a). }
    cbn [mbind result_bind].
    assert (prefix_sum (group_sizes dims) a + length cs * InternalModel.num_nodes im
            = prefix_sum (group_sizes dims) (S a)) as ->.
    { symmetry. apply prefix_sum_S. unfold group_sizes.
      by rewrite list_lookup_fmap, Hd. }
    destruct (IH (S a) cdata1) as (cdata' & -> & Hlen' & Hother' & Hat'); [lia..|].
    exists cdata'. split_and!.
    + do 2 f_equal. f_equal. lia.
    + lia.
    + intros cid Hcid. rewrite Hother'.
      * apply Hother1. apply (Hcid a); [lia|done].
      * intros i cs' Hi. apply Hcid. lia.
    + intros i cs' n s j cid Hi Hcs' Hd' Hj Hlast Hlater.
      destruct (decide (i = a)) as [->|Hne].
      * rewrite Hcs in Hcs'. injection Hcs' as <-.
        rewrite Hd in Hd'. injection Hd' as <- <-.
        rewrite Hother'; [by apply Hat1|].
        intros i' cs' Hi'. apply Hlater. lia.
      * apply (Hat' i cs' n); try done; [lia|].
        intros i' cs'' Hi'. apply Hlater. lia.
Qed.

(** What the split returns, cell by cell. *)
Lemma split_solution_cells (sim : Simulation.t) (sol : ndarray val)
    (dims : list (nat * nat)) :
  Simulation.IM_dims sim = Ok dims →
  Forall (Forall (λ cid, cid < Simulation.num_cells sim)) (Simulation.IM_cells sim) →
  ∃ cdata,
    Simulation.split_solution sim sol = Ok cdata ∧
    length cdata = Simulation.num_cells sim ∧
    (∀ cid, cid < Simulation.num_cells sim →
       (∀ i cs, i < length (Simulation.IMs sim) →
                Simulation.IM_cells sim !! i = Some cs → cid ∉ cs) →
       cdata !! cid = Some None) ∧
    (∀ i cs n s j cid,
       Simulation.IM_cells sim !! i = Some cs → dims !! i = Some (n, s) →
       cs !! j = Some cid → cid ∉ drop (S j) cs →
       (∀ i' cs', i < i' < length (Simulation.IMs sim) →
                  Simulation.IM_cells sim !! i' = Some cs' → cid ∉ cs') →
       cdata !! cid
       = Some (Some (cols_slice (prefix_sum (group_sizes dims) i + j * s)
                                (prefix_sum (group_sizes dims) i + j * s + s) sol))).
Proof.
  intros Hdims Hvalid. destruct (IM_dims_spec _ _ Hdims) as [Hlen _].
  destruct (split_groups sim sol dims Hdims Hvalid (length (Simulation.IMs sim)) 0
              ((λ _, None) <$> Simulation.cells sim))
    as (cdata & Hfold & Hlen' & Hother & Hat); [done|by rewrite length_fmap|].
  rewrite length_fmap in Hlen'.
  exists cdata. unfold Simulation.split_solution. rewrite Hdims.
  cbn [mbind result_bind]. rewrite prefix_sum_0 in Hfold. rewrite Hfold.
  cbn [mbind result_bind fst]. split_and!; [done..| |].
  - intros cid Hcid Hnone. rewrite Hother.
    + rewrite list_lookup_fmap.
      destruct (lookup_lt_is_Some_2 (Simulation.cells sim) cid Hcid) as [c ->]. done.
    + intros i cs Hi. apply Hnone. lia.
  - intros i cs n s j cid Hcs Hd Hj Hlast Hlater.
    apply (Hat i cs n); try done.
    apply lookup_lt_Some in Hd. lia.
Qed.

(** X22: how [simulate] hands the trajectory back.  When every group
    lists cells that exist, the split returns one entry per cell.  A cell
    that no group lists keeps [None].  A cell listed in a group gets the
    columns of the position where it is listed last: position [j] of
    group [i] with [s] species is the columns from
    [prefix_sum sizes i + j * s] on, [s] of them, so a cell that was
    assigned a model twice shows the block of its last listing only. *)
Theorem X22_split_solution (sim : Simulation.t) (sol : ndarray val)
    (dims : list (nat * nat)) :
  Simulation.IM_dims sim = Ok dims →
  Forall (Forall (λ cid, cid < Simulation.num_cells sim)) (Simulation.IM_cells sim) →
  ∃ cdata,
    Simulation.split_solution sim sol = Ok cdata ∧
    length cdata = Simulation.num_cells sim ∧
    (∀ cid, cid < Simulation.num_cells sim →
       (∀ i cs, i < length (Simulation.IMs sim) →
                Simulation.IM_cells sim !! i = Some cs → cid ∉ cs) →
       cdata !! cid = Some None) ∧
    (∀ i cs n s j cid,
       Simulation.IM_cells sim !! i = Some cs → dims !! i = Some (n, s) →
       cs !! j = Some cid → cid ∉ drop (S j) cs →
       (∀ i' cs', i < i' < length (Simulation.IMs sim) →
                  Simulation.IM_cells sim !! i' = Some cs' → cid ∉ cs') →
       cdata !! cid
       = Some (Some (cols_slice (prefix_sum (group_sizes dims) i + j * s)
                                (prefix_sum (group_sizes dims) i + j * s + s) sol))).
Proof. exact (split_solution_cells sim sol dims). Qed.

Lemma X22_split_solution_witness :
  ∃ cdata,
    Simulation.split_solution sim_stale_IC (NdArray 1 5 (λ _ j, vint (Z.of_nat j)))
    = Ok cdata ∧
    length cdata = Simulation.num_cells sim_stale_IC ∧
    (∀ cid, cid < Simulation.num_cells sim_stale_IC →
       (∀ i cs, i < length (Simulation.IMs sim_stale_IC) →
                Simulation.IM_cells sim_stale_IC !! i = Some cs → cid ∉ cs) →
       cdata !! cid = Some None) ∧
    (∀ i cs n s j cid,
       Simulation.IM_cells sim_stale_IC !! i = Some cs → [(1, 2); (1, 3)] !! i = Some (n, s) →
       cs !! j = Some cid → cid ∉ drop (S j) cs →
       (∀ i' cs', i < i' < length (Simulation.IMs sim_stale_IC) →
                  Simulation.IM_cells sim_stale_IC !! i' = Some cs' → cid ∉ cs') →
       cdata !! cid
       = Some (Some (cols_slice (prefix_sum (group_sizes [(1, 2); (1, 3)]) i + j * s)
                                (prefix_sum (group_sizes [(1, 2); (1, 3)]) i + j * s + s)
                                (NdArray 1 5 (λ _ j, vint (Z.of_nat j)))))).
Proof.
  apply (X22_split_solution sim_stale_IC (NdArray 1 5 (λ _ j, vint (Z.of_nat j)))
           [(1, 2); (1, 3)]).
  - reflexivity.
  - repeat constructor.
Defined.

(** ** From the initial conditions to the first sample *)

Lemma mapM'_all_Ok {A B} (f : A → result B) (l : list A) :
  Forall (λ x, ∃ y, f x = Ok y) l → ∃ ys, mapM' f l = Ok ys.
Proof.
  induction 1 as [|x l [y Hy] _ [ys IH]]; [by eexists|].
  simpl. rewrite Hy. simpl. rewrite IH. by eexists.
Qed.

(** The initial state is laid out when every listed cell holds an initial
    condition that fits its group, or one of length one. *)
Lemma initial_state_total (sim : Simulation.t) :
  length (Simulation.IM_cells sim) = length (Simulation.IMs sim) →
  Forall (Forall (λ cid, cid < Simulation.num_cells sim)) (Simulation.IM_cells sim) →
  Simulation.simulation_ready sim = Ok true →
  (∀ i cs im cid c ic,
     Simulation.IM_cells sim !! i = Some cs → Simulation.IMs sim !! i = Some im →
     cid ∈ cs → Simulation.cells sim !! cid = Some c → Cell.IC c = Some ic →
     length ic = InternalModel.num_nodes im ∨ length ic = 1) →
  ∃ y0, Simulation.initial_state sim = Ok y0.
Proof.
  intros Hlen Hvalid Hready Hfit.
  destruct (simulation_ready_true _ Hready) as (_ & HIC & _).
  unfold Simulation.initial_state.
  destruct (mapM'_all_Ok (λ i,
      cs ← py_index (Simulation.IM_cells sim) i;
      im ← py_index (Simulation.IMs sim) i;
      rows ← mapM' (Simulation.initial_row sim (InternalModel.num_nodes im)) cs;
      Ok (mjoin (M := list) rows)) (seq 0 (length (Simulation.IMs sim))))
    as [yinitial Hy].
  { apply Forall_forall. intros i [_ Hi]%elem_of_seq.
    destruct (lookup_lt_is_Some_2 (Simulation.IM_cells sim) i) as [cs Hcs]; [lia|].
    destruct (lookup_lt_is_Some_2 (Simulation.IMs sim) i) as [im Him]; [lia|].
    rewrite (proj2 (py_index_Ok _ _ _) Hcs), (proj2 (py_index_Ok _ _ _) Him).
    cbn [mbind result_bind].
    destruct (mapM'_all_Ok (Simulation.initial_row sim (InternalModel.num_nodes im)) cs)
      as [rows ->]; [|by eexists].
    apply Forall_forall. intros cid Hcid.
    rewrite Forall_forall in Hvalid.
    pose proof (Hvalid cs (list_elem_of_lookup_2 _ _ _ Hcs)) as Hv.
    rewrite Forall_forall in Hv. specialize (Hv cid Hcid).
    destruct (lookup_lt_is_Some_2 _ _ Hv) as [c Hc].
    unfold every_cell_has_IC in HIC. rewrite Forall_forall in HIC.
    destruct (HIC c (list_elem_of_lookup_2 _ _ _ Hc)) as [ic Hic].
    unfold Simulation.initial_row.
    rewrite (proj2 (py_index_Ok _ _ _) Hc). simpl. rewrite Hic.
    case_decide; [by eexists|].
    destruct (Hfit i cs im cid c ic Hcs Him Hcid Hc Hic) as [?|H1]; [done|].
    destruct ic as [|v [|??]]; simpl in H1; try lia. by eexists. }
  rewrite Hy. cbn [mbind result_bind].
  pose proof (mapM'_length _ _ _ Hy) as Hl. rewrite length_seq in Hl.
  assert (0 < length (Simulation.IMs sim)) as Hpos.
  { revert Hready. unfold Simulation.simulation_ready.
    destruct (Simulation.IMs sim); [|simpl; lia].
    do 2 (destruct (reduce_and (_ <$> Simulation.cells sim)) as [[]|]; simpl; try done). }
  destruct yinitial; [simpl in Hl; lia|]. by eexists.
Qed.

(** X23: the first sample of every cell is its initial condition.  Take a
    simulation whose groups list cells that exist, that passes the
    readiness check, and in which every listed cell holds an initial
    condition of the length of its group's model or of length one; and an
    integrator that returns a trajectory whose first row is the state it
    was started from.  Then [simulate] sets the cell bounds and returns
    one entry per cell, and the entry of a cell, taken where it is listed
    last, has one column per species and starts with the initial condition
    of the cell as [simulate] laid it out. *)
Theorem X23_simulate_starts_at_initial_conditions
    (odeint : (list val → val → result (list val)) → list val → list val
              → result (ndarray val))
    (depth : nat) (times : list val) (sim : Simulation.t) :
  length (Simulation.IM_cells sim) = length (Simulation.IMs sim) →
  Forall (Forall (λ cid, cid < Simulation.num_cells sim)) (Simulation.IM_cells sim) →
  Simulation.simulation_ready sim = Ok true →
  (∀ i cs im cid c ic,
     Simulation.IM_cells sim !! i = Some cs → Simulation.IMs sim !! i = Some im →
     cid ∈ cs → Simulation.cells sim !! cid = Some c → Cell.IC c = Some ic →
     length ic = InternalModel.num_nodes im ∨ length ic = 1) →
  (∀ y0, Simulation.initial_state sim = Ok y0 →
     ∃ sol, odeint (Simulation.deriv depth (exec Simulation.set_cell_bounds sim)) y0 times
            = Ok sol ∧
            0 < nrows sol ∧ ncols sol = length y0 ∧
            ∀ k, k < length y0 → y0 !! k = Some (cell sol 0 k)) →
  ∃ cdata,
    Simulation.simulate odeint depth times sim
    = (exec Simulation.set_cell_bounds sim, Ok (Some cdata)) ∧
    length cdata = Simulation.num_cells sim ∧
    ∀ i cs im j cid,
      Simulation.IM_cells sim !! i = Some cs → Simulation.IMs sim !! i = Some im →
      cs !! j = Some cid → cid ∉ drop (S j) cs →
      (∀ i' cs', i < i' → Simulation.IM_cells sim !! i' = Some cs' → cid ∉ cs') →
      ∃ m, cdata !! cid = Some (Some m) ∧
           0 < nrows m ∧ ncols m = InternalModel.num_nodes im ∧
           Simulation.initial_row sim (InternalModel.num_nodes im) cid = Ok (row m 0).
Proof.
  intros Hlen Hvalid Hready Hfit Hode.
  destruct (initial_state_total sim Hlen Hvalid Hready Hfit) as [y0 Hy0].
  destruct (Hode y0 Hy0) as (sol & Hsol & Hrows & Hcols & Hfirst).
  pose proof (IM_dims_total sim Hlen) as Hdims.
  set (dims := zip (length <$> Simulation.IM_cells sim)
                   (InternalModel.num_nodes <$> Simulation.IMs sim)) in Hdims.
  destruct (split_solution_cells sim sol dims Hdims Hvalid)
    as (cdata & Hsplit & Hlen' & _ & Hat).
  destruct (initial_state_layout sim dims y0 Hdims Hy0) as [Hy0len Hlayout].
  destruct (IM_dims_spec _ _ Hdims) as [_ Hspec].
  assert (Simulation.simulate_prepare sim
          = (exec Simulation.set_cell_bounds sim, Ok (Some y0))) as Hprep.
  { unfold Simulation.simulate_prepare.
    rewrite st_bind_unfold. cbn [st_get]. rewrite st_lift_bind, Hready.
    cbn [negb]. rewrite st_bind_unfold.
    change (Simulation.set_cell_bounds sim)
      with (exec Simulation.set_cell_bounds sim, Ok () : result unit).
    cbv iota beta. rewrite st_bind_unfold. cbn [st_get]. rewrite st_lift_bind.
    change (Simulation.initial_state (exec Simulation.set_cell_bounds sim))
      with (Simulation.initial_state sim).
    by rewrite Hy0. }
  exists cdata. split_and!; [|done|].
  - unfold Simulation.simulate. rewrite st_bind_unfold, Hprep.
    rewrite st_bind_unfold. cbn [st_get]. rewrite st_lift_bind, Hsol.
    rewrite st_lift_bind.
    change (Simulation.split_solution (exec Simulation.set_cell_bounds sim) sol)
      with (Simulation.split_solution sim sol).
    by rewrite Hsplit.
  - intros i cs im j cid Hcs Him Hj Hlast Hlater.
    set (s := InternalModel.num_nodes im).
    assert (dims !! i = Some (length cs, s)) as Hd.
    { apply Hspec. by exists cs, im. }
    set (off := prefix_sum (group_sizes dims) i + j * s).
    exists (cols_slice off (off + s) sol).
    destruct (Hlayout i cs im j cid Hcs Him Hj) as (rowv & Hrow & Hk).
    pose proof (initial_row_length _ _ _ _ Hrow) as Hrl.
    assert (off + s ≤ ncols sol) as Hfits.
    { rewrite Hcols, Hy0len.
      pose proof (prefix_sum_le (group_sizes dims) (S i)) as Hle.
      rewrite (prefix_sum_S _ _ (length cs * s)) in Hle
        by (unfold group_sizes; by rewrite list_lookup_fmap, Hd).
      apply lookup_lt_Some in Hj. unfold off. nia. }
    split_and!.
    + apply (Hat i cs (length cs)); try done. intros i' cs' [Hi' _]. by apply Hlater.
    + done.
    + simpl. lia.
    + fold s in Hrow. rewrite Hrow. f_equal. apply list_eq. intros k. unfold row.
      rewrite list_lookup_fmap. cbn [ncols cols_slice cell].
      replace ((off + s) `min` ncols sol - off `min` ncols sol) with s by lia.
      destruct (decide (k < s)) as [Hks|Hks].
      * rewrite lookup_seq_lt by done. simpl. rewrite <- (Hk k Hks).
        replace (off `min` ncols sol + k) with (off + k) by lia.
        unfold off. apply Hfirst. fold off. lia.
      * rewrite lookup_seq_ge by lia. simpl. apply lookup_ge_None. lia.
Qed.

Lemma X23_simulate_starts_at_initial_conditions_witness :
  ∃ cdata,
    Simulation.simulate odeint_initial_only 5 [vzero] sim_unset_interaction
    = (exec Simulation.set_cell_bounds sim_unset_interaction, Ok (Some cdata)) ∧
    length cdata = Simulation.num_cells sim_unset_interaction ∧
    ∀ i cs im j cid,
      Simulation.IM_cells sim_unset_interaction !! i = Some cs →
      Simulation.IMs sim_unset_interaction !! i = Some im →
      cs !! j = Some cid → cid ∉ drop (S j) cs →
      (∀ i' cs', i < i' → Simulation.IM_cells sim_unset_interaction !! i' = Some cs' →
                 cid ∉ cs') →
      ∃ m, cdata !! cid = Some (Some m) ∧
           0 < nrows m ∧ ncols m = InternalModel.num_nodes im ∧
           Simulation.initial_row sim_unset_interaction (InternalModel.num_nodes im) cid
           = Ok (row m 0).
Proof.
  apply (X23_simulate_starts_at_initial_conditions odeint_initial_only 5 [vzero]
           sim_unset_interaction).
  - reflexivity.
  - repeat constructor.
  - by vm_compute.
  - intros [|i] cs im cid c ic Hcs Him Hcid Hc Hic; [|done].
    vm_compute in Hcs, Him. injection Hcs as <-. injection Him as <-.
    apply list_elem_of_singleton in Hcid as ->.
    vm_compute in Hc. injection Hc as <-. vm_compute in Hic. injection Hic as <-.
    by left.
  - intros y0 _. eexists. split; [reflexivity|]. split_and!; [simpl; lia|done|].
    intros k Hk. simpl. destruct (lookup_lt_is_Some_2 y0 k Hk) as [v Hv].
    by rewrite Hv, (list_lookup_total_correct _ _ _ Hv).
Defined.

(** ** Cells without interactions *)

Lemma result_rel_bind {A A' B B'} (P : A → A' → Prop) (Q : B → B' → Prop)
    (r : result A) (r' : result A') (f : A → result B) (f' : A' → result B') :
  result_rel P r r' →
  (∀ a a', P a a' → result_rel Q (f a) (f' a')) →
  result_rel Q (r ≫= f) (r' ≫= f').
Proof.
  unfold result_rel at 1. destruct r as [a|e], r' as [a'|e']; simpl; try done.
  intros H Hf. by apply Hf.
Qed.

Lemma result_rel_same {A B} (Q : B → B → Prop) (r : result A) (f f' : A → result B) :
  (∀ a, r = Ok a → result_rel Q (f a) (f' a)) →
  result_rel Q (r ≫= f) (r ≫= f').
Proof. destruct r as [a|e]; simpl; [intros H; by apply H|done]. Qed.

Lemma result_rel_foldM {A A' B} (P : A → A' → Prop) (f : A → B → result A)
    (f' : A' → B → result A') (l : list B) :
  (∀ a a' x, x ∈ l → P a a' → result_rel P (f a x) (f' a' x)) →
  ∀ a a', P a a' → result_rel P (foldM f a l) (foldM f' a' l).
Proof.
  induction l as [|x l IH]; intros Hf a a' Ha; [done|]. cbn [foldM].
  apply (result_rel_bind P); [apply Hf; [left|done]|].
  intros b b' Hb. apply IH; [|done]. intros. apply Hf; [by right|done].
Qed.

Lemma result_rel_mapM'_seq {B B'} (R : nat → B → B' → Prop)
    (f : nat → result B) (f' : nat → result B') (n : nat) :
  ∀ a,
    (∀ i, a ≤ i < a + n → result_rel (R i) (f i) (f' i)) →
    result_rel (λ ys ys', length ys = n ∧ length ys' = n ∧
                          ∀ i y y', ys !! i = Some y → ys' !! i = Some y' → R (a + i) y y')
      (mapM' f (seq a n)) (mapM' f' (seq a n)).
Proof.
  induction n as [|n IH]; intros a Hf; [by simpl|]. cbn [seq mapM'].
  apply (result_rel_bind (R a)); [apply Hf; lia|]. intros y y' Hy.
  eapply result_rel_bind; [apply (IH (S a)); intros; apply Hf; lia|].
  intros ys ys' (Hl & Hl' & Hys). simpl. split_and!; [lia..|].
  intros [|i] z z' Hz Hz'; simpl in Hz, Hz'.
  - injection Hz as <-. injection Hz' as <-. by rewrite Nat.add_0_r.
  - rewrite <- Nat.add_succ_comm. by apply Hys.
Qed.

Lemma agree_on_fmap (g : val → val) n P x x' :
  agree_on n P x x' → agree_on n P (g <$> x) (g <$> x').
Proof.
  intros (Hl & Hl' & H). split_and!; [by rewrite length_fmap..|].
  intros j Hj. by rewrite !list_lookup_fmap, H.
Qed.

Lemma column_agree n s P m m' j :
  rows_agree n s P m m' → result_rel (agree_on n P) (column m j) (column m' j).
Proof.
  intros (Hm & Hm' & H). unfold shape in Hm, Hm'.
  injection Hm as Hr Hc. injection Hm' as Hr' Hc'.
  unfold column. rewrite Hc, Hc', Hr, Hr'. case_decide; [|done]. simpl.
  split_and!; [by rewrite length_fmap, length_seq..|].
  intros i Hi. rewrite !list_lookup_fmap.
  destruct (decide (i < n)) as [Hlt|Hge].
  - rewrite lookup_seq_lt by done. simpl. f_equal. by apply H.
  - by rewrite lookup_seq_ge by lia.
Qed.

Lemma vec_iop_agree f n P a a' b b' :
  agree_on n P a a' → agree_on n P b b' →
  result_rel (agree_on n P) (vec_iop f a b) (vec_iop f a' b').
Proof.
  intros (Ha & Ha' & Haa) (Hb & Hb' & Hbb). unfold vec_iop.
  rewrite !decide_True by congruence. simpl.
  split_and!; [rewrite length_zip_with; lia..|].
  intros j Hj. by rewrite !lookup_zip_with, Haa, Hbb.
Qed.

Lemma mapM'_hill_outside C A nn x :
  as_int nn = None →
  mapM' (Model.hill C A nn) x = match x with [] => Ok [] | _ => Raise OutsideModel end.
Proof. intros Hn. destruct x; [done|]. simpl. unfold Model.hill. by rewrite Hn. Qed.

Lemma mapM'_hill_inside C A nn k x :
  as_int nn = Some k →
  mapM' (Model.hill C A nn) x
  = Ok ((λ xi, vdiv (vmul C (vpow (vdiv xi A) k)) (vadd vone (vpow (vdiv xi A) k))) <$> x).
Proof.
  intros Hn. apply mapM'_ok, Forall_forall. intros xi _.
  unfold Model.hill. by rewrite Hn.
Qed.

(** A term applied to two vectors that agree at some places returns
    vectors that agree there, or raises for both. *)
Lemma apply_agree m n P x x' :
  agree_on n P x x' →
  result_rel (agree_on n P) (Model.apply m x) (Model.apply m x').
Proof.
  intros Hx. pose proof Hx as (Hl & Hl' & _).
  destruct m as [p|? ? p|? ? p|? ? p|p|p|C d c]; cbn [Model.apply]; [| | | | | |done].
  - destruct p as [C|]; [|done]. simpl. rewrite Hl, Hl'.
    split_and!; [by rewrite length_fmap, length_replicate..|done].
  - destruct p as [C|]; [|done]. simpl. by apply agree_on_fmap.
  - destruct p as [[[C A] nn]|]; [|done]. cbn [Model.getattr mbind result_bind].
    destruct (as_int nn) as [k|] eqn:Hn.
    + rewrite !(mapM'_hill_inside _ _ _ k) by done. by apply agree_on_fmap.
    + rewrite !mapM'_hill_outside by done.
      destruct x, x'; simpl in *; try done; lia.
  - destruct p as [[[[D C] A] nn]|]; [|done]. cbn [Model.getattr mbind result_bind].
    destruct (as_int nn) as [k|] eqn:Hn.
    + rewrite !(mapM'_ok _ (λ xi, vsub D (vdiv (vmul C (vpow (vdiv xi A) k))
                                               (vadd vone (vpow (vdiv xi A) k))))).
      * by apply agree_on_fmap.
      * apply Forall_forall. intros xi _. unfold Model.hill. by rewrite Hn.
      * apply Forall_forall. intros xi _. unfold Model.hill. by rewrite Hn.
    + destruct x, x'; simpl in *; try done; try lia.
      unfold Model.hill. by rewrite Hn.
  - destruct p as [C|]; [|done]. simpl. by apply (agree_on_fmap (λ xi, vmul C (vneg xi))).
  - destruct p as [C|]; [|done]. simpl.
    by apply (agree_on_fmap (λ xi, vmul C (vneg (vpow xi 2)))).
Qed.

Lemma scale_by_agree (res res' : contrib → result (list val)) tag n P mods :
  (∀ c, c ∈ mods → result_rel (agree_on n P) (res c) (res' c)) →
  ∀ v v', agree_on n P v v' →
    result_rel (agree_on n P) (Simulation.scale_by res tag v mods)
      (Simulation.scale_by res' tag v' mods).
Proof.
  intros Hres. unfold Simulation.scale_by. apply result_rel_foldM.
  intros a a' c Hc Ha. case_decide; [|done].
  eapply result_rel_bind; [by apply Hres|]. intros r r' Hr. by apply vec_iop_agree.
Qed.

Lemma get_modifiers_no_interactions sim to_edge IM_id :
  Simulation.interactions sim = [] →
  Simulation.get_modifiers sim to_edge IM_id = Ok [].
Proof. intros H. unfold Simulation.get_modifiers. by rewrite H. Qed.

(** Without interactions, what an edge contributes to a cell is computed
    from the row of that cell. *)
Lemma resolve_agree sim dims Q ycs ycs' IM_id n s :
  Simulation.interactions sim = [] →
  groups_agree dims Q ycs ycs' → dims !! IM_id = Some (n, s) →
  ∀ depth e,
    result_rel (agree_on n (Q IM_id))
      (Simulation.resolve_contribution depth sim (Internal e) ycs IM_id)
      (Simulation.resolve_contribution depth sim (Internal e) ycs' IM_id).
Proof.
  intros Hint (_ & _ & Hg) Hd.
  destruct (Hg _ _ _ Hd) as (m & m' & Hm & Hm' & Hmm).
  induction depth as [|depth IH]; intros e; [done|].
  cbn [Simulation.resolve_contribution].
  apply result_rel_same. intros im _.
  rewrite get_modifiers_no_interactions by done. cbn [mbind result_bind].
  apply result_rel_same. intros from_node _.
  rewrite (proj2 (py_index_Ok _ _ _) Hm), (proj2 (py_index_Ok _ _ _) Hm').
  cbn [mbind result_bind].
  eapply result_rel_bind; [by eapply column_agree|]. intros x x' Hx.
  assert (∀ c, c ∈ (Internal <$> InternalModel.get_modifiers im (Edge.edge_id e))
                   ++ (External <$> []) →
            result_rel (agree_on n (Q IM_id))
              (Simulation.resolve_contribution depth sim c ycs IM_id)
              (Simulation.resolve_contribution depth sim c ycs' IM_id)) as Hmods.
  { intros c Hc. rewrite app_nil_r in Hc. apply list_elem_of_fmap in Hc as (e' & -> & _).
    apply IH. }
  eapply result_rel_bind; [by apply scale_by_agree|]. intros x1 x1' Hx1.
  eapply result_rel_bind; [by apply apply_agree|]. intros y1 y1' Hy1.
  by apply scale_by_agree.
Qed.

Lemma column_iadd_agree n s P yp yp' k r r' :
  rows_agree n s P yp yp' → agree_on n P r r' →
  result_rel (rows_agree n s P) (column_iadd yp k r) (column_iadd yp' k r').
Proof.
  intros Hyp Hr. unfold column_iadd.
  eapply result_rel_bind; [by eapply column_agree|]. intros old old' Hold.
  eapply result_rel_bind; [by apply vec_iop_agree|]. intros new new' (_ & _ & Hnew).
  destruct Hyp as (Hs & Hs' & Hcell). unfold shape in Hs, Hs'.
  injection Hs as Hrows Hcols. injection Hs' as Hrows' Hcols'. simpl.
  split_and!; [unfold shape; simpl; congruence..|].
  intros j k0 Hj Hjn Hk0. simpl. case_decide; [|by apply Hcell].
  by rewrite !list_lookup_total_alt, Hnew.
Qed.

Lemma accumulate_agree depth sim dims Q ycs ycs' i n s im k :
  Simulation.interactions sim = [] →
  groups_agree dims Q ycs ycs' → dims !! i = Some (n, s) →
  ∀ yp yp', rows_agree n s (Q i) yp yp' →
    result_rel (rows_agree n s (Q i))
      (Simulation.accumulate depth sim ycs i im yp k)
      (Simulation.accumulate depth sim ycs' i im yp' k).
Proof.
  intros Hint Hg Hd yp yp' Hyp. unfold Simulation.accumulate.
  apply result_rel_same. intros cnode _.
  unfold Simulation.get_contributions. rewrite Hint.
  apply result_rel_foldM; [|done]. intros a a' c Hc Ha.
  rewrite app_nil_r in Hc. apply list_elem_of_fmap in Hc as (e & -> & _).
  eapply result_rel_bind; [by eapply resolve_agree|]. intros r r' Hr.
  by apply column_iadd_agree.
Qed.

Lemma accumulate_group_agree depth sim dims Q ycs ycs' i :
  Simulation.interactions sim = [] →
  groups_agree dims Q ycs ycs' →
  ∀ yprime yprime', groups_agree dims Q yprime yprime' →
    result_rel (groups_agree dims Q)
      (Simulation.accumulate_group depth sim ycs yprime i)
      (Simulation.accumulate_group depth sim ycs' yprime' i).
Proof.
  intros Hint Hg yprime yprime' (Hl & Hl' & Hy). unfold Simulation.accumulate_group.
  apply result_rel_same. intros im _.
  destruct (dims !! i) as [[n s]|] eqn:Hd.
  - destruct (Hy _ _ _ Hd) as (yp & yp' & Hyp & Hyp' & Hrel).
    rewrite (proj2 (py_index_Ok _ _ _) Hyp), (proj2 (py_index_Ok _ _ _) Hyp').
    cbn [mbind result_bind].
    eapply result_rel_bind.
    { apply (result_rel_foldM (rows_agree n s (Q i))); [|done].
      intros a a' k _ Ha. by eapply accumulate_agree. }
    intros zp zp' Hz. simpl. split_and!; [by rewrite length_insert..|].
    intros g n' s' Hd'. destruct (decide (g = i)) as [->|Hne].
    + rewrite Hd in Hd'. injection Hd' as <- <-. exists zp, zp'.
      apply lookup_lt_Some in Hyp, Hyp'.
      by rewrite !list_lookup_insert_eq.
    + rewrite !list_lookup_insert_ne by done. by apply Hy.
  - apply lookup_ge_None in Hd. unfold py_index.
    by rewrite !lookup_ge_None_2 by lia.
Qed.

Lemma unflatten_agree dims Q y y' :
  cells_agree dims Q y y' →
  result_rel (groups_agree dims Q)
    (Simulation.unflatten dims (Simulation.flat_bounds dims) y)
    (Simulation.unflatten dims (Simulation.flat_bounds dims) y').
Proof.
  intros [Hlen Hcells]. unfold Simulation.unflatten.
  pose proof (result_rel_mapM'_seq
    (λ i m m', ∀ n s, dims !! i = Some (n, s) → rows_agree n s (Q i) m m')
    (λ i, '(r, c) ← py_index dims i;
          lo ← py_index (Simulation.flat_bounds dims) i;
          hi ← py_index (Simulation.flat_bounds dims) (i + 1);
          reshape (slice y lo hi) r c)
    (λ i, '(r, c) ← py_index dims i;
          lo ← py_index (Simulation.flat_bounds dims) i;
          hi ← py_index (Simulation.flat_bounds dims) (i + 1);
          reshape (slice y' lo hi) r c)
    (length dims) 0) as H.
  assert (∀ i, 0 ≤ i < 0 + length dims →
            result_rel (λ m m', ∀ n s, dims !! i = Some (n, s) → rows_agree n s (Q i) m m')
              ('(r, c) ← py_index dims i;
               lo ← py_index (Simulation.flat_bounds dims) i;
               hi ← py_index (Simulation.flat_bounds dims) (i + 1);
               reshape (slice y lo hi) r c)
              ('(r, c) ← py_index dims i;
               lo ← py_index (Simulation.flat_bounds dims) i;
               hi ← py_index (Simulation.flat_bounds dims) (i + 1);
               reshape (slice y' lo hi) r c)) as Hstep.
  { intros i [_ Hi]. destruct (unflatten_step_Ok dims i) as (r & c & Hrc & -> & -> & Hsz);
      [lia|]. rewrite Hrc. cbn [mbind result_bind]. unfold reshape.
    rewrite !length_slice, Hlen. case_decide as Hfit; [|done]. simpl.
    intros n s Hd. apply py_index_Ok in Hd as Hd'.
    rewrite Hrc in Hd'. injection Hd' as -> ->.
    split_and!; [done..|]. intros j k HQ Hj Hk. simpl.
    rewrite !slice_lookup_total by (rewrite length_slice; rewrite <- ?Hlen; nia).
    rewrite !list_lookup_total_alt, !Nat.add_assoc.
    by rewrite (Hcells i n s j k). }
  specialize (H Hstep). clear Hstep. unfold result_rel in H |- *.
  destruct (mapM' _ (seq 0 (length dims))) as [ms|e],
           (mapM' _ (seq 0 (length dims))) as [ms'|e']; try done.
  destruct H as (Hl & Hl' & Hms). split_and!; [done..|]. intros g n s Hd.
  destruct (lookup_lt_is_Some_2 ms g) as [m Hm];
    [rewrite Hl; by eapply lookup_lt_Some|].
  destruct (lookup_lt_is_Some_2 ms' g) as [m' Hm'];
    [rewrite Hl'; by eapply lookup_lt_Some|].
  exists m, m'. split_and!; [done..|]. by apply (Hms g m m').
Qed.

Lemma zeros_agree dims Q :
  groups_agree dims Q ((λ '(r, c), np_zeros r c) <$> dims)
    ((λ '(r, c), np_zeros r c) <$> dims).
Proof.
  split_and!; [by rewrite length_fmap..|]. intros g n s Hd.
  exists (np_zeros n s), (np_zeros n s). rewrite list_lookup_fmap, Hd. done.
Qed.

(** The flattened derivative of groups that agree on some rows. *)
Lemma flatten_agree dims Q yprime yprime' :
  groups_agree dims Q yprime yprime' →
  result_rel (cells_agree dims Q) (reduce_append (flatten <$> yprime))
    (reduce_append (flatten <$> yprime')).
Proof.
  intros (Hl & Hl' & Hg).
  assert (∀ ms : list (ndarray val), length ms = length dims →
     (∀ g n s, dims !! g = Some (n, s) → ∃ m, ms !! g = Some m ∧ shape m = (n, s)) →
     length <$> (flatten <$> ms) = group_sizes dims) as Hsizes.
  { intros ms Hlms Hms. apply list_eq. intros i. unfold group_sizes.
    rewrite !list_lookup_fmap. destruct (dims !! i) as [[n s]|] eqn:Hd.
    - destruct (Hms _ _ _ Hd) as (m & -> & Hshape). simpl.
      rewrite length_flatten. unfold shape in Hshape. by injection Hshape as -> ->.
    - apply lookup_ge_None in Hd. by rewrite lookup_ge_None_2 by lia. }
  assert (length <$> (flatten <$> yprime) = group_sizes dims) as Hs.
  { apply Hsizes; [done|]. intros g n s Hd.
    destruct (Hg _ _ _ Hd) as (m & m' & Hm & _ & Hr & _). eauto. }
  assert (length <$> (flatten <$> yprime') = group_sizes dims) as Hs'.
  { apply Hsizes; [done|]. intros g n s Hd.
    destruct (Hg _ _ _ Hd) as (m & m' & _ & Hm' & _ & Hr' & _). eauto. }
  clear Hsizes.
  assert (0 < length dims → result_rel (cells_agree dims Q)
            (Ok (mjoin (flatten <$> yprime))) (Ok (mjoin (flatten <$> yprime')))) as Hok;
    [intros _|].
  2:{ destruct yprime as [|yp yprime], yprime' as [|yp' yprime'];
        [done|simpl in *; lia|simpl in *; lia|].
      cbn [fmap list_fmap reduce_append]. rewrite !foldl_app_join.
      apply Hok. simpl in Hl. lia. }
  simpl.
  split; [by rewrite !length_join, Hs, Hs'|].
  intros g n s j k Hd HQ Hj Hk.
  destruct (Hg _ _ _ Hd) as (m & m' & Hm & Hm' & Hsh & Hsh' & Hcell).
  unfold shape in Hsh, Hsh'. injection Hsh as Hr Hc. injection Hsh' as Hr' Hc'.
  rewrite <- !Nat.add_assoc.
  rewrite <- (take_fmap_lengths (flatten <$> yprime)) at 1 by done.
  rewrite <- (take_fmap_lengths (flatten <$> yprime')) by done.
  rewrite (join_lookup_offset _ g (flatten m));
    [|by rewrite list_lookup_fmap, Hm|rewrite length_flatten; nia].
  rewrite (join_lookup_offset _ g (flatten m'));
    [|by rewrite list_lookup_fmap, Hm'|rewrite length_flatten; nia].
  rewrite <- Hc at 1. rewrite <- Hc'.
  rewrite !flatten_lookup by lia. f_equal. by apply Hcell.
Qed.

(** The derivative of two states that agree on some cells. *)
Lemma deriv_agree depth sim dims Q y y' t t' :
  Simulation.interactions sim = [] → Simulation.IM_dims sim = Ok dims →
  cells_agree dims Q y y' →
  result_rel (cells_agree dims Q) (Simulation.deriv depth sim y t)
    (Simulation.deriv depth sim y' t').
Proof.
  intros Hint Hdims Hy. unfold Simulation.deriv. rewrite Hdims.
  cbn [mbind result_bind].
  eapply result_rel_bind; [by apply unflatten_agree|]. intros ycs ycs' Hycs.
  eapply result_rel_bind; [|intros ? ?; apply flatten_agree].
  apply result_rel_foldM; [|apply zeros_agree].
  intros a a' i _ Ha. by apply accumulate_group_agree.
Qed.

(** X24: without interactions the cells do not see each other.  In a
    simulation with no interaction, take two states of the same length
    that agree on the entries of some cells.  Then [deriv] raises for the
    one exactly when it raises for the other, with the same exception, at
    whatever times it is called; and when it returns, the two
    derivatives have the same length and agree on the entries of those
    cells.  So the derivative of a cell is computed from the state of that
    cell alone, and whether [deriv] raises depends on the length of the
    state only. *)
Theorem X24_cells_without_interactions (depth : nat) (sim : Simulation.t)
    (dims : list (nat * nat)) (Q : nat → nat → Prop) (y y' : list val) (t t' : val) :
  Simulation.interactions sim = [] → Simulation.IM_dims sim = Ok dims →
  cells_agree dims Q y y' →
  (∀ e, Simulation.deriv depth sim y t = Raise e →
        Simulation.deriv depth sim y' t' = Raise e) ∧
  (∀ out, Simulation.deriv depth sim y t = Ok out →
     ∃ out', Simulation.deriv depth sim y' t' = Ok out' ∧ cells_agree dims Q out out').
Proof.
  intros Hint Hdims Hy.
  pose proof (deriv_agree depth sim dims Q y y' t t' Hint Hdims Hy) as H.
  unfold result_rel in H.
  destruct (Simulation.deriv depth sim y t) as [out|e],
           (Simulation.deriv depth sim y' t') as [out'|e']; try done.
  - split; [done|]. intros ? [= <-]. eauto.
  - subst e'. split; [|done]. by intros ? [= <-].
Qed.

Lemma X24_cells_without_interactions_witness :
  (∀ e, Simulation.deriv 5 sim_separate_cells [vone; vzero] vzero = Raise e →
        Simulation.deriv 5 sim_separate_cells [vone; vint 7] vone = Raise e) ∧
  (∀ out, Simulation.deriv 5 sim_separate_cells [vone; vzero] vzero = Ok out →
     ∃ out', Simulation.deriv 5 sim_separate_cells [vone; vint 7] vone = Ok out' ∧
             cells_agree [(2, 1)] (λ g j, j = 0) out out').
Proof.
  apply (X24_cells_without_interactions 5 sim_separate_cells [(2, 1)] (λ g j, j = 0)
           [vone; vzero] [vone; vint 7] vzero vone).
  - reflexivity.
  - reflexivity.
  - split; [reflexivity|]. intros [|g] n s j k Hd -> Hn Hk; [|done].
    injection Hd as <- <-. by replace k with 0 by lia.
Defined.

(** ** A diffusion term keeps the distances of its creation *)

Lemma bdim_None a b : a ≠ b → a ≠ 1 → b ≠ 1 → bdim a b = None.
Proof. intros. unfold bdim. by rewrite !decide_False. Qed.

Lemma Diffusion_apply_columns C dist_pre cmask x bounds :
  ncols dist_pre ≠ ncols x → ncols dist_pre ≠ 1 → ncols x ≠ 1 →
  Model.Diffusion_apply C dist_pre cmask x bounds = Raise ValueError ∨
  Model.Diffusion_apply C dist_pre cmask x bounds = Raise AttributeError.
Proof.
  intros Hne Hd Hx. unfold Model.Diffusion_apply, Model.Diffusion_masked_contribs.
  destruct bounds as [lower upper]. unfold mat_vec_op.
  destruct (bdim _ _) as [c|]; [|by left]. cbn [mbind result_bind].
  destruct C as [C|]; [|by right]. cbn [Model.getattr mbind result_bind].
  unfold mat_op. cbn [nrows ncols scal_mul rows_slice np_transpose].
  rewrite (bdim_None (ncols dist_pre)) by done.
  left. by destruct (bdim _ _).
Qed.

(** X25: a diffusion term keeps the distances of the cells that existed
    when it was made.  [add_interaction] returns only for the type
    ['diffusion']; it returns the value the counter had and appends one
    interaction with that id.  The distance prefactors of its term have
    one column per cell of that moment and are not computed again: when
    the term is later applied to a state with another number of cell
    columns (cells were added since), and neither number is one, it
    raises, [ValueError] for the shapes or [AttributeError] for missing
    parameters, and never returns. *)
Theorem X25_distances_fixed_at_creation (sim sim' : Simulation.t) (from_node : string)
    (to : target) (type : string) (connections : ndarray bool) (IM_id : option nat)
    (is_mod : bool) (mod_type : option string) (params : option (list val))
    (id : nat) :
  Simulation.add_interaction from_node to type connections IM_id is_mod mod_type params sim
    = (sim', Ok id) →
  type = "diffusion" ∧ id = Simulation.int_counter sim ∧
  ∃ i, Simulation.interactions sim' = Simulation.interactions sim ++ [i] ∧
       Interaction.int_id i = id ∧
       ∀ x bounds,
         ncols x ≠ Simulation.num_cells sim → ncols x ≠ 1 →
         Simulation.num_cells sim ≠ 1 →
         Model.apply2 (Interaction.model_ i) x bounds = Raise ValueError ∨
         Model.apply2 (Interaction.model_ i) x bounds = Raise AttributeError.
Proof.
  unfold Simulation.add_interaction, Simulation.get_int_model.
  rewrite st_bind_unfold. cbn [st_get]. rewrite st_bind_unfold. cbn [st_modify].
  rewrite st_lift_bind. case_decide as Htype; [|done].
  destruct (Model.new_Diffusion _ _ _) as [m|e] eqn:Hm; simpl; [|done].
  intros [= <- <-]. split; [done|]. split; [done|].
  unfold Model.new_Diffusion in Hm.
  apply bind_Ok in Hm as (C & _ & Hm). apply bind_Ok in Hm as (d & Hd & [= <-]).
  eexists. split; [by destruct sim|]. split; [done|].
  intros x bounds Hx Hx1 Hn1. cbn [Interaction.init Model.is_mod Interaction.model_ Model.apply2].
  assert (ncols d = Simulation.num_cells sim) as Hcols.
  { unfold Model.set_dist_pre in Hd. apply bind_Ok in Hd as (pos & Hpos & [= <-]).
    cbn [ncols]. unfold Simulation.num_cells. rewrite <- (length_fmap Cell.position).
    destruct (Cell.position <$> Simulation.cells sim) as [|[p0|] positions]; [done| |done].
    cbn [Model.positions_array] in Hpos. by apply mapM'_length in Hpos. }
  apply Diffusion_apply_columns; congruence.
Qed.

Lemma X25_distances_fixed_at_creation_witness :
  "diffusion" = "diffusion" ∧ 0 = Simulation.int_counter sim_separate_cells ∧
  ∃ i, Simulation.interactions
         (exec (Simulation.add_interaction "a" (TNode "a") "diffusion" neighbours None
                  false None (Some [vone])) sim_separate_cells)
       = Simulation.interactions sim_separate_cells ++ [i] ∧
       Interaction.int_id i = 0 ∧
       ∀ x bounds,
         ncols x ≠ Simulation.num_cells sim_separate_cells → ncols x ≠ 1 →
         Simulation.num_cells sim_separate_cells ≠ 1 →
         Model.apply2 (Interaction.model_ i) x bounds = Raise ValueError ∨
         Model.apply2 (Interaction.model_ i) x bounds = Raise AttributeError.
Proof.
  apply (X25_distances_fixed_at_creation sim_separate_cells
           (exec (Simulation.add_interaction "a" (TNode "a") "diffusion" neighbours None
                    false None (Some [vone])) sim_separate_cells)
           "a" (TNode "a") "diffusion" neighbours None false None (Some [vone]) 0).
  reflexivity.
Defined.
